(** * Flood image analyzer

    A shallow embedding of [scripts/flood_image_analyzer.py]: the class
    [FloodImageAnalyzer] with its response parser, its per-image
    retry/fallback loop, the ordering of the input files and the batch
    driver.

    Python values are embedded as follows.
    - [str] is [string], the UTF-8 bytes of the text.  Positions inside a
      text are byte positions; they coincide with Python's for ASCII text.
    - [int] is [Z]; [float] is a primitive binary64 float where the program
      computes with it, and the literal it was read from where the program
      only carries it around (a number decoded from JSON).
    - a [dict] is an association list in insertion order with unique keys.
    - raising is a result in a sum type; the outside world (file system,
      clock, the hosted model) is a record of oracles, and what the program
      does to the world is logged as a list of events.
    - [print] has no effect on any result and is left out. *)

From Stdlib Require Import String Ascii List ZArith NArith Bool Arith Lia.
From Stdlib Require Import Permutation Sorted.
From Stdlib Require Import Floats Uint63.
Import ListNotations.
Local Open Scope list_scope.
Local Open Scope string_scope.

(** ** Characters and text *)

Definition chr (n : nat) : ascii := ascii_of_nat n.
Definition ord (c : ascii) : nat := nat_of_ascii c.

Definition LF : ascii := chr 10.
Definition quote : ascii := chr 34.
Definition backslash : ascii := chr 92.

Definition str1 (c : ascii) : string := String c EmptyString.

Definition is_digit (c : ascii) : bool := (48 <=? ord c)%nat && (ord c <=? 57)%nat.

Definition digit_value (c : ascii) : Z := Z.of_nat (ord c) - 48.

(** [s.startswith(p)] together with the rest of [s] after the prefix. *)
Fixpoint strip_prefix (p s : string) : option string :=
  match p with
  | EmptyString => Some s
  | String a p' =>
      match s with
      | String b s' => if Ascii.eqb a b then strip_prefix p' s' else None
      | EmptyString => None
      end
  end.

Definition startswith (s p : string) : bool :=
  match strip_prefix p s with Some _ => true | None => false end.

(** [sub in s] *)
Fixpoint contains (sub s : string) : bool :=
  startswith s sub ||
  match s with
  | String _ s' => contains sub s'
  | EmptyString => false
  end.

Fixpoint rev_string (s acc : string) : string :=
  match s with
  | EmptyString => acc
  | String c s' => rev_string s' (String c acc)
  end.

(** [str(n)] for a natural number: the decimal digits, most significant first. *)
Fixpoint decimal_digits (fuel : nat) (n : N) (acc : string) : string :=
  let acc' := String (chr (48 + N.to_nat (n mod 10))) acc in
  match fuel with
  | O => acc'
  | S fuel' => if (n <? 10)%N then acc' else decimal_digits fuel' (n / 10)%N acc'
  end.

Definition str_of_N (n : N) : string := decimal_digits (N.to_nat (N.log2 n)) n "".
Definition str_of_nat (n : nat) : string := str_of_N (N.of_nat n).
Definition str_of_Z (z : Z) : string :=
  if (z <? 0)%Z then "-" ++ str_of_N (Z.to_N (- z)) else str_of_N (Z.to_N z).

(** ** Python values and exceptions *)

#[warnings="-register-all"]
Inductive value : Type :=
| VNone
| VBool (b : bool)
| VInt (n : Z)
| VFloat (literal : string)
| VStr (s : string)
| VList (l : list value)
| VDict (d : list (string * value)).

Definition dict : Type := list (string * value).

(** [d.get(k)] *)
Fixpoint dict_get (k : string) (d : dict) : option value :=
  match d with
  | [] => None
  | (k', v) :: d' => if String.eqb k k' then Some v else dict_get k d'
  end.

(** [d[k] = v]: an existing key keeps its place and takes the new value, a new
    key goes to the end. *)
Fixpoint dict_set (k : string) (v : value) (d : dict) : dict :=
  match d with
  | [] => [(k, v)]
  | (k', v') :: d' =>
      if String.eqb k k' then (k', v) :: d' else (k', v') :: dict_set k v d'
  end.

(** [dict(pairs)], and also [{**d, **pairs}] when started from [d]. *)
Definition dict_update (d : dict) (pairs : list (string * value)) : dict :=
  fold_left (fun acc kv => dict_set (fst kv) (snd kv) acc) pairs d.

Definition dict_of_pairs (pairs : list (string * value)) : dict := dict_update [] pairs.

Definition dict_keys (d : dict) : list string := map fst d.

Inductive exn : Type :=
| Exception (msg : string)
| JSONDecodeError (msg doc : string) (pos : nat)
| ValueError (msg : string)
| AttributeError (msg : string)
| RecursionError (msg : string)
| FileNotFoundError (msg : string)
(** an exception of class [cls] raised by a collaborator: the operating
    system, the network, the model client *)
| Raised (cls msg : string).

(** [doc.count('\n', 0, pos)] and the column of [pos], as
    [JSONDecodeError.__init__] computes them. *)
Fixpoint line_and_column (doc : string) (pos : nat) (lineno colno : nat) : nat * nat :=
  match pos, doc with
  | S pos', String c doc' =>
      if Ascii.eqb c LF then line_and_column doc' pos' (S lineno) 1
      else line_and_column doc' pos' lineno (S colno)
  | _, _ => (lineno, colno)
  end.

(** [str(e)] *)
Definition str_exn (e : exn) : string :=
  match e with
  | Exception msg | ValueError msg | AttributeError msg | RecursionError msg
  | FileNotFoundError msg | Raised _ msg => msg
  | JSONDecodeError msg doc pos =>
      let '(lineno, colno) := line_and_column doc pos 1 1 in
      msg ++ ": line " ++ str_of_nat lineno ++ " column " ++ str_of_nat colno
          ++ " (char " ++ str_of_nat pos ++ ")"
  end.

(** ** The JSON decoder of the standard library

    [json.loads] is library code; it is modelled after [json/decoder.py] and
    [json/scanner.py], with the messages and positions of the default
    (accelerated) scanner.  The cursor [(s, idx)] is the text still to read
    and the position of its first character in the document.

    Limits of the model: the interpreter's recursion limit is a fixed
    [recursion_limit] levels of nesting, and a float keeps its literal. *)

Inductive scanned (A : Type) : Type :=
| Scan (v : A) (rest : string) (end_ : nat)
| StopIteration (idx : nat)
| DecodeFail (msg : string) (pos : nat)
| ScanRaise (e : exn).
Arguments Scan {A}.
Arguments StopIteration {A}.
Arguments DecodeFail {A}.
Arguments ScanRaise {A}.

Definition is_whitespace (c : ascii) : bool :=
  Ascii.eqb c " " || Ascii.eqb c (chr 9) || Ascii.eqb c (chr 10) || Ascii.eqb c (chr 13).

(** [WHITESPACE.match(s, idx).end()] *)
Fixpoint skip_whitespace (s : string) (idx : nat) : string * nat :=
  match s with
  | String c s' => if is_whitespace c then skip_whitespace s' (S idx) else (s, idx)
  | EmptyString => (s, idx)
  end.

Definition hex_value (c : ascii) : option N :=
  let n := ord c in
  if is_digit c then Some (N.of_nat (n - 48))
  else if (97 <=? n)%nat && (n <=? 102)%nat then Some (N.of_nat (n - 87))
  else if (65 <=? n)%nat && (n <=? 70)%nat then Some (N.of_nat (n - 55))
  else None.

Definition hex4 (a b c d : ascii) : option N :=
  match hex_value a, hex_value b, hex_value c, hex_value d with
  | Some x, Some y, Some z, Some w => Some (((x * 16 + y) * 16 + z) * 16 + w)%N
  | _, _, _, _ => None
  end.

Definition byte_of_N (n : N) : ascii := ascii_of_N n.

(** [chr(uni)] as UTF-8; a lone surrogate is written like any other code
    point of its size. *)
Definition utf8 (uni : N) : string :=
  if (uni <? 128)%N then str1 (byte_of_N uni)
  else if (uni <? 2048)%N then
    String (byte_of_N (192 + uni / 64)) (str1 (byte_of_N (128 + uni mod 64)))
  else if (uni <? 65536)%N then
    String (byte_of_N (224 + uni / 4096))
      (String (byte_of_N (128 + (uni / 64) mod 64)) (str1 (byte_of_N (128 + uni mod 64))))
  else
    String (byte_of_N (240 + uni / 262144))
      (String (byte_of_N (128 + (uni / 4096) mod 64))
         (String (byte_of_N (128 + (uni / 64) mod 64)) (str1 (byte_of_N (128 + uni mod 64))))).

Definition is_high_surrogate (c : N) : bool := (55296 <=? c)%N && (c <=? 56319)%N.
Definition is_low_surrogate (c : N) : bool := (56320 <=? c)%N && (c <=? 57343)%N.

(** The [BACKSLASH] table. *)
Definition simple_escape (c : ascii) : option ascii :=
  if Ascii.eqb c quote then Some quote
  else if Ascii.eqb c backslash then Some backslash
  else if Ascii.eqb c "/" then Some "/"%char
  else if Ascii.eqb c "b" then Some (chr 8)
  else if Ascii.eqb c "f" then Some (chr 12)
  else if Ascii.eqb c "n" then Some (chr 10)
  else if Ascii.eqb c "r" then Some (chr 13)
  else if Ascii.eqb c "t" then Some (chr 9)
  else None.

(** [scanstring(s, end)] in strict mode.  [s] starts after the opening quote,
    which is at [begin]; [chunks] is what has been decoded so far, reversed. *)
Fixpoint scanstring_from (s : string) (end_ begin : nat) (chunks : string) : scanned string :=
  match s with
  | EmptyString => DecodeFail "Unterminated string starting at" begin
  | String c s1 =>
      if Ascii.eqb c quote then Scan (rev_string chunks "") s1 (S end_)
      else if Ascii.eqb c backslash then
        match s1 with
        | EmptyString => DecodeFail "Unterminated string starting at" begin
        | String esc s2 =>
            if Ascii.eqb esc "u" then
              match s2 with
              | String h1 (String h2 (String h3 (String h4 ((String _ _) as s6)))) =>
                  match hex4 h1 h2 h3 h4 with
                  | None => DecodeFail "Invalid \uXXXX escape" (S end_)
                  | Some uni =>
                      let single :=
                        scanstring_from s6 (end_ + 6) begin (rev_string (utf8 uni) chunks) in
                      if is_high_surrogate uni then
                        match s6 with
                        | String b1 (String u1
                            (String g1 (String g2 (String g3 (String g4 ((String _ _) as s12)))))) =>
                            if Ascii.eqb b1 backslash && Ascii.eqb u1 "u" then
                              match hex4 g1 g2 g3 g4 with
                              | None => DecodeFail "Invalid \uXXXX escape" (end_ + 7)
                              | Some uni2 =>
                                  if is_low_surrogate uni2 then
                                    let joined :=
                                      (65536 + ((uni - 55296) * 1024 + (uni2 - 56320)))%N in
                                    scanstring_from s12 (end_ + 12) begin
                                      (rev_string (utf8 joined) chunks)
                                  else single
                              end
                            else single
                        | _ => single
                        end
                      else single
                  end
              | _ => DecodeFail "Invalid \uXXXX escape" (S end_)
              end
            else
              match simple_escape esc with
              | Some char => scanstring_from s2 (end_ + 2) begin (String char chunks)
              | None => DecodeFail "Invalid \escape" end_
              end
        end
      else if (ord c <=? 31)%nat then DecodeFail "Invalid control character at" end_
      else scanstring_from s1 (S end_) begin (String c chunks)
  end.

Definition scanstring (s : string) (end_ : nat) : scanned string :=
  scanstring_from s end_ (end_ - 1) "".

(** The longest run of digits at the cursor, and the text after it. *)
Fixpoint span_digits (s : string) : string * string :=
  match s with
  | String c s' =>
      if is_digit c then let '(ds, rest) := span_digits s' in (String c ds, rest)
      else (EmptyString, s)
  | EmptyString => (EmptyString, s)
  end.

(** [int(digits)] for a run of ASCII digits. *)
Fixpoint int_of_digits (digits : string) (acc : Z) : Z :=
  match digits with
  | String c ds => int_of_digits ds (acc * 10 + digit_value c)
  | EmptyString => acc
  end.

(** [sys.int_info.default_max_str_digits] *)
Definition max_str_digits : nat := 4300.

(** The first group of [NUMBER_RE]: an optional minus sign, then either a
    single zero or a non-zero digit followed by any digits. *)
Definition match_integer (s : string) : option (string * string) :=
  let '(sign, s1) :=
    match s with
    | String c s' => if Ascii.eqb c "-" then ("-", s') else ("", s)
    | EmptyString => ("", s)
    end in
  match s1 with
  | String c s2 =>
      if Ascii.eqb c "0" then Some (sign ++ "0", s2)
      else if is_digit c then
        let '(ds, rest) := span_digits s2 in Some (sign ++ String c ds, rest)
      else None
  | EmptyString => None
  end.

(** The second group, optional: a dot followed by at least one digit. *)
Definition match_frac (s : string) : string * string :=
  match s with
  | String dot ((String d _) as s1) =>
      if Ascii.eqb dot "." && is_digit d then
        let '(ds, rest) := span_digits s1 in (String dot ds, rest)
      else ("", s)
  | _ => ("", s)
  end.

(** The third group, optional: [e] or [E], an optional sign, at least one
    digit. *)
Definition match_exp (s : string) : string * string :=
  match s with
  | String e s1 =>
      if Ascii.eqb e "e" || Ascii.eqb e "E" then
        let '(sign, s2) :=
          match s1 with
          | String c s' =>
              if Ascii.eqb c "-" || Ascii.eqb c "+" then (str1 c, s') else ("", s1)
          | EmptyString => ("", s1)
          end in
        match span_digits s2 with
        | (EmptyString, _) => ("", s)
        | (ds, rest) => (String e (sign ++ ds), rest)
        end
      else ("", s)
  | EmptyString => ("", s)
  end.

(** [match_number(string, idx)] and the conversion of what it matched. *)
Definition scan_number (s : string) (idx : nat) : option (scanned value) :=
  match match_integer s with
  | None => None
  | Some (integer, s1) =>
      let '(frac, s2) := match_frac s1 in
      let '(exp, s3) := match_exp s2 in
      let end_ := idx + String.length integer + String.length frac + String.length exp in
      match frac, exp with
      | EmptyString, EmptyString =>
          let digits :=
            match integer with
            | String c ds => if Ascii.eqb c "-" then ds else integer
            | EmptyString => integer
            end in
          if (max_str_digits <? String.length digits)%nat then
            Some (ScanRaise
                    (ValueError "Exceeds the limit (4300 digits) for integer string conversion"))
          else
            let n := int_of_digits digits 0 in
            Some (Scan (VInt (if startswith integer "-" then (- n)%Z else n)) s3 end_)
      | _, _ => Some (Scan (VFloat (integer ++ frac ++ exp)) s3 end_)
      end
  end.

(** The loop of [JSONArray], entered where a value is expected; [values] is
    reversed.  [fuel] bounds the number of elements by the length of the text. *)
Fixpoint array_loop (scan_once : string -> nat -> scanned value) (fuel : nat)
    (s : string) (end_ : nat) (values : list value) : scanned value :=
  match fuel with
  | O => ScanRaise (RecursionError "maximum recursion depth exceeded")
  | S fuel' =>
      match scan_once s end_ with
      | Scan v s1 end1 =>
          let '(s2, end2) := skip_whitespace s1 end1 in
          match s2 with
          | String c s3 =>
              if Ascii.eqb c "]" then Scan (VList (rev (v :: values))) s3 (S end2)
              else if Ascii.eqb c "," then
                let '(s4, end4) := skip_whitespace s3 (S end2) in
                array_loop scan_once fuel' s4 end4 (v :: values)
              else DecodeFail "Expecting ',' delimiter" end2
          | EmptyString => DecodeFail "Expecting ',' delimiter" end2
          end
      | StopIteration idx => DecodeFail "Expecting value" idx
      | DecodeFail msg pos => DecodeFail msg pos
      | ScanRaise e => ScanRaise e
      end
  end.

(** [JSONArray((s, end), scan_once)]: [s] starts after the opening bracket. *)
Definition JSONArray (scan_once : string -> nat -> scanned value)
    (s : string) (end_ : nat) : scanned value :=
  let '(s1, end1) := skip_whitespace s end_ in
  match s1 with
  | String c s2 =>
      if Ascii.eqb c "]" then Scan (VList []) s2 (S end1)
      else array_loop scan_once (S (String.length s1)) s1 end1 []
  | EmptyString => array_loop scan_once 1 s1 end1 []
  end.

(** The loop of [JSONObject], entered after the opening quote of a key;
    [pairs] is reversed. *)
Fixpoint object_loop (scan_once : string -> nat -> scanned value) (fuel : nat)
    (s : string) (end_ : nat) (pairs : list (string * value)) : scanned value :=
  match fuel with
  | O => ScanRaise (RecursionError "maximum recursion depth exceeded")
  | S fuel' =>
      match scanstring s end_ with
      | Scan key s1 end1 =>
          let '(s2, end2) := skip_whitespace s1 end1 in
          match s2 with
          | String colon s3 =>
              if Ascii.eqb colon ":" then
                let '(s4, end4) := skip_whitespace s3 (S end2) in
                match scan_once s4 end4 with
                | Scan v s5 end5 =>
                    let '(s6, end6) := skip_whitespace s5 end5 in
                    match s6 with
                    | String c s7 =>
                        if Ascii.eqb c "}" then
                          Scan (VDict (dict_of_pairs (rev ((key, v) :: pairs)))) s7 (S end6)
                        else if Ascii.eqb c "," then
                          let '(s8, end8) := skip_whitespace s7 (S end6) in
                          match s8 with
                          | String q s9 =>
                              if Ascii.eqb q quote then
                                object_loop scan_once fuel' s9 (S end8) ((key, v) :: pairs)
                              else
                                DecodeFail
                                  "Expecting property name enclosed in double quotes" end8
                          | EmptyString =>
                              DecodeFail
                                "Expecting property name enclosed in double quotes" end8
                          end
                        else DecodeFail "Expecting ',' delimiter" end6
                    | EmptyString => DecodeFail "Expecting ',' delimiter" end6
                    end
                | StopIteration idx => DecodeFail "Expecting value" idx
                | DecodeFail msg pos => DecodeFail msg pos
                | ScanRaise e => ScanRaise e
                end
              else DecodeFail "Expecting ':' delimiter" end2
          | EmptyString => DecodeFail "Expecting ':' delimiter" end2
          end
      | StopIteration idx => StopIteration idx
      | DecodeFail msg pos => DecodeFail msg pos
      | ScanRaise e => ScanRaise e
      end
  end.

(** [JSONObject((s, end), ...)]: [s] starts after the opening brace. *)
Definition JSONObject (scan_once : string -> nat -> scanned value)
    (s : string) (end_ : nat) : scanned value :=
  let '(s1, end1) := skip_whitespace s end_ in
  match s1 with
  | String c s2 =>
      if Ascii.eqb c "}" then Scan (VDict []) s2 (S end1)
      else if Ascii.eqb c quote then
        object_loop scan_once (S (String.length s1)) s2 (S end1) []
      else DecodeFail "Expecting property name enclosed in double quotes" end1
  | EmptyString => DecodeFail "Expecting property name enclosed in double quotes" end1
  end.

(** A literal such as [null] at the cursor. *)
Definition scan_literal (lit : string) (v : value) (s : string) (idx : nat)
  : option (scanned value) :=
  match strip_prefix lit s with
  | Some rest => Some (Scan v rest (idx + String.length lit))
  | None => None
  end.

Definition first_of {A} (a b : option A) : option A :=
  match a with Some _ => a | None => b end.

(** [_scan_once(string, idx)]; [depth] is the nesting still allowed. *)
Fixpoint scan_once (depth : nat) (s : string) (idx : nat) : scanned value :=
  match s with
  | EmptyString => StopIteration idx
  | String nextchar s' =>
      if Ascii.eqb nextchar quote then
        match scanstring s' (S idx) with
        | Scan str rest end_ => Scan (VStr str) rest end_
        | StopIteration i => StopIteration i
        | DecodeFail msg pos => DecodeFail msg pos
        | ScanRaise e => ScanRaise e
        end
      else if Ascii.eqb nextchar "{" then
        match depth with
        | O => ScanRaise (RecursionError
                 "maximum recursion depth exceeded while decoding a JSON object from a unicode string")
        | S depth' => JSONObject (scan_once depth') s' (S idx)
        end
      else if Ascii.eqb nextchar "[" then
        match depth with
        | O => ScanRaise (RecursionError
                 "maximum recursion depth exceeded while decoding a JSON array from a unicode string")
        | S depth' => JSONArray (scan_once depth') s' (S idx)
        end
      else
        let found :=
          first_of (scan_literal "null" VNone s idx)
            (first_of (scan_literal "true" (VBool true) s idx)
               (first_of (scan_literal "false" (VBool false) s idx)
                  (first_of (scan_number s idx)
                     (first_of (scan_literal "NaN" (VFloat "NaN") s idx)
                        (first_of (scan_literal "Infinity" (VFloat "Infinity") s idx)
                           (scan_literal "-Infinity" (VFloat "-Infinity") s idx)))))) in
        match found with
        | Some r => r
        | None => StopIteration idx
        end
  end.

Definition recursion_limit : nat := 1000.

(** The byte order mark U+FEFF, as UTF-8. *)
Definition BOM : string := String (chr 239) (String (chr 187) (str1 (chr 191))).

(** [json.loads(s)] *)
Definition json_loads (s : string) : exn + value :=
  if startswith s BOM then
    inl (JSONDecodeError "Unexpected UTF-8 BOM (decode using utf-8-sig)" s 0)
  else
    let '(s0, idx) := skip_whitespace s 0 in
    match scan_once recursion_limit s0 idx with
    | Scan obj rest end_ =>
        let '(rest', end') := skip_whitespace rest end_ in
        match rest' with
        | EmptyString => inr obj
        | String _ _ => inl (JSONDecodeError "Extra data" s end')
        end
    | StopIteration i => inl (JSONDecodeError "Expecting value" s i)
    | DecodeFail msg pos => inl (JSONDecodeError msg s pos)
    | ScanRaise e => inl e
    end.

(** [json.dumps(obj, ensure_ascii=False)]: the compact form with the default
    separators.  Only the characters of [ESCAPE] are escaped. *)
Definition hex_digit (n : nat) : ascii :=
  if (n <? 10)%nat then chr (48 + n) else chr (87 + n).

Definition escape_char (c : ascii) : string :=
  if Ascii.eqb c quote then String backslash (str1 quote)
  else if Ascii.eqb c backslash then String backslash (str1 backslash)
  else if Ascii.eqb c (chr 10) then String backslash "n"
  else if Ascii.eqb c (chr 13) then String backslash "r"
  else if Ascii.eqb c (chr 9) then String backslash "t"
  else if Ascii.eqb c (chr 8) then String backslash "b"
  else if Ascii.eqb c (chr 12) then String backslash "f"
  else if (ord c <? 32)%nat then
    String backslash ("u00" ++ String (hex_digit (ord c / 16)) (str1 (hex_digit (ord c mod 16))))
  else str1 c.

Fixpoint escape_string (s : string) : string :=
  match s with
  | EmptyString => EmptyString
  | String c s' => escape_char c ++ escape_string s'
  end.

Definition encode_basestring (s : string) : string :=
  String quote (escape_string s ++ str1 quote).

Definition join_with (sep : string) (parts : list string) : string :=
  match parts with
  | [] => ""
  | p :: ps => fold_left (fun acc q => acc ++ sep ++ q) ps p
  end.

Fixpoint json_dumps (v : value) : string :=
  match v with
  | VNone => "null"
  | VBool true => "true"
  | VBool false => "false"
  | VInt n => str_of_Z n
  | VFloat literal => literal
  | VStr s => encode_basestring s
  | VList l => "[" ++ join_with ", " (map json_dumps l) ++ "]"
  | VDict d =>
      "{" ++ join_with ", "
               (map (fun kv => encode_basestring (fst kv) ++ ": " ++ json_dumps (snd kv)) d)
          ++ "}"
  end.

(** ** Regular expressions

    The one pattern of the program needs literals and the greedy repetition of
    a negated one-character class.  [re_match] follows the backtracking
    search of [re]: the repetition first takes as much as it can. *)

Inductive re_item : Type :=
| Lit (c : ascii)
| StarNot (c : ascii).

Fixpoint re_match (p : list re_item) : string -> option string :=
  match p with
  | [] => fun _ => Some ""
  | Lit c :: p' =>
      fun s =>
        match s with
        | String x s' =>
            if Ascii.eqb x c then option_map (String x) (re_match p' s') else None
        | EmptyString => None
        end
  | StarNot c :: p' =>
      fix star (s : string) : option string :=
        match s with
        | String x s' =>
            if Ascii.eqb x c then re_match p' s
            else
              match star s' with
              | Some m => Some (String x m)
              | None => re_match p' s
              end
        | EmptyString => re_match p' s
        end
  end.

(** [re.search(p, s)]: the match at the leftmost position that has one. *)
Fixpoint re_search (p : list re_item) (s : string) : option string :=
  match re_match p s with
  | Some m => Some m
  | None =>
      match s with
      | String _ s' => re_search p s'
      | EmptyString => None
      end
  end.

Fixpoint literal (s : string) : list re_item :=
  match s with
  | EmptyString => []
  | String c s' => Lit c :: literal s'
  end.

Definition depth_key_quoted : string :=
  String quote ("depth_cm_estimate" ++ str1 quote).

(** An opening brace, no closing brace up to the quoted key, no closing brace
    after it up to a closing brace. *)
Definition json_block_pattern : list re_item :=
  (Lit "{" :: StarNot "}" :: literal depth_key_quoted ++ [StarNot "}"; Lit "}"])%list.

(** ** Base64, paths and [int] *)

Definition b64_alphabet : string :=
  "ABCDEFGHIJKLMNOPQRSTUVWXYZabcdefghijklmnopqrstuvwxyz0123456789+/".

Definition b64_char (n : nat) : ascii :=
  match String.get n b64_alphabet with
  | Some c => c
  | None => "="%char
  end.

(** [base64.b64encode(data).decode('utf-8')] *)
Fixpoint b64encode (data : string) : string :=
  match data with
  | EmptyString => ""
  | String a EmptyString =>
      String (b64_char (ord a / 4)) (String (b64_char (ord a mod 4 * 16)) "==")
  | String a (String b EmptyString) =>
      String (b64_char (ord a / 4))
        (String (b64_char (ord a mod 4 * 16 + ord b / 16))
           (String (b64_char (ord b mod 16 * 4)) "="))
  | String a (String b (String c rest)) =>
      String (b64_char (ord a / 4))
        (String (b64_char (ord a mod 4 * 16 + ord b / 16))
           (String (b64_char (ord b mod 16 * 4 + ord c / 64))
              (String (b64_char (ord c mod 64)) (b64encode rest))))
  end.

(** A path as the program uses it: [str(path)] and [path.name]. *)
Record Path : Type := mkPath { path_str : string; name : string }.

(** [directory / file_name], for a directory other than [.] and the root. *)
Definition joinpath (directory file_name : string) : Path :=
  mkPath (directory ++ "/" ++ file_name) file_name.

(** [name.rfind('.')] *)
Fixpoint rfind_dot (s : string) (i : nat) (found : option nat) : option nat :=
  match s with
  | EmptyString => found
  | String c s' => rfind_dot s' (S i) (if Ascii.eqb c "." then Some i else found)
  end.

(** The split point of [PurePath.suffix] and [PurePath.stem]: the last dot,
    when it is neither the first nor the last character of the name. *)
Definition suffix_start (file_name : string) : option nat :=
  match rfind_dot file_name 0 None with
  | Some i =>
      if (0 <? i)%nat && (i <? String.length file_name - 1)%nat then Some i else None
  | None => None
  end.

Definition suffix (p : Path) : string :=
  match suffix_start (name p) with
  | Some i => substring i (String.length (name p) - i) (name p)
  | None => ""
  end.

Definition stem (p : Path) : string :=
  match suffix_start (name p) with
  | Some i => substring 0 i (name p)
  | None => name p
  end.

(** [s.lower()], on the ASCII letters. *)
Definition lower_char (c : ascii) : ascii :=
  if (65 <=? ord c)%nat && (ord c <=? 90)%nat then chr (ord c + 32) else c.

Fixpoint lower (s : string) : string :=
  match s with
  | EmptyString => EmptyString
  | String c s' => String (lower_char c) (lower s')
  end.

Definition is_space (c : ascii) : bool :=
  ((9 <=? ord c)%nat && (ord c <=? 13)%nat) || Ascii.eqb c " ".

Fixpoint lstrip (s : string) : string :=
  match s with
  | String c s' => if is_space c then lstrip s' else s
  | EmptyString => s
  end.

Fixpoint all_space (s : string) : bool :=
  match s with
  | String c s' => is_space c && all_space s'
  | EmptyString => true
  end.

(** The digits of [int(s)]: digits with single underscores between them, then
    white space to the end.  Returns the value and the number of digits. *)
Fixpoint int_body (s : string) (acc : Z) (ndigits : nat) (after_digit : bool)
  : option (Z * nat) :=
  match s with
  | EmptyString => if after_digit then Some (acc, ndigits) else None
  | String c s' =>
      if is_digit c then int_body s' (acc * 10 + digit_value c) (S ndigits) true
      else if Ascii.eqb c "_" then
        if after_digit then
          match s' with
          | String d _ => if is_digit d then int_body s' acc ndigits false else None
          | EmptyString => None
          end
        else None
      else if is_space c then
        if after_digit && all_space s' then Some (acc, ndigits) else None
      else None
  end.

(** [int(s)] for a text of ASCII characters; [None] is [ValueError].  Digits
    and white space outside ASCII are not modelled: a text with such a
    character is not an integer here. *)
Definition py_int (s : string) : option Z :=
  let s0 := lstrip s in
  let '(negative, s1) :=
    match s0 with
    | String c s' =>
        if Ascii.eqb c "-" then (true, s')
        else if Ascii.eqb c "+" then (false, s')
        else (false, s0)
    | EmptyString => (false, s0)
    end in
  match int_body s1 0 0 false with
  | Some (n, ndigits) =>
      if (max_str_digits <? ndigits)%nat then None
      else Some (if negative then (- n)%Z else n)
  | None => None
  end.

(** ** Floats: the success rate

    [f"{x:.1f}"] rounds the exact value of the binary float to one decimal,
    ties to even. *)

Definition round_half_even (n e : Z) : Z :=
  if (0 <=? e)%Z then (n * 2 ^ e)%Z
  else
    let d := (2 ^ (- e))%Z in
    let q := (n / d)%Z in
    let r := (n mod d)%Z in
    if (2 * r <? d)%Z then q
    else if (d <? 2 * r)%Z then (q + 1)%Z
    else if Z.even q then q else (q + 1)%Z.

Definition format_1f (x : float) : string :=
  match Prim2SF x with
  | S754_zero sign => (if sign then "-" else "") ++ "0.0"
  | S754_infinity sign => if sign then "-inf" else "inf"
  | S754_nan => "nan"
  | S754_finite sign m e =>
      let tenths := round_half_even (Zpos m * 10) e in
      (if sign then "-" else "") ++ str_of_Z (tenths / 10) ++ "." ++ str_of_Z (tenths mod 10)
  end.

(** [float(n)] for a count. *)
Definition float_of_nat (n : nat) : float :=
  PrimFloat.of_uint63 (Uint63.of_Z (Z.of_nat n)).

(** [bool(v)]; a float is read off its literal, and a literal so small that
    it would round to zero counts as non-zero. *)
Fixpoint has_nonzero_digit (s : string) : bool :=
  match s with
  | EmptyString => false
  | String c s' =>
      if Ascii.eqb c "e" || Ascii.eqb c "E" then false
      else (is_digit c && negb (Ascii.eqb c "0")) || has_nonzero_digit s'
  end.

Definition truthy (v : value) : bool :=
  match v with
  | VNone => false
  | VBool b => b
  | VInt n => negb (n =? 0)%Z
  | VFloat literal =>
      match literal with
      | String c _ => if is_digit c || Ascii.eqb c "-" then
                        has_nonzero_digit literal || Ascii.eqb c "-" && contains "Inf" literal
                      else true
      | EmptyString => false
      end
  | VStr s => negb (String.eqb s "")
  | VList l => match l with [] => false | _ => true end
  | VDict d => match d with [] => false | _ => true end
  end.

(** [type(v).__name__] *)
Definition type_name (v : value) : string :=
  match v with
  | VNone => "NoneType"
  | VBool _ => "bool"
  | VInt _ => "int"
  | VFloat _ => "float"
  | VStr _ => "str"
  | VList _ => "list"
  | VDict _ => "dict"
  end.

(** ** The analyzer: constants *)

Definition SUPPORTED_FORMATS : list string := [".jpg"; ".jpeg"; ".png"; ".gif"; ".webp"].

Definition mem_string (s : string) (l : list string) : bool := existsb (String.eqb s) l.

Definition quoted (s : string) : string := String quote (s ++ str1 quote).

Definition unlines (l : list string) : string :=
  fold_right (fun line acc => line ++ String LF acc) EmptyString l.

(** [self.flood_prompt] *)
Definition flood_prompt : string :=
  unlines
    [ "**Task**";
      "You are an engineering vision assistant. From a single Charleston Harbor parking-lot frame, estimate:";
      "  • Water depth at the flooded parking area (cm, integer)";
      "  • Passability for an ordinary sedan";
      "  • Short justification";
      EmptyString;
      "**Region of interest (ROI)**";
      "Focus ONLY on the left-bottom parking area (asphalt with white bay stripes) and the planter/harbor curb that borders it.";
      EmptyString;
      "**Visual anchors & canonical dimensions**";
      "  • Concrete wheel stop height = 13 cm";
      "  • Planter/harbor curb reveal (asphalt → curb top) = 45 cm (allow ±5 cm)";
      EmptyString;
      "**Multi-anchor measurement (required)**";
      "Use at least TWO anchors (e.g., wheel-stop coverage + stripe clarity + curb margin).";
      "When measurable, include a rough pixel→cm reasoning; otherwise cite qualitative cues tied to the bands.";
      EmptyString;
      "**Cue-based depth bands (aligned with 45 ±5 cm curb reveal)**";
      "  < 5:   wheel stops dry; stripes crisp";
      "  5–10:  pooling at wheel-stop base; stripes crisp";
      "  10–15: water near wheel-stop top; stripes slightly faded";
      "  15–20: stripes faint; curb top ≈25–30 cm ABOVE water";
      "  20–25: stripes barely visible; curb top ≈20–25 cm ABOVE water";
      "  25–30: stripes gone;   curb top ≈15–20 cm ABOVE water; no spill on walkway";
      "  30–35: curb top ≈10–15 cm ABOVE water; no sustained spill";
      "  35–40: curb top ≈ 5–10 cm ABOVE water; occasional kiss/splash only";
      "  40–50: curb top 0–5 cm ABOVE water OR OVERTOPPED; thin (0–5 cm) sheet on walkway";
      "  > 50:  walkway broadly flooded (>5 cm); post bases or chains close to water";
      EmptyString;
      "**Overtopping (escalation) rules**";
      "If you see a continuous lip/foam crossing onto the walkway or a reflective sheet on the walkway, set the band to ≥40–50.";
      "Thin film 0–5 cm → 40–50; clearly >5 cm → >50.";
      EmptyString;
      "**Passability rules (sedan)**";
      "  pass ≤ 15 cm; caution 16–30 cm; unsafe > 30 cm";
      EmptyString;
      "**Conflict handling**";
      "If different anchors disagree by >10 cm, choose the larger (conservative) depth and state the reason (e.g., rain blur, glare).";
      EmptyString;
      "**Output**";
      "Return JSON ONLY:";
      "{";
      "  " ++ quoted "depth_cm_estimate" ++ ": <integer>,";
      "  " ++ quoted "depth_range" ++ ": "
           ++ quoted "<one of: <5 | 5–10 | 10–15 | 15–20 | 20–25 | 25–30 | 30–35 | 35–40 | 40–50 | >50>" ++ ",";
      "  " ++ quoted "passability" ++ ": " ++ quoted "<pass|caution|unsafe>" ++ ",";
      "  " ++ quoted "justification" ++ ": " ++ quoted "Brief: anchors used, and any evidence.";
      "}" ].

(** [self.response_schema] *)
Definition response_schema : value :=
  VDict
    [ ("type", VStr "object");
      ("properties",
        VDict
          [ ("depth_cm_estimate",
              VDict [ ("type", VStr "number");
                      ("description", VStr "Estimated water depth in centimeters") ]);
            ("depth_range",
              VDict [ ("type", VStr "string");
                      ("description", VStr "Depth range category") ]);
            ("passability",
              VDict [ ("type", VStr "string");
                      ("enum", VList [VStr "pass"; VStr "caution"; VStr "unsafe"; VStr "unknown"]);
                      ("description", VStr "Vehicle passability assessment") ]);
            ("justification",
              VDict [ ("type", VStr "string");
                      ("description", VStr "Detailed reasoning for the assessment") ]) ]);
      ("required",
        VList [VStr "depth_cm_estimate"; VStr "depth_range"; VStr "passability";
               VStr "justification"]);
      ("additionalProperties", VBool false) ].

Record fewshot_example : Type := mkExample {
  image : string;
  depth : Z;
  range : string;
  passability : string;
  justification : string
}.

(** [self.fewshot_examples] *)
Definition fewshot_examples : list fewshot_example :=
  [ mkExample "9.jpg" 5 "5–10" "pass"
      "Pooling at wheel-stop base; stripes crisp; water far below curb. Anchors: 13 cm wheel stop + stripe clarity.";
    mkExample "29.jpg" 13 "10–15" "pass"
      "Water near wheel-stop top (~13 cm); stripes slightly faded; curb top well above water (>30 cm margin). Anchors: wheel stop + curb margin.";
    mkExample "32.jpg" 22 "20–25" "caution"
      "Stripes barely visible; curb top ≈20–25 cm above water. Cross-checked with partial wheel-stop submergence (~13 cm).";
    mkExample "37.jpg" 28 "25–30" "caution"
      "Stripes gone; curb top ≈15–20 cm above water; no reflective sheet on walkway. Anchors: curb margin + wheel-stop coverage.";
    mkExample "43.jpg" 42 "40–50" "unsafe"
      "Sustained overtopping with ~0–5 cm sheet on walkway → ≥40 band; stripes lost; curb margin ~0–5 cm.";
    mkExample "45.jpg" 45 "40–50" "unsafe"
      "Walkway flooding visible (>5 cm in segments); curb overtopped; chains close to water. Conservative choice per overtopping rule." ].

(** The candidate models of [analyze_image], highest preference first. *)
Definition models_to_try : list string := ["gpt-4o"; "gpt-4o-mini"].

(** The ten depth bands the prompt asks for. *)
Definition depth_bands : list string :=
  ["<5"; "5–10"; "10–15"; "15–20"; "20–25"; "25–30"; "30–35"; "35–40"; "40–50"; ">50"].

(** The four content fields, in the order of [required]. *)
Definition content_fields : list string :=
  ["depth_cm_estimate"; "depth_range"; "passability"; "justification"].

(** ** The world

    The collaborators of the program.  [create] stands for
    [client.chat.completions.create] called with the request parameters,
    followed by [response.choices[0].message.content]: it raises or yields the content,
    which may be [None].  The answers of the model and of the clock may depend
    on everything the program has done so far. *)

Inductive event : Type :=
| EvCreate (api_params : value)
| EvSleep (seconds : value)
| EvDump (output_file : string) (output_data : value).

Record World : Type := mkWorld {
  fewshot_dir : string;
  read_bytes : string -> exn + string;
  path_exists : string -> bool;
  iterdir : string -> exn + list (Path * bool);
  create : list event -> value -> exn + option string;
  now : list event -> string;
  open_for_writing : string -> option exn
}.

Record encoded_example : Type := mkEncoded {
  image_data : string;
  mime_type : string;
  expected_output : dict
}.

(** What changes while the program runs: the history of its effects and the
    attribute [self._fewshot_cache], absent until the first image. *)
Record state : Type := mkState {
  history : list event;
  fewshot_cache : option (list encoded_example)
}.

Definition initial_state : state := mkState [] None.

Definition M (A : Type) : Type := state -> A * state.

Definition ret {A : Type} (a : A) : M A := fun st => (a, st).

Definition bind {A B : Type} (m : M A) (k : A -> M B) : M B :=
  fun st => let '(a, st') := m st in k a st'.

Notation "x <- m ;; k" := (bind m (fun x => k))
  (at level 61, m at next level, right associativity).
Notation "m ;;; k" := (bind m (fun _ => k))
  (at level 61, right associativity).

Definition perform (e : event) : M unit :=
  fun st => (tt, mkState (history st ++ [e])%list (fewshot_cache st)).

Definition get_history : M (list event) := fun st => (history st, st).

(** ** The analyzer: methods *)

Definition mime_types : list (string * string) :=
  [ (".jpg", "image/jpeg"); (".jpeg", "image/jpeg"); (".png", "image/png");
    (".gif", "image/gif"); (".webp", "image/webp") ].

Fixpoint assoc_default (k : string) (table : list (string * string)) (default : string)
  : string :=
  match table with
  | [] => default
  | (k', v) :: table' => if String.eqb k k' then v else assoc_default k table' default
  end.

(** [encode_image(image_path)] *)
Definition encode_image (w : World) (image_path : Path) : exn + (string * string) :=
  match read_bytes w (path_str image_path) with
  | inr data =>
      let encoded := b64encode data in
      let ext := lower (suffix image_path) in
      inr (encoded, assoc_default ext mime_types "image/jpeg")
  | inl e => inl (Exception ("图像编码失败: " ++ str_exn e))
  end.

(** [load_fewshot_examples()] *)
Fixpoint load_examples (w : World) (examples : list fewshot_example) : list encoded_example :=
  match examples with
  | [] => []
  | example :: rest =>
      let image_path := joinpath (fewshot_dir w) (image example) in
      if negb (path_exists w (path_str image_path)) then load_examples w rest
      else
        match encode_image w image_path with
        | inr (base64_image, mime) =>
            mkEncoded base64_image mime
              [ ("depth_cm_estimate", VInt (depth example));
                ("depth_range", VStr (range example));
                ("passability", VStr (passability example));
                ("justification", VStr (justification example)) ]
            :: load_examples w rest
        | inl _ => load_examples w rest
        end
  end.

Definition load_fewshot_examples (w : World) : list encoded_example :=
  load_examples w fewshot_examples.

Definition text_part (text : string) : value :=
  VDict [("type", VStr "text"); ("text", VStr text)].

Definition image_part (mime data : string) : value :=
  VDict [ ("type", VStr "image_url");
          ("image_url",
            VDict [ ("url", VStr ("data:" ++ mime ++ ";base64," ++ data));
                    ("detail", VStr "high") ]) ].

Definition message (role : string) (content : value) : value :=
  VDict [("role", VStr role); ("content", content)].

(** The two messages of example number [i], counted from zero. *)
Definition example_messages (i : nat) (example : encoded_example) : list value :=
  let expected := expected_output example in
  let item k := match dict_get k expected with Some v => v | None => VNone end in
  let response_json :=
    json_dumps
      (VDict [ ("depth_cm_estimate", item "depth_cm_estimate");
               ("depth_range", item "depth_range");
               ("passability", item "passability");
               ("justification", item "justification") ]) in
  [ message "user"
      (VList [ text_part ("Example " ++ str_of_nat (i + 1)
                            ++ ". Estimate flooding for this single frame.");
               image_part (mime_type example) (image_data example) ]);
    message "assistant" (VStr response_json) ].

Fixpoint enumerate_examples (i : nat) (examples : list encoded_example) : list value :=
  match examples with
  | [] => []
  | example :: rest => (example_messages i example ++ enumerate_examples (S i) rest)%list
  end.

Definition target_message (target_image_data target_mime_type : string) : value :=
  message "user"
    (VList [text_part flood_prompt; image_part target_mime_type target_image_data]).

(** [build_fewshot_messages(encoded_examples, target_image_data, target_mime_type)] *)
Definition build_fewshot_messages (encoded_examples : list encoded_example)
    (target_image_data target_mime_type : string) : list value :=
  (message "system"
     (VStr "You are an engineering vision assistant specialized in flood depth analysis. Learn from the following examples and apply the same methodology to new images.")
   :: enumerate_examples 0 encoded_examples
   ++ [target_message target_image_data target_mime_type])%list.

(** [parse_json_response(content)].  Only a [JSONDecodeError] of the first
    decoding starts the recovery; whatever the second decoding raises is
    dropped and the first error is raised again. *)
Definition parse_json_response (content : string) : exn + value :=
  match json_loads content with
  | inr v => inr v
  | inl (JSONDecodeError msg doc pos) =>
      let e := JSONDecodeError msg doc pos in
      match re_search json_block_pattern content with
      | Some json_match =>
          match json_loads json_match with
          | inr v => inr v
          | inl _ => inl e
          end
      | None => inl e
      end
  | inl other => inl other
  end.

(** The keyword arguments of one request. *)
Definition api_params (model : string) (messages : list value) : value :=
  VDict
    [ ("model", VStr model);
      ("messages", VList messages);
      ("max_completion_tokens", VInt 2000);
      ("response_format",
        VDict [ ("type", VStr "json_schema");
                ("json_schema",
                  VDict [ ("name", VStr "flood_analysis");
                          ("strict", VBool true);
                          ("schema", response_schema) ]) ]) ].

(** The record returned on success: the metadata, then the decoded object
    spread over it. *)
Definition success_record (image_path : Path) (timestamp model : string)
    (analysis_data : dict) : dict :=
  dict_update
    [ ("filename", VStr (name image_path));
      ("filepath", VStr (path_str image_path));
      ("timestamp", VStr timestamp);
      ("model_used", VStr model);
      ("analysis_success", VBool true) ]
    analysis_data.

(** The record returned by the handler of [analyze_image]. *)
Definition failure_record (image_path : Path) (timestamp : string) (e : exn) : dict :=
  [ ("filename", VStr (name image_path));
    ("filepath", VStr (path_str image_path));
    ("timestamp", VStr timestamp);
    ("model_used", VStr "none");
    ("analysis_success", VBool false);
    ("error", VStr (str_exn e));
    ("depth_cm_estimate", VNone);
    ("depth_range", VStr "unknown");
    ("passability", VStr "unknown");
    ("justification", VStr ("分析失败: " ++ str_exn e)) ].

(** The body of the inner [try]: one request to one model. *)
Definition try_model (w : World) (image_path : Path) (messages : list value)
    (model : string) : M (exn + dict) :=
  before <- get_history ;;
  perform (EvCreate (api_params model messages)) ;;;
  match create w before (api_params model messages) with
  | inl e => ret (inl e)
  | inr None => ret (inl (Exception "API返回空响应"))
  | inr (Some content) =>
      if String.eqb content EmptyString then ret (inl (Exception "API返回空响应"))
      else
        match parse_json_response content with
        | inl e => ret (inl e)
        | inr (VDict analysis_data) =>
            h <- get_history ;;
            ret (inr (success_record image_path (now w h) model analysis_data))
        | inr other =>
            ret (inl (AttributeError
                        ("'" ++ type_name other ++ "' object has no attribute 'get'")))
        end
  end.

(** [for model in models_to_try]: the first success returns from the
    function, a failure goes on to the next model. *)
Fixpoint try_models (w : World) (image_path : Path) (messages : list value)
    (models : list string) : M (option dict) :=
  match models with
  | [] => ret None
  | model :: rest =>
      r <- try_model w image_path messages model ;;
      match r with
      | inr record => ret (Some record)
      | inl _ => try_models w image_path messages rest
      end
  end.

(** [for attempt in range(max_retries)], with [remaining] rounds still to
    run from [attempt] on. *)
Fixpoint retry_rounds (w : World) (image_path : Path) (messages : list value)
    (max_retries : Z) (remaining : nat) (attempt : Z) : M (option dict) :=
  match remaining with
  | O => ret None
  | S remaining' =>
      r <- try_models w image_path messages models_to_try ;;
      match r with
      | Some record => ret (Some record)
      | None =>
          (if (attempt <? max_retries - 1)%Z then
             let wait_time := ((attempt + 1) * 2)%Z in
             perform (EvSleep (VInt wait_time))
           else ret tt) ;;;
          retry_rounds w image_path messages max_retries remaining' (attempt + 1)%Z
      end
  end.

(** The few-shot examples, loaded on the first call and kept. *)
Definition cached_fewshot (w : World) : M (list encoded_example) :=
  fun st =>
    match fewshot_cache st with
    | Some cache => (cache, st)
    | None =>
        let cache := load_fewshot_examples w in
        (cache, mkState (history st) (Some cache))
    end.

(** The messages sent for one image. *)
Definition build_messages (cache : list encoded_example) (base64_image mime : string)
  : list value :=
  match cache with
  | [] => [target_message base64_image mime]
  | _ :: _ => build_fewshot_messages cache base64_image mime
  end.

(** The body of the outer [try] of [analyze_image]. *)
Definition analyze_image_body (w : World) (image_path : Path) (max_retries : Z)
  : M (exn + dict) :=
  match encode_image w image_path with
  | inl e => ret (inl e)
  | inr (base64_image, mime) =>
      cache <- cached_fewshot w ;;
      let messages := build_messages cache base64_image mime in
      r <- retry_rounds w image_path messages max_retries (Z.to_nat max_retries) 0 ;;
      match r with
      | Some record => ret (inr record)
      | None => ret (inl (Exception "所有模型和重试都失败了"))
      end
  end.

(** [analyze_image(image_path, max_retries)] *)
Definition analyze_image (w : World) (image_path : Path) (max_retries : Z) : M dict :=
  r <- analyze_image_body w image_path max_retries ;;
  match r with
  | inr record => ret record
  | inl e =>
      h <- get_history ;;
      ret (failure_record image_path (now w h) e)
  end.

(** The key of [get_image_files]: [(0, int(path.stem))], or [(1, path.name)]
    when the stem is not an integer. *)
Definition sort_key (path : Path) : Z * (Z + string) :=
  match py_int (stem path) with
  | Some n => (0%Z, inl n)
  | None => (1%Z, inr (name path))
  end.

(** [a < b] on such tuples: decided by the first component when they differ,
    by the second otherwise.  The second components of two keys with the same
    first component are of one type. *)
Definition key_lt (a b : Z * (Z + string)) : bool :=
  if negb (fst a =? fst b)%Z then (fst a <? fst b)%Z
  else
    match snd a, snd b with
    | inl x, inl y => (x <? y)%Z
    | inr x, inr y => String.ltb x y
    | _, _ => false
    end.

(** [sorted(l, key=key)] compares with [<] only and is stable: an element is
    placed before the first one of those after it that is not smaller. *)
Section Sorted.
Context {A K : Type} (key : A -> K) (lt : K -> K -> bool).

Fixpoint insert_sorted (x : A) (l : list A) : list A :=
  match l with
  | [] => [x]
  | y :: l' => if lt (key y) (key x) then y :: insert_sorted x l' else x :: y :: l'
  end.

Definition sorted (l : list A) : list A := fold_right insert_sorted [] l.

End Sorted.

Definition is_image_file (entry : Path * bool) : bool :=
  snd entry && mem_string (lower (suffix (fst entry))) SUPPORTED_FORMATS.

(** [get_image_files(directory)] *)
Definition get_image_files (w : World) (directory : string) : exn + list Path :=
  match iterdir w directory with
  | inl e => inl e
  | inr entries =>
      let image_files := map fst (filter is_image_file entries) in
      inr (sorted sort_key key_lt image_files)
  end.

(** [d[k]] for a key that is there. *)
Definition dict_item (k : string) (d : dict) : value :=
  match dict_get k d with
  | Some v => v
  | None => VNone
  end.

(** [f"{(success_count / n * 100):.1f}%"] *)
Definition success_rate (success_count n : nat) : string :=
  format_1f
    (PrimFloat.mul (PrimFloat.div (float_of_nat success_count) (float_of_nat n))
       (float_of_nat 100))
  ++ "%".

(** The loop of [analyze_batch] over the files still to process. *)
Fixpoint batch_loop (w : World) (image_files : list Path) (results : list dict)
    (success_count : nat) : M (list dict * nat) :=
  match image_files with
  | [] => ret (results, success_count)
  | image_file :: rest =>
      result <- analyze_image w image_file 3 ;;
      let results' := (results ++ [result])%list in
      let success_count' :=
        if truthy (dict_item "analysis_success" result) then S success_count
        else success_count in
      perform (EvSleep (VFloat "0.5")) ;;;
      batch_loop w rest results' success_count'
  end.

Definition summary_of (total successful : nat) (rate timestamp : string) : value :=
  VDict
    [ ("total_images", VInt (Z.of_nat total));
      ("successful_analyses", VInt (Z.of_nat successful));
      ("failed_analyses", VInt (Z.of_nat total - Z.of_nat successful));
      ("success_rate", VStr rate);
      ("analysis_timestamp", VStr timestamp) ].

(** [analyze_batch(images_dir, output_file)] *)
Definition analyze_batch (w : World) (images_dir output_file : string) : M (exn + dict) :=
  if negb (path_exists w images_dir) then
    ret (inl (FileNotFoundError ("图像目录不存在: " ++ images_dir)))
  else
    match get_image_files w images_dir with
    | inl e => ret (inl e)
    | inr [] =>
        h <- get_history ;;
        let summary := summary_of 0 0 "0.0%" (now w h) in
        ret (inr [("results", VList []); ("summary", summary)])
    | inr image_files =>
        looped <- batch_loop w image_files [] 0 ;;
        let '(results, success_count) := looped in
        h <- get_history ;;
        let summary :=
          summary_of (length image_files) success_count
            (success_rate success_count (length image_files)) (now w h) in
        let output_data :=
          [("summary", summary); ("results", VList (map VDict results))] in
        match open_for_writing w output_file with
        | Some e => ret (inl e)
        | None =>
            perform (EvDump output_file (VDict output_data)) ;;;
            ret (inr output_data)
        end
    end.

(** ** Notions used in the statements *)

(** The value is an object with exactly the four content fields. *)
Definition has_exactly_content_fields (v : value) : bool :=
  match v with
  | VDict d =>
      forallb (fun k => mem_string k (dict_keys d)) content_fields
      && forallb (fun k => mem_string k content_fields) (dict_keys d)
  | _ => false
  end.

Definition passability_enum : list string := ["pass"; "caution"; "unsafe"; "unknown"].

(** Validity against [response_schema]: an object, no property besides the
    four, all four there, a number, a string, a string of the enumeration and
    a string. *)
Definition conforms_to_schema (v : value) : bool :=
  match v with
  | VDict d =>
      forallb (fun k => mem_string k content_fields) (dict_keys d)
      && match dict_get "depth_cm_estimate" d with
         | Some (VInt _) | Some (VFloat _) => true
         | _ => false
         end
      && match dict_get "depth_range" d with
         | Some (VStr _) => true
         | _ => false
         end
      && match dict_get "passability" d with
         | Some (VStr s) => mem_string s passability_enum
         | _ => false
         end
      && match dict_get "justification" d with
         | Some (VStr _) => true
         | _ => false
         end
  | _ => false
  end.

(** The event of one request. *)
Definition request (messages : list value) (model : string) : event :=
  EvCreate (api_params model messages).

(** What one request made after [h] brings: the record, or the error that
    sends the loop to the next model. *)
Definition request_outcome (w : World) (image_path : Path) (messages : list value)
    (model : string) (h : list event) : exn + dict :=
  match create w h (api_params model messages) with
  | inl e => inl e
  | inr None => inl (Exception "API返回空响应")
  | inr (Some content) =>
      if String.eqb content EmptyString then inl (Exception "API返回空响应")
      else
        match parse_json_response content with
        | inl e => inl e
        | inr (VDict analysis_data) =>
            inr (success_record image_path (now w (h ++ [request messages model])%list)
                   model analysis_data)
        | inr other =>
            inl (AttributeError
                   ("'" ++ type_name other ++ "' object has no attribute 'get'"))
        end
  end.

(** Round [r] of [R], counted from one, when every model fails: each model in
    order, then a pause of [r * 2] seconds unless it was the last round. *)
Definition round_events (messages : list value) (R r : nat) : list event :=
  (map (request messages) models_to_try
   ++ (if (r <? R)%nat then [EvSleep (VInt (Z.of_nat r * 2))] else []))%list.

(** All [R] rounds. *)
Definition exhausted_events (messages : list value) (R : nat) : list event :=
  flat_map (round_events messages R) (seq 1 R).

(** The messages [analyze_image] sends for an image whose bytes can be read,
    from the state it is called in. *)
Definition messages_for (w : World) (image_path : Path) (st : state) : list value :=
  match encode_image w image_path with
  | inr (base64_image, mime) =>
      build_messages (fst (cached_fewshot w st)) base64_image mime
  | inl _ => []
  end.

Definition all_failed : exn := Exception "所有模型和重试都失败了".

(** The record is the one of this file: built on success from some decoded
    object, or built by the handler from some error. *)
Definition record_of (image_file : Path) (record : dict) : Prop :=
  (exists timestamp model analysis_data,
      record = success_record image_file timestamp model analysis_data)
  \/ (exists timestamp e, record = failure_record image_file timestamp e).

(** The model never sends an object with this key. *)
Definition never_sent (key : string) (w : World) : Prop :=
  forall h params content d,
    create w h params = inr (Some content) ->
    parse_json_response content = inr (VDict d) ->
    dict_get key d = None.

Definition has_int_stem (path : Path) : bool :=
  match py_int (stem path) with Some _ => true | None => false end.

Definition int_stem (path : Path) : Z :=
  match py_int (stem path) with Some n => n | None => 0%Z end.

Fixpoint no_char (c : ascii) (s : string) : bool :=
  match s with
  | EmptyString => true
  | String x s' => negb (Ascii.eqb x c) && no_char c s'
  end.

(** ** A small world for examples

    A directory [data/test_images] whose files hold the bytes [JPEG]; no
    few-shot image exists; the clock shows the number of effects so far. *)

Definition model_of (params : value) : string :=
  match params with
  | VDict d => match dict_get "model" d with Some (VStr m) => m | _ => EmptyString end
  | _ => EmptyString
  end.

Definition sample_world (entries : list (Path * bool))
    (answer : list event -> string -> exn + option string) : World :=
  mkWorld "data/fewshot_examples"
    (fun path =>
       if startswith path "data/test_images/" then inr "JPEG"
       else inl (Raised "FileNotFoundError"
                   ("[Errno 2] No such file or directory: '" ++ path ++ "'")))
    (fun path => String.eqb path "data/test_images")
    (fun _ => inr entries)
    (fun h params => answer h (model_of params))
    (fun h => "2025-01-01T12:00:00.00" ++ str_of_nat (length h))
    (fun _ => None).

Definition test_image (file_name : string) : Path := joinpath "data/test_images" file_name.

Definition always_down (h : list event) (model : string) : exn + option string :=
  inl (Raised "APIConnectionError" "Connection error.").

Definition json_field (k v : string) : string := quoted k ++ ": " ++ v.

(** A reply valid against the schema, with a band outside the ten and the
    passability [unknown]. *)
Definition off_band_reply : string :=
  "{" ++ json_field "depth_cm_estimate" "5" ++ ", "
      ++ json_field "depth_range" (quoted "deep") ++ ", "
      ++ json_field "passability" (quoted "unknown") ++ ", "
      ++ json_field "justification" (quoted "glare") ++ "}".

(** A reply valid against the schema and within the bands. *)
Definition good_reply : string :=
  "{" ++ json_field "depth_cm_estimate" "12" ++ ", "
      ++ json_field "depth_range" (quoted "10–15") ++ ", "
      ++ json_field "passability" (quoted "pass") ++ ", "
      ++ json_field "justification" (quoted "wheel stop nearly covered") ++ "}".

(** A reply that is an object with the flag of the record in it. *)
Definition flag_reply : string := "{" ++ json_field "analysis_success" "false" ++ "}".

(** A reply that names a model itself. *)
Definition named_reply : string := "{" ++ json_field "model_used" (quoted "other") ++ "}".

(** The first model answers with a list, the second with a good object. *)
Definition list_then_good (h : list event) (model : string) : exn + option string :=
  if String.eqb model "gpt-4o" then inr (Some "[1, 2]") else inr (Some good_reply).

(** An object with the key, inside prose, whose justification has a closing
    brace in it. *)
Definition brace_object : string :=
  "{" ++ json_field "depth_cm_estimate" "5" ++ ", "
      ++ json_field "justification" (quoted "water at the } mark") ++ "}".

Definition brace_text : string := "Result: " ++ brace_object ++ " as requested.".

(** The same without the brace. *)
Definition plain_object : string :=
  "{" ++ json_field "depth_cm_estimate" "5" ++ "}".

Definition plain_text : string := "Result: " ++ plain_object ++ " as requested.".

(** An opening brace in the prose before the object. *)
Definition early_brace_text : string := "Set {x: " ++ plain_object ++ " as requested.".

(** The texts a pattern matches in full. *)
Inductive denotes : list re_item -> string -> Prop :=
| denotes_nil : denotes [] EmptyString
| denotes_lit (c : ascii) (p : list re_item) (m : string) :
    denotes p m -> denotes (Lit c :: p) (String c m)
| denotes_star (c : ascii) (p : list re_item) (a m : string) :
    no_char c a = true -> denotes p m -> denotes (StarNot c :: p) (a ++ m).

(** The state after the further effects [evs]. *)
Definition extend (st : state) (evs : list event) : state :=
  mkState (history st ++ evs)%list (fewshot_cache st).

(** A stretch [evs] of requests and pauses run after [h] with result [res]:
    a request in it that brings a record is its last effect and its record is
    the result; and a result is the record of its last request. *)
Definition first_hit_ends (w : World) (image_path : Path) (h evs : list event)
    (res : option dict) : Prop :=
  forall pre model messages post record,
    evs = (pre ++ request messages model :: post)%list ->
    request_outcome w image_path messages model (h ++ pre)%list = inr record ->
    post = [] /\ res = Some record.

Definition hit_is_last (w : World) (image_path : Path) (messages : list value)
    (h evs : list event) (res : option dict) : Prop :=
  forall record,
    res = Some record ->
    exists pre model,
      evs = (pre ++ [request messages model])%list
      /\ In model models_to_try
      /\ request_outcome w image_path messages model (h ++ pre)%list = inr record.

(** The result of the body of [analyze_image], as the result of its loop. *)
Definition returned (r : exn + dict) : option dict :=
  match r with
  | inr record => Some record
  | inl _ => None
  end.

(** A decoded value that is a dictionary has each key once. *)
Definition keys_once (v : value) : Prop :=
  match v with
  | VDict d => NoDup (dict_keys d)
  | _ => True
  end.

Definition scans_keys_once (r : scanned value) : Prop :=
  match r with
  | Scan v _ _ => keys_once v
  | _ => True
  end.

(** The pause after round [attempt + 1] of [R], if there is one. *)
Definition pause_events (R attempt : Z) : list event :=
  if (attempt <? R - 1)%Z then [EvSleep (VInt ((attempt + 1) * 2))] else [].

(** The models of the requests in a history, in order. *)
Definition requested_models (h : list event) : list string :=
  flat_map (fun e => match e with EvCreate params => [model_of params] | _ => [] end) h.

(** A world in which every image is read and the model always gives the
    same reply. *)
Definition replying (reply : string) : World :=
  sample_world [] (fun _ _ => inr (Some reply)).

(** The pauses in a history, in order. *)
Definition pauses (h : list event) : list value :=
  flat_map (fun e => match e with EvSleep seconds => [seconds] | _ => [] end) h.

(** A world in which every image is read and no request gets through. *)
Definition unreachable : World := sample_world [] always_down.

(** The record at the place of a file in the results: the result of
    [analyze_image] for that file in the state reached; the failure record
    of what the body raised, if it raised; in any case a record of that
    file. *)
Definition analysed (w : World) (image_file : Path) (record : dict) : Prop :=
  (exists st,
      record = fst (analyze_image w image_file 3 st)
      /\ forall e,
           fst (analyze_image_body w image_file 3 st) = inl e ->
           exists timestamp, record = failure_record image_file timestamp e)
  /\ record_of image_file record.

(** The report of a run that found no image. *)
Definition empty_report (timestamp : string) : dict :=
  [ ("results", VList []);
    ("summary",
      VDict [ ("total_images", VInt 0);
              ("successful_analyses", VInt 0);
              ("failed_analyses", VInt 0);
              ("success_rate", VStr "0.0%");
              ("analysis_timestamp", VStr timestamp) ]) ].

(** A directory with a text file and a sub-directory named like an image. *)
Definition no_images : World :=
  sample_world [(test_image "notes.txt", true); (test_image "7.jpg", false)] always_down.

(** A directory with an image that can be read and, under a name that leads
    elsewhere, one that cannot. *)
Definition two_images : World :=
  sample_world [(mkPath "elsewhere/x.png" "x.png", true); (test_image "9.jpg", true)]
    (fun _ _ => inr (Some good_reply)).

(** The four files of the example, as entries of a directory. *)
Definition example_entries : list (Path * bool) :=
  [ (test_image "9.jpg", true); (test_image "29.jpg", true);
    (test_image "2.png", true); (test_image "report.jpg", true) ].

(** [a] may stand before [b] in the result of [sorted]: [b] is not smaller. *)
Definition not_after {A K : Type} (key : A -> K) (lt : K -> K -> bool) (a b : A) : Prop :=
  lt (key b) (key a) = false.

(** ** Notions used in further statements *)

(** What a run has done: the effects after those of the state it started in. *)
Definition effects_since (before after : state) : list event :=
  skipn (length (history before)) (history after).

(** The pause between two images. *)
Definition pace : event := EvSleep (VFloat "0.5").

Definition is_pace (e : event) : bool :=
  match e with
  | EvSleep (VFloat literal) => String.eqb literal "0.5"
  | _ => false
  end.

(** The files written in a history, with what was written. *)
Definition dumps (h : list event) : list (string * value) :=
  flat_map (fun e => match e with EvDump f d => [(f, d)] | _ => [] end) h.

(** The test [if result["analysis_success"]] of the batch. *)
Definition flagged (record : dict) : bool :=
  truthy (dict_item "analysis_success" record).

(** The five fields that [analyze_image] writes before the decoded object. *)
Definition metadata (image_path : Path) (timestamp model : string) : dict :=
  [ ("filename", VStr (name image_path));
    ("filepath", VStr (path_str image_path));
    ("timestamp", VStr timestamp);
    ("model_used", VStr model);
    ("analysis_success", VBool true) ].

Definition metadata_keys : list string :=
  ["filename"; "filepath"; "timestamp"; "model_used"; "analysis_success"].

(** The image can be read. *)
Definition readable (w : World) (image_path : Path) : bool :=
  match read_bytes w (path_str image_path) with
  | inr _ => true
  | inl _ => false
  end.

(** The stem of the file is the integer [n]. *)
Definition int_stem_is (n : Z) (path : Path) : bool :=
  match py_int (stem path) with
  | Some m => (m =? n)%Z
  | None => false
  end.

(** A directory whose listing shows [1.png] before [01.jpg]. *)
Definition same_number_entries : list (Path * bool) :=
  [ (test_image "3.jpg", true); (test_image "1.png", true);
    (test_image "01.jpg", true); (test_image "b.gif", true) ].

(** The half-second pauses of the batch in a history. *)
Definition paces (h : list event) : list event := filter is_pace h.

(** A world like [two_images] whose output file cannot be opened. *)
Definition read_only : World :=
  mkWorld (fewshot_dir two_images) (read_bytes two_images) (path_exists two_images)
    (iterdir two_images) (create two_images) (now two_images)
    (fun path =>
       Some (Raised "PermissionError" ("[Errno 13] Permission denied: '" ++ path ++ "'"))).

(** [message["role"]] *)
Definition role_of (message : value) : string :=
  match message with
  | VDict d => match dict_get "role" d with Some (VStr role) => role | _ => EmptyString end
  | _ => EmptyString
  end.

(** The texts of the assistant turns among the messages. *)
Definition assistant_contents (messages : list value) : list string :=
  flat_map
    (fun message =>
       match message with
       | VDict d =>
           match dict_get "role" d, dict_get "content" d with
           | Some (VStr role), Some (VStr content) =>
               if String.eqb role "assistant" then [content] else []
           | _, _ => []
           end
       | _ => []
       end)
    messages.

(** The expected output of an entry of the table of examples. *)
Definition expected_of (example : fewshot_example) : dict :=
  [ ("depth_cm_estimate", VInt (depth example));
    ("depth_range", VStr (range example));
    ("passability", VStr (passability example));
    ("justification", VStr (justification example)) ].

(** The text is a reply the program accepts, valid against the schema, with
    one of the ten bands, and it decodes to [expected]. *)
Definition valid_reply_for (expected : dict) (content : string) : Prop :=
  parse_json_response content = inr (VDict expected)
  /\ conforms_to_schema (VDict expected) = true
  /\ exists band, dict_get "depth_range" expected = Some (VStr band) /\ In band depth_bands.

(** ** The constructor and [main]

    What the process finds around it: [os.getenv]; the lines that iterating
    over the open file at a path yields, with the error that ends the
    iteration if one does (the error of [open] itself, before any line, or an
    error of decoding); and the constructor of the client, which may raise. *)

Record Environment : Type := mkEnvironment {
  getenv : string -> option string;
  read_lines : string -> list string * option exn;
  OpenAI : string -> option exn
}.

(** The code points of [str.isspace]. *)
Definition isspace (code : N) : bool :=
  existsb (N.eqb code)
    [ 9; 10; 11; 12; 13; 28; 29; 30; 31; 32; 133; 160; 5760; 8192; 8193; 8194; 8195;
      8196; 8197; 8198; 8199; 8200; 8201; 8202; 8232; 8233; 8239; 8287; 12288 ]%N.

Definition code (c : ascii) : N := N.of_nat (ord c).

Definition continuation (c : ascii) : bool := (128 <=? code c)%N && (code c <? 192)%N.

(** A white-space character written in one, two or three bytes of UTF-8. *)
Definition space1 (a : ascii) : bool := (code a <? 128)%N && isspace (code a).

Definition space2 (a b : ascii) : bool :=
  (192 <=? code a)%N && (code a <? 224)%N && continuation b
  && isspace ((code a - 192) * 64 + (code b - 128)).

Definition space3 (a b c : ascii) : bool :=
  (224 <=? code a)%N && (code a <? 240)%N && continuation b && continuation c
  && isspace ((code a - 224) * 4096 + (code b - 128) * 64 + (code c - 128)).

(** Characters are dropped from the left while they are of the kind given;
    [s2] and [s3] recognise a character of two and of three bytes. *)
Fixpoint lstrip_where (s1 : ascii -> bool) (s2 : ascii -> ascii -> bool)
    (s3 : ascii -> ascii -> ascii -> bool) (s : string) : string :=
  match s with
  | EmptyString => s
  | String a r1 =>
      if s1 a then lstrip_where s1 s2 s3 r1
      else
        match r1 with
        | EmptyString => s
        | String b r2 =>
            if s2 a b then lstrip_where s1 s2 s3 r2
            else
              match r2 with
              | EmptyString => s
              | String c r3 => if s3 a b c then lstrip_where s1 s2 s3 r3 else s
              end
        end
  end.

Definition reversed (s : string) : string := rev_string s EmptyString.

(** [s.strip()]: white space is dropped from the left, then from the right,
    where the bytes of a character are met last to first. *)
Definition str_strip (s : string) : string :=
  let left := lstrip_where space1 space2 space3 s in
  reversed
    (lstrip_where space1 (fun a b => space2 b a) (fun a b c => space3 c b a)
       (reversed left)).

(** [s.strip(chars)] for ASCII characters [chars]. *)
Definition strip_chars (chars : ascii -> bool) (s : string) : string :=
  let none2 (_ _ : ascii) := false in
  let none3 (_ _ _ : ascii) := false in
  reversed (lstrip_where chars none2 none3
              (reversed (lstrip_where chars none2 none3 s))).

Definition is_quote (c : ascii) : bool := Ascii.eqb c "'" || Ascii.eqb c quote.

(** [s.split(sep, 1)] *)
Fixpoint split_once (sep : ascii) (s : string) : list string :=
  match s with
  | EmptyString => [EmptyString]
  | String c s' =>
      if Ascii.eqb c sep then [EmptyString; s']
      else
        match split_once sep s' with
        | head :: tail => String c head :: tail
        | [] => []
        end
  end.

Definition IndexError : exn := Raised "IndexError" "list index out of range".

(** [line.split('=', 1)[1].strip().strip(quotes)] *)
Definition key_of_line (line : string) : exn + string :=
  match split_once "=" line with
  | _ :: value :: _ => inr (strip_chars is_quote (str_strip value))
  | _ => inl IndexError
  end.

(** The loop over the lines of the file: the first line that starts with the
    name decides, and the file is read no further. *)
Fixpoint scan_env_lines (lines : list string) (at_end : option exn)
    (api_key : option string) : exn + option string :=
  match lines with
  | [] =>
      match at_end with
      | Some e => inl e
      | None => inr api_key
      end
  | line :: rest =>
      if startswith line "OPENAI_API_KEY=" then
        match key_of_line line with
        | inr key => inr (Some key)
        | inl e => inl e
        end
      else scan_env_lines rest at_end api_key
  end.

(** [not api_key] *)
Definition no_key (api_key : option string) : bool :=
  match api_key with
  | None => true
  | Some key => String.eqb key EmptyString
  end.

Definition missing_key : exn :=
  ValueError "❌ 未找到OPENAI_API_KEY。请设置环境变量或在backend/.env文件中配置。".

(** [FloodImageAnalyzer(api_key)]: the key the client is built with. *)
Definition FloodImageAnalyzer_init (w : World) (env : Environment)
    (api_key : option string) : exn + string :=
  let found :=
    match api_key with
    | Some key => inr (Some key)
    | None =>
        let api_key := getenv env "OPENAI_API_KEY" in
        if no_key api_key then
          if path_exists w "backend/.env" then
            let '(lines, at_end) := read_lines env "backend/.env" in
            scan_env_lines lines at_end api_key
          else inr api_key
        else inr api_key
    end in
  match found with
  | inl e => inl e
  | inr api_key =>
      match api_key with
      | Some key =>
          if String.eqb key EmptyString then inl missing_key
          else
            match OpenAI env key with
            | Some e => inl e
            | None => inr key
            end
      | None => inl missing_key
      end
  end.

Definition KeyError (key : string) : exn := Raised "KeyError" ("'" ++ key ++ "'").

Definition TypeError (msg : string) : exn := Raised "TypeError" msg.

(** [v[key]] for a key that is a string. *)
Definition subscript (v : value) (key : string) : exn + value :=
  match v with
  | VDict d =>
      match dict_get key d with
      | Some x => inr x
      | None => inl (KeyError key)
      end
  | VStr _ => inl (TypeError "string indices must be integers, not 'str'")
  | VList _ => inl (TypeError "list indices must be integers or slices, not str")
  | other => inl (TypeError ("'" ++ type_name other ++ "' object is not subscriptable"))
  end.

(** [v > 0] *)
Definition greater_than_zero (v : value) : exn + bool :=
  match v with
  | VInt n => inr (0 <? n)%Z
  | VBool b => inr b
  | VFloat literal =>
      inr (truthy v && negb (startswith literal "-") && negb (String.eqb literal "NaN"))
  | other =>
      inl (TypeError ("'>' not supported between instances of '" ++ type_name other
                      ++ "' and 'int'"))
  end.

(** One turn of the loop of [main] over the records: the record is shown
    when its flag is true. *)
Definition show_result (result : value) : exn + unit :=
  match subscript result "analysis_success" with
  | inl e => inl e
  | inr flag =>
      if truthy flag then
        match subscript result "filename" with
        | inl e => inl e
        | inr _ =>
            match subscript result "depth_cm_estimate" with
            | inl e => inl e
            | inr _ =>
                match subscript result "passability" with
                | inl e => inl e
                | inr _ => inr tt
                end
            end
        end
      else inr tt
  end.

Fixpoint show_results (results : list value) : exn + unit :=
  match results with
  | [] => inr tt
  | result :: rest =>
      match show_result result with
      | inl e => inl e
      | inr _ => show_results rest
      end
  end.

(** [for result in v]: a text and a dictionary yield texts, on which the
    look-up of the flag fails. *)
Definition for_each_result (v : value) : exn + unit :=
  match v with
  | VList results => show_results results
  | VStr s =>
      if String.eqb s EmptyString then inr tt
      else inl (TypeError "string indices must be integers, not 'str'")
  | VDict d =>
      match d with
      | [] => inr tt
      | _ :: _ => inl (TypeError "string indices must be integers, not 'str'")
      end
  | other => inl (TypeError ("'" ++ type_name other ++ "' object is not iterable"))
  end.

(** What [main] does with the report of the batch. *)
Definition show_report (results : value) : exn + unit :=
  match subscript results "summary" with
  | inl e => inl e
  | inr summary =>
      match subscript summary "total_images" with
      | inl e => inl e
      | inr _ =>
      match subscript summary "successful_analyses" with
      | inl e => inl e
      | inr _ =>
      match subscript summary "failed_analyses" with
      | inl e => inl e
      | inr _ =>
      match subscript summary "success_rate" with
      | inl e => inl e
      | inr _ =>
      match subscript summary "successful_analyses" with
      | inl e => inl e
      | inr successful =>
          match greater_than_zero successful with
          | inl e => inl e
          | inr false => inr tt
          | inr true =>
              match subscript results "results" with
              | inl e => inl e
              | inr records => for_each_result records
              end
          end
      end end end end end
  end.

(** [main()], run after the effects [h]: the exit code and the effects. *)
Definition main (w : World) (env : Environment) (h : list event) : Z * list event :=
  match FloodImageAnalyzer_init w env None with
  | inl _ => (1%Z, h)
  | inr _ =>
      let run :=
        analyze_batch w "data/test_images" "data/results/analysis_results.json"
          (mkState h None) in
      match fst run with
      | inl _ => (1%Z, history (snd run))
      | inr results =>
          match show_report (VDict results) with
          | inl _ => (1%Z, history (snd run))
          | inr _ => (0%Z, history (snd run))
          end
      end
  end.

(** ** Notions used in the statements about the constructor and [main] *)

(** A world in which every file exists and can be read. *)
Definition with_examples : World :=
  mkWorld "data/fewshot_examples" (fun _ => inr "JPEG") (fun _ => true)
    (fun _ => inr []) (fun _ _ => inr (Some good_reply))
    (fun _ => "2025-01-01T12:00:00") (fun _ => None).

Fixpoint all_chars (f : ascii -> bool) (s : string) : bool :=
  match s with
  | EmptyString => true
  | String c s' => f c && all_chars f s'
  end.

(** A printable ASCII character that is neither a space nor a quote. *)
Definition plain (c : ascii) : bool :=
  (32 <? code c)%N && (code c <? 127)%N && negb (is_quote c).

Definition starts_plain (s : string) : bool :=
  match s with
  | String c _ => plain c
  | EmptyString => false
  end.

Definition key_line (line : string) : bool := startswith line "OPENAI_API_KEY=".

(** The key is one of the texts the constructor looks at: the argument, the
    variable of the environment, or a line of the file that starts with the
    name. *)
Definition key_source (w : World) (env : Environment) (api_key : option string)
    (key : string) : Prop :=
  api_key = Some key
  \/ (api_key = None /\ getenv env "OPENAI_API_KEY" = Some key)
  \/ (api_key = None
      /\ no_key (getenv env "OPENAI_API_KEY") = true
      /\ path_exists w "backend/.env" = true
      /\ exists before line,
           firstn (S (length before)) (fst (read_lines env "backend/.env"))
           = (before ++ [line])%list
           /\ forallb (fun l => negb (key_line l)) before = true
           /\ key_line line = true
           /\ key_of_line line = inr key).

(** An environment without the variable, whose file has the lines given and
    is read to the end without error. *)
Definition env_with_file (lines : list string) : Environment :=
  mkEnvironment (fun _ => None) (fun _ => (lines, None)) (fun _ => None).

(** An environment with the variable set. *)
Definition env_with_key (key : string) : Environment :=
  mkEnvironment (fun _ => Some key) (fun _ => ([], None)) (fun _ => None).

(** Every object the model sends is valid against the schema, as the strict
    response format asks. *)
Definition replies_conform (w : World) : Prop :=
  forall h params content d,
    create w h params = inr (Some content) ->
    parse_json_response content = inr (VDict d) ->
    conforms_to_schema (VDict d) = true.

(** The record can be shown by [main]: it has the depth and the passability. *)
Definition showable (record : dict) : Prop :=
  flagged record = true ->
  exists depth_cm_estimate passability,
    dict_get "depth_cm_estimate" record = Some depth_cm_estimate
    /\ dict_get "passability" record = Some passability.

(** The batch as [main] runs it. *)
Definition main_batch (w : World) (h : list event) : (exn + dict) * state :=
  analyze_batch w "data/test_images" "data/results/analysis_results.json"
    (mkState h None).

(** A directory with one image, and a model whose reply is an object
    without the fields. *)
Definition one_image (reply : string) : World :=
  sample_world [(test_image "9.jpg", true)] (fun _ _ => inr (Some reply)).

Definition text_line (text : string) : string := text ++ String LF EmptyString.

(** A file whose first line with the name has an empty value in quotes. *)
Definition empty_value_line : string := text_line ("OPENAI_API_KEY=" ++ quoted EmptyString).

Definition empty_value_file : list string :=
  [text_line "# keys"; empty_value_line; text_line "OPENAI_API_KEY=sk-later"].

(** * Properties *)

(** ** Text *)

Lemma append_assoc (a b c : string) : (a ++ b) ++ c = a ++ (b ++ c).
Proof. induction a as [|x a IH]; simpl; [reflexivity | now rewrite IH]. Qed.

Lemma append_nil_r (a : string) : a ++ EmptyString = a.
Proof. induction a as [|x a IH]; simpl; [reflexivity | now rewrite IH]. Qed.

Lemma no_char_app (c : ascii) (a b : string) :
  no_char c (a ++ b) = no_char c a && no_char c b.
Proof.
  induction a as [|x a IH]; simpl; [reflexivity|].
  rewrite IH. now rewrite andb_assoc.
Qed.

(** Two texts without [c] that are followed by [c] in the same text are equal. *)
Lemma first_char_unique (c : ascii) (x y u v : string) :
  no_char c x = true -> no_char c y = true ->
  x ++ String c u = y ++ String c v -> x = y /\ u = v.
Proof.
  revert y. induction x as [|a x IH]; intros [|b y] Hx Hy E; simpl in *.
  - injection E as ->. now split.
  - injection E as <- _. rewrite Ascii.eqb_refl in Hy. discriminate.
  - injection E as -> _. rewrite Ascii.eqb_refl in Hx. discriminate.
  - injection E as -> E.
    apply andb_true_iff in Hx as [_ Hx]. apply andb_true_iff in Hy as [_ Hy].
    destruct (IH y Hx Hy E) as [-> ->]. now split.
Qed.

Lemma strip_prefix_app (p s rest : string) :
  strip_prefix p s = Some rest -> s = p ++ rest.
Proof.
  revert s. induction p as [|a p IH]; intros s H; simpl in *.
  - now injection H as ->.
  - destruct s as [|b s]; [discriminate|].
    destruct (Ascii.eqb_spec a b) as [->|]; [|discriminate].
    now rewrite (IH _ H).
Qed.

Lemma strip_prefix_self (p rest : string) : strip_prefix p (p ++ rest) = Some rest.
Proof.
  induction p as [|a p IH]; simpl; [reflexivity|].
  now rewrite Ascii.eqb_refl.
Qed.

(** [sub in s] holds exactly when [s] splits around [sub]. *)
Lemma contains_split (sub s : string) :
  contains sub s = true <-> exists a b, s = a ++ sub ++ b.
Proof.
  split.
  - induction s as [|x s IH]; simpl; intros H.
    + rewrite orb_false_r in H. unfold startswith in H.
      destruct (strip_prefix sub EmptyString) as [rest|] eqn:E; [|discriminate].
      exists EmptyString, rest. simpl. now apply strip_prefix_app.
    + apply orb_true_iff in H as [H|H].
      * unfold startswith in H.
        destruct (strip_prefix sub (String x s)) as [rest|] eqn:E; [|discriminate].
        exists EmptyString, rest. simpl. now apply strip_prefix_app.
      * destruct (IH H) as (a & b & ->). now exists (String x a), b.
  - intros (a & b & ->). induction a as [|x a IH]; simpl.
    + destruct (sub ++ b) eqn:E; simpl.
      * rewrite orb_false_r. unfold startswith. rewrite <- E.
        now rewrite strip_prefix_self.
      * unfold startswith. rewrite <- E. now rewrite strip_prefix_self.
    + rewrite IH. apply orb_true_r.
Qed.

(** ** The pattern matcher *)

Lemma star_sound (c : ascii) (p : list re_item)
    (IH : forall s m, re_match p s = Some m -> denotes p m /\ exists post, s = m ++ post)
    (s m : string) :
  re_match (StarNot c :: p) s = Some m ->
  denotes (StarNot c :: p) m /\ exists post, s = m ++ post.
Proof.
  revert m. induction s as [|x s IHs]; intros m H; simpl in H.
  - destruct (IH _ _ H) as [D [post E]]. split; [|now exists post].
    now apply (denotes_star c p EmptyString m).
  - destruct (Ascii.eqb x c) eqn:Ex.
    + destruct (IH _ _ H) as [D [post E]]. split; [|now exists post].
      now apply (denotes_star c p EmptyString m).
    + change ((fix star (s0 : string) : option string :=
                 match s0 with
                 | EmptyString => re_match p s0
                 | String x0 s' =>
                     if Ascii.eqb x0 c then re_match p s0
                     else match star s' with
                          | Some m0 => Some (String x0 m0)
                          | None => re_match p s0
                          end
                 end) s) with (re_match (StarNot c :: p) s) in H.
      destruct (re_match (StarNot c :: p) s) as [m'|] eqn:Em.
      * injection H as <-. destruct (IHs _ eq_refl) as [D [post E]].
        split; [|exists post; simpl; now rewrite E].
        inversion D as [| |c' p' a m0 Ha Dm]; subst.
        apply (denotes_star c p (String x a) m0); [|assumption].
        simpl. now rewrite Ex.
      * destruct (IH _ _ H) as [D [post E]]. split; [|now exists post].
        now apply (denotes_star c p EmptyString m).
Qed.

(** What [re_match] returns is matched by the pattern and starts the text. *)
Lemma re_match_sound (p : list re_item) (s m : string) :
  re_match p s = Some m -> denotes p m /\ exists post, s = m ++ post.
Proof.
  revert s m. induction p as [|[c|c] p IH]; intros s m H.
  - simpl in H. injection H as <-. split; [constructor | now exists s].
  - simpl in H. destruct s as [|x s]; [discriminate|].
    destruct (Ascii.eqb_spec x c) as [->|]; [|discriminate].
    destruct (re_match p s) as [m'|] eqn:E; [|discriminate].
    injection H as <-. destruct (IH _ _ E) as [D [post ->]].
    split; [now constructor | now exists post].
  - now apply star_sound.
Qed.

Lemma star_skip (c : ascii) (p : list re_item) (s m : string) :
  re_match p s = Some m -> exists m', re_match (StarNot c :: p) s = Some m'.
Proof.
  intros H. destruct s as [|x s]; simpl.
  - now exists m.
  - destruct (Ascii.eqb x c); [now exists m|].
    match goal with |- context [match ?t with _ => _ end] => destruct t as [m'|] end.
    + now exists (String x m').
    + now exists m.
Qed.

(** A text the pattern matches is found at the start of any text it starts. *)
Lemma re_match_complete (p : list re_item) (m : string) :
  denotes p m -> forall post, exists m', re_match p (m ++ post) = Some m'.
Proof.
  induction 1 as [|c p m D IH|c p a m Ha D IH]; intros post.
  - now exists EmptyString.
  - simpl. rewrite Ascii.eqb_refl. destruct (IH post) as [m' ->].
    now exists (String c m').
  - rewrite append_assoc. induction a as [|x a IHa].
    + simpl. destruct (IH post) as [m' E]. now apply star_skip with (m := m').
    + simpl in Ha. apply andb_true_iff in Ha as [Hx Ha].
      destruct (IHa Ha) as [m' E].
      exists (String x m'). simpl. 
      apply negb_true_iff in Hx. rewrite Hx.
      change ((fix star (s0 : string) : option string :=
                 match s0 with
                 | EmptyString => re_match p s0
                 | String x0 s' =>
                     if Ascii.eqb x0 c then re_match p s0
                     else match star s' with
                          | Some m0 => Some (String x0 m0)
                          | None => re_match p s0
                          end
                 end) (a ++ m ++ post)) with (re_match (StarNot c :: p) (a ++ m ++ post)).
      now rewrite E.
Qed.

Lemma denotes_literal (k : string) (p : list re_item) (m : string) :
  denotes p m -> denotes (literal k ++ p)%list (k ++ m).
Proof. intros D. induction k as [|c k IH]; simpl; [assumption | now constructor]. Qed.

Lemma denotes_literal_inv (k : string) (p : list re_item) (m : string) :
  denotes (literal k ++ p)%list m -> exists m', m = k ++ m' /\ denotes p m'.
Proof.
  revert m. induction k as [|c k IH]; simpl; intros m D.
  - now exists m.
  - inversion D as [|c' p' m0 D0|]; subst.
    destruct (IH _ D0) as (m' & -> & D'). now exists m'.
Qed.

(** The texts of the block pattern: braces around a text without a closing
    brace that holds the quoted key. *)
Lemma block_denotes (a b : string) :
  no_char "}" a = true -> no_char "}" b = true ->
  denotes json_block_pattern ("{" ++ (a ++ depth_key_quoted ++ b) ++ "}").
Proof.
  intros Ha Hb. unfold json_block_pattern.
  change ("{" ++ (a ++ depth_key_quoted ++ b) ++ "}")
    with (String "{" ((a ++ depth_key_quoted ++ b) ++ "}")).
  constructor. rewrite append_assoc. constructor; [assumption|].
  rewrite append_assoc. apply denotes_literal.
  apply (denotes_star "}" [Lit "}"] b "}"); [assumption|].
  repeat constructor.
Qed.

Lemma block_denotes_inv (m : string) :
  denotes json_block_pattern m ->
  exists body, m = "{" ++ body ++ "}"
               /\ no_char "}" body = true /\ contains depth_key_quoted body = true.
Proof.
  unfold json_block_pattern. intros D.
  inversion D as [|c p m1 D1|]; subst.
  inversion D1 as [| |c p a m2 Ha D2]; subst.
  apply (denotes_literal_inv depth_key_quoted [StarNot "}"; Lit "}"]) in D2
    as (m3 & -> & D3).
  inversion D3 as [| |c p b m4 Hb D4]; subst.
  inversion D4 as [|c p m5 D5|]; subst.
  inversion D5; subst.
  exists (a ++ depth_key_quoted ++ b). split; [|split].
  - simpl. now rewrite !append_assoc.
  - rewrite !no_char_app, Ha, Hb. reflexivity.
  - apply contains_split. now exists a, b.
Qed.

(** At an opening brace followed, with no closing brace in between, by the
    key and then a closing brace, the pattern matches up to that brace. *)
Lemma block_match (body post : string) :
  no_char "}" body = true -> contains depth_key_quoted body = true ->
  re_match json_block_pattern ("{" ++ body ++ "}" ++ post) = Some ("{" ++ body ++ "}").
Proof.
  intros Hbody Hkey.
  assert (D : denotes json_block_pattern ("{" ++ body ++ "}")).
  { apply contains_split in Hkey as (a & b & ->).
    rewrite !no_char_app in Hbody.
    apply andb_true_iff in Hbody as [Ha Hb]. apply andb_true_iff in Hb as [_ Hb].
    now apply block_denotes. }
  destruct (re_match_complete _ _ D post) as [m' E].
  assert (S : ("{" ++ body ++ "}") ++ post = "{" ++ body ++ "}" ++ post).
  { simpl. now rewrite append_assoc. }
  rewrite S in E. rewrite E. f_equal.
  destruct (re_match_sound _ _ _ E) as [D' [post' Epost]].
  apply block_denotes_inv in D' as (body' & -> & Hbody' & _).
  simpl in Epost. injection Epost as Epost. rewrite append_assoc in Epost.
  simpl in Epost.
  now apply first_char_unique in Epost as [<- _].
Qed.

Lemma re_search_found (p : list re_item) (s m : string) :
  re_match p s = Some m -> re_search p s = Some m.
Proof. intros H. destruct s; simpl; now rewrite H. Qed.

(** Before the first opening brace there is no match. *)
Lemma re_search_skip (pre s : string) :
  no_char "{" pre = true ->
  re_search json_block_pattern (pre ++ s) = re_search json_block_pattern s.
Proof.
  induction pre as [|x pre IH]; simpl; intros H; [reflexivity|].
  apply andb_true_iff in H as [Hx H]. apply negb_true_iff in Hx.
  rewrite Hx. now apply IH.
Qed.

(** What [re_search] returns is matched by the pattern and is part of the
    text. *)
Lemma re_search_sound (p : list re_item) (s m : string) :
  re_search p s = Some m -> denotes p m /\ exists pre post, s = pre ++ m ++ post.
Proof.
  induction s as [|x s IH]; simpl; intros H.
  - destruct (re_match p EmptyString) as [m'|] eqn:E; [|discriminate].
    injection H as <-. destruct (re_match_sound _ _ _ E) as [D [post ->]].
    split; [assumption | now exists EmptyString, post].
  - destruct (re_match p (String x s)) as [m'|] eqn:E.
    + injection H as <-. destruct (re_match_sound _ _ _ E) as [D [post Epost]].
      split; [assumption | now exists EmptyString, post].
    + destruct (IH H) as [D (pre & post & ->)].
      split; [assumption | now exists (String x pre), post].
Qed.

(** ** C1, C8: the response parser *)

(** The parser returns what the decoder returns, for the whole text or for
    the block the pattern finds in it. *)
Lemma parse_json_response_cases (content : string) (v : value) :
  parse_json_response content = inr v ->
  json_loads content = inr v
  \/ exists msg doc pos json_match,
       json_loads content = inl (JSONDecodeError msg doc pos)
       /\ re_search json_block_pattern content = Some json_match
       /\ json_loads json_match = inr v.
Proof.
  unfold parse_json_response. intros H.
  destruct (json_loads content) as [e|v'] eqn:E.
  - right. destruct e; try discriminate.
    destruct (re_search json_block_pattern content) as [json_match|] eqn:Em;
      [|discriminate].
    destruct (json_loads json_match) as [e'|v'] eqn:E'; [discriminate|].
    injection H as <-. now exists msg, doc, pos, json_match.
  - left. assumption.
Qed.

(** C1, as amended.  Whenever [parse_json_response] returns, the value is the
    one the decoder gives for the whole text, or, when the whole text does not
    decode, for a part of it that runs from an opening brace to the next
    closing brace and holds the quoted key [depth_cm_estimate] in between.
    Nothing is added to the decoded value, nothing is removed from it and its
    fields are not checked: it has exactly the four content fields only if
    the decoded text has them. *)
Theorem parse_json_response_returns_decoded (content : string) (v : value) :
  parse_json_response content = inr v ->
  json_loads content = inr v
  \/ exists e pre body post,
       json_loads content = inl e
       /\ content = pre ++ ("{" ++ body ++ "}") ++ post
       /\ no_char "}" body = true
       /\ contains depth_key_quoted body = true
       /\ json_loads ("{" ++ body ++ "}") = inr v.
Proof.
  intros H. apply parse_json_response_cases in H as [H|H]; [now left|right].
  destruct H as (msg & doc & pos & json_match & E & Em & Ev).
  apply re_search_sound in Em as [D (pre & post & Es)].
  apply block_denotes_inv in D as (body & -> & Hb & Hk).
  now exists (JSONDecodeError msg doc pos), pre, body, post.
Qed.

Lemma parse_json_response_returns_decoded_witness :
  json_loads plain_text = inr (VDict [("depth_cm_estimate", VInt 5)])
  \/ exists e pre body post,
       json_loads plain_text = inl e
       /\ plain_text = pre ++ ("{" ++ body ++ "}") ++ post
       /\ no_char "}" body = true
       /\ contains depth_key_quoted body = true
       /\ json_loads ("{" ++ body ++ "}") = inr (VDict [("depth_cm_estimate", VInt 5)]).
Proof.
  apply (parse_json_response_returns_decoded plain_text). vm_compute. reflexivity.
Defined.

(** C1 as stated fails: from a reply in prose the parser recovers an object
    with one of the four fields, and returns a list as it is. *)
Lemma parse_json_response_fields_unchecked :
  parse_json_response plain_text = inr (VDict [("depth_cm_estimate", VInt 5)])
  /\ has_exactly_content_fields (VDict [("depth_cm_estimate", VInt 5)]) = false
  /\ parse_json_response "[1, 2]" = inr (VList [VInt 1; VInt 2])
  /\ has_exactly_content_fields (VList [VInt 1; VInt 2]) = false.
Proof. repeat split; vm_compute; reflexivity. Qed.

(** C8, as amended.  For a text that the decoder rejects with a decode error:
    when the text holds, after a stretch without an opening brace, a block in
    braces that has no closing brace inside and holds the quoted key, the
    parser returns what that block decodes to, or raises the first error again
    if the block does not decode; and when no block of the text from an
    opening brace to the next closing brace with the key in between decodes,
    the parser raises the first error again. *)
Theorem parse_json_response_recovery (content msg doc : string) (pos : nat) :
  json_loads content = inl (JSONDecodeError msg doc pos) ->
  (forall pre body post,
      content = pre ++ ("{" ++ body ++ "}") ++ post ->
      no_char "{" pre = true -> no_char "}" body = true ->
      contains depth_key_quoted body = true ->
      parse_json_response content =
        match json_loads ("{" ++ body ++ "}") with
        | inr v => inr v
        | inl _ => inl (JSONDecodeError msg doc pos)
        end)
  /\ ((forall pre body post,
          content = pre ++ ("{" ++ body ++ "}") ++ post ->
          no_char "}" body = true -> contains depth_key_quoted body = true ->
          forall v, json_loads ("{" ++ body ++ "}") <> inr v) ->
      parse_json_response content = inl (JSONDecodeError msg doc pos)).
Proof.
  intros E. split.
  - intros pre body post -> Hpre Hbody Hkey.
    unfold parse_json_response. rewrite E.
    rewrite re_search_skip by assumption.
    assert (S : ("{" ++ body ++ "}") ++ post = "{" ++ body ++ "}" ++ post).
    { simpl. now rewrite append_assoc. }
    rewrite S, (re_search_found _ _ _ (block_match body post Hbody Hkey)).
    reflexivity.
  - intros Hnone. unfold parse_json_response. rewrite E.
    destruct (re_search json_block_pattern content) as [json_match|] eqn:Em;
      [|reflexivity].
    destruct (json_loads json_match) as [e'|v] eqn:Ev; [reflexivity|].
    exfalso. apply re_search_sound in Em as [D (pre & post & Es)].
    apply block_denotes_inv in D as (body & -> & Hb & Hk).
    exact (Hnone pre body post Es Hb Hk v Ev).
Qed.

Lemma parse_json_response_recovery_witness :
  parse_json_response plain_text = inr (VDict [("depth_cm_estimate", VInt 5)]).
Proof.
  assert (E : json_loads plain_text = inl (JSONDecodeError "Expecting value" plain_text 0))
    by (vm_compute; reflexivity).
  destruct (parse_json_response_recovery plain_text _ _ _ E) as [Hrec _].
  rewrite (Hrec "Result: " (quoted "depth_cm_estimate" ++ ": 5") " as requested.");
    vm_compute; reflexivity.
Defined.

(** C8 as stated fails: the text holds, in prose, an object with the key that
    decodes on its own, and the parser raises; so it does when an opening
    brace stands in the prose before the object. *)
Lemma parse_json_response_recovery_fails :
  brace_text = "Result: " ++ brace_object ++ " as requested."
  /\ json_loads brace_object
     = inr (VDict [("depth_cm_estimate", VInt 5);
                   ("justification", VStr "water at the } mark")])
  /\ parse_json_response brace_text
     = inl (JSONDecodeError "Expecting value" brace_text 0)
  /\ early_brace_text = "Set {x: " ++ plain_object ++ " as requested."
  /\ json_loads plain_object = inr (VDict [("depth_cm_estimate", VInt 5)])
  /\ parse_json_response early_brace_text
     = inl (JSONDecodeError "Expecting value" early_brace_text 0).
Proof. repeat split; vm_compute; reflexivity. Qed.

(** ** Dictionaries *)

Lemma dict_get_set_same (k : string) (v : value) (d : dict) :
  dict_get k (dict_set k v d) = Some v.
Proof.
  induction d as [|[k' v'] d IH]; simpl.
  - now rewrite String.eqb_refl.
  - destruct (String.eqb k k') eqn:E; simpl; rewrite E; [reflexivity | exact IH].
Qed.

Lemma dict_get_set_other (k k' : string) (v : value) (d : dict) :
  k <> k' -> dict_get k (dict_set k' v d) = dict_get k d.
Proof.
  intros Hne. induction d as [|[k0 v0] d IH]; simpl.
  - apply String.eqb_neq in Hne. now rewrite Hne.
  - destruct (String.eqb_spec k' k0) as [->|Hk]; simpl.
    + apply String.eqb_neq in Hne. now rewrite Hne.
    + now rewrite IH.
Qed.

Lemma dict_get_none_keys (k : string) (d : dict) :
  dict_get k d = None <-> ~ In k (dict_keys d).
Proof.
  induction d as [|[k' v'] d IH]; simpl; [tauto|].
  destruct (String.eqb_spec k k') as [->|Hne].
  - split; [discriminate | intros H; exfalso; apply H; now left].
  - rewrite IH. split; [intros H [E|I]; [now symmetry in E | tauto] | tauto].
Qed.

(** Spreading [pairs] over [base] leaves the keys that [pairs] does not have. *)
Lemma dict_get_update_absent (k : string) (pairs : dict) (base : dict) :
  dict_get k pairs = None -> dict_get k (dict_update base pairs) = dict_get k base.
Proof.
  unfold dict_update. revert base.
  induction pairs as [|[k' v'] pairs IH]; simpl; intros base H; [reflexivity|].
  destruct (String.eqb_spec k k') as [->|Hne]; [discriminate|].
  rewrite IH by assumption. now apply dict_get_set_other.
Qed.

(** Spreading a dictionary over [base] gives its keys their value in it. *)
Lemma dict_get_update (k : string) (pairs : dict) (base : dict) :
  NoDup (dict_keys pairs) ->
  dict_get k (dict_update base pairs)
  = match dict_get k pairs with Some v => Some v | None => dict_get k base end.
Proof.
  unfold dict_update. revert base.
  induction pairs as [|[k' v'] pairs IH]; simpl; intros base H; [reflexivity|].
  inversion H as [|? ? Hnotin Hnodup]; subst.
  rewrite IH by assumption.
  destruct (String.eqb_spec k k') as [->|Hne].
  - apply dict_get_none_keys in Hnotin. rewrite Hnotin. apply dict_get_set_same.
  - destruct (dict_get k pairs); [reflexivity|]. now apply dict_get_set_other.
Qed.

Lemma dict_set_keys (k : string) (v : value) (d : dict) :
  dict_keys (dict_set k v d)
  = if mem_string k (dict_keys d) then dict_keys d else (dict_keys d ++ [k])%list.
Proof.
  unfold mem_string. induction d as [|[k' v'] d IH]; simpl; [reflexivity|].
  destruct (String.eqb k k') eqn:E; simpl; [reflexivity|].
  rewrite IH. now destruct (existsb (String.eqb k) (dict_keys d)).
Qed.

Lemma mem_string_In (k : string) (l : list string) :
  mem_string k l = true <-> In k l.
Proof.
  unfold mem_string. rewrite existsb_exists. split.
  - intros (x & I & E). apply String.eqb_eq in E. now subst.
  - intros I. exists k. split; [assumption | apply String.eqb_refl].
Qed.

Lemma dict_set_nodup (k : string) (v : value) (d : dict) :
  NoDup (dict_keys d) -> NoDup (dict_keys (dict_set k v d)).
Proof.
  intros H. rewrite dict_set_keys.
  destruct (mem_string k (dict_keys d)) eqn:E; [assumption|].
  apply NoDup_app; [assumption | repeat constructor; intros [] |].
  intros x Hx [<-|[]]. apply mem_string_In in Hx. congruence.
Qed.

(** A dictionary built from pairs has each key once. *)
Lemma dict_update_nodup (pairs : list (string * value)) (base : dict) :
  NoDup (dict_keys base) -> NoDup (dict_keys (dict_update base pairs)).
Proof.
  unfold dict_update. revert base.
  induction pairs as [|[k v] pairs IH]; simpl; intros base H; [assumption|].
  apply IH. now apply dict_set_nodup.
Qed.

Lemma dict_of_pairs_nodup (pairs : list (string * value)) :
  NoDup (dict_keys (dict_of_pairs pairs)).
Proof. apply dict_update_nodup. constructor. Qed.

(** ** The decoder returns dictionaries with each key once *)

Lemma array_loop_keys_once scan fuel s end_ values :
  scans_keys_once (array_loop scan fuel s end_ values).
Proof.
  revert s end_ values. induction fuel as [|fuel IH]; intros s end_ values; simpl;
    [exact I|].
  destruct (scan s end_) as [v s1 end1| | |]; try exact I.
  destruct (skip_whitespace s1 end1) as [s2 end2].
  destruct s2 as [|c s3]; [exact I|].
  destruct (Ascii.eqb c "]"); [exact I|].
  destruct (Ascii.eqb c ","); [|exact I].
  destruct (skip_whitespace s3 (S end2)) as [s4 end4]. apply IH.
Qed.

Lemma JSONArray_keys_once scan s end_ : scans_keys_once (JSONArray scan s end_).
Proof.
  unfold JSONArray. destruct (skip_whitespace s end_) as [s1 end1].
  destruct s1 as [|c s2]; [apply array_loop_keys_once|].
  destruct (Ascii.eqb c "]"); [exact I | apply array_loop_keys_once].
Qed.

Lemma object_loop_keys_once scan fuel s end_ pairs :
  scans_keys_once (object_loop scan fuel s end_ pairs).
Proof.
  revert s end_ pairs. induction fuel as [|fuel IH]; intros s end_ pairs; simpl;
    [exact I|].
  destruct (scanstring s end_) as [key s1 end1| | |]; try exact I.
  destruct (skip_whitespace s1 end1) as [s2 end2].
  destruct s2 as [|colon s3]; [exact I|].
  destruct (Ascii.eqb colon ":"); [|exact I].
  destruct (skip_whitespace s3 (S end2)) as [s4 end4].
  destruct (scan s4 end4) as [v s5 end5| | |]; try exact I.
  destruct (skip_whitespace s5 end5) as [s6 end6].
  destruct s6 as [|c s7]; [exact I|].
  destruct (Ascii.eqb c "}"); [apply dict_of_pairs_nodup|].
  destruct (Ascii.eqb c ","); [|exact I].
  destruct (skip_whitespace s7 (S end6)) as [s8 end8].
  destruct s8 as [|q s9]; [exact I|].
  destruct (Ascii.eqb q quote); [apply IH | exact I].
Qed.

Lemma JSONObject_keys_once scan s end_ : scans_keys_once (JSONObject scan s end_).
Proof.
  unfold JSONObject. destruct (skip_whitespace s end_) as [s1 end1].
  destruct s1 as [|c s2]; [exact I|].
  destruct (Ascii.eqb c "}"); [constructor|].
  destruct (Ascii.eqb c quote); [apply object_loop_keys_once | exact I].
Qed.

Lemma scan_literal_keys_once lit v s idx r :
  keys_once v -> scan_literal lit v s idx = Some r -> scans_keys_once r.
Proof.
  unfold scan_literal. intros Hv H.
  destruct (strip_prefix lit s); [|discriminate]. now injection H as <-.
Qed.

Lemma scan_number_keys_once s idx r : scan_number s idx = Some r -> scans_keys_once r.
Proof.
  unfold scan_number. intros H.
  destruct (match_integer s) as [[integer s1]|]; [|discriminate].
  destruct (match_frac s1) as [frac s2]. destruct (match_exp s2) as [exp s3].
  destruct frac; [destruct exp|]; try (injection H as <-; exact I).
  destruct (max_str_digits <? _)%nat; injection H as <-; exact I.
Qed.

Lemma first_of_keys_once (a b : option (scanned value)) :
  (forall x, a = Some x -> scans_keys_once x) ->
  (forall x, b = Some x -> scans_keys_once x) ->
  forall x, first_of a b = Some x -> scans_keys_once x.
Proof. unfold first_of. destruct a; intros Ha Hb x H; [now apply Ha | now apply Hb]. Qed.

Lemma scan_once_keys_once depth s idx : scans_keys_once (scan_once depth s idx).
Proof.
  destruct s as [|nextchar s'].
  - destruct depth; exact I.
  - assert (E : scan_once depth (String nextchar s') idx
        = if Ascii.eqb nextchar quote then
            match scanstring s' (S idx) with
            | Scan str rest end_ => Scan (VStr str) rest end_
            | StopIteration i => StopIteration i
            | DecodeFail msg pos => DecodeFail msg pos
            | ScanRaise e => ScanRaise e
            end
          else if Ascii.eqb nextchar "{" then
            match depth with
            | O => ScanRaise (RecursionError
                     "maximum recursion depth exceeded while decoding a JSON object from a unicode string")
            | S depth' => JSONObject (scan_once depth') s' (S idx)
            end
          else if Ascii.eqb nextchar "[" then
            match depth with
            | O => ScanRaise (RecursionError
                     "maximum recursion depth exceeded while decoding a JSON array from a unicode string")
            | S depth' => JSONArray (scan_once depth') s' (S idx)
            end
          else
            match
              first_of (scan_literal "null" VNone (String nextchar s') idx)
                (first_of (scan_literal "true" (VBool true) (String nextchar s') idx)
                   (first_of (scan_literal "false" (VBool false) (String nextchar s') idx)
                      (first_of (scan_number (String nextchar s') idx)
                         (first_of (scan_literal "NaN" (VFloat "NaN") (String nextchar s') idx)
                            (first_of
                               (scan_literal "Infinity" (VFloat "Infinity")
                                  (String nextchar s') idx)
                               (scan_literal "-Infinity" (VFloat "-Infinity")
                                  (String nextchar s') idx))))))
            with
            | Some r => r
            | None => StopIteration idx
            end) by (destruct depth; reflexivity).
    rewrite E. clear E.
    destruct (Ascii.eqb nextchar quote).
    { destruct (scanstring s' (S idx)); exact I. }
    destruct (Ascii.eqb nextchar "{").
    { destruct depth; [exact I | apply JSONObject_keys_once]. }
    destruct (Ascii.eqb nextchar "[").
    { destruct depth; [exact I | apply JSONArray_keys_once]. }
    match goal with |- scans_keys_once (match ?f with _ => _ end) =>
      destruct f as [r|] eqn:F; [|exact I] end.
    revert r F.
    repeat (apply first_of_keys_once;
            [intros x Hx;
             first [eapply scan_literal_keys_once; [|exact Hx]; exact I
                   | exact (scan_number_keys_once _ _ _ Hx)] |]).
    intros x Hx. eapply scan_literal_keys_once; [|exact Hx]. exact I.
Qed.

Lemma json_loads_keys_once (s : string) (v : value) :
  json_loads s = inr v -> keys_once v.
Proof.
  unfold json_loads. destruct (startswith s BOM); [discriminate|].
  destruct (skip_whitespace s 0) as [s0 idx].
  pose proof (scan_once_keys_once recursion_limit s0 idx) as K.
  destruct (scan_once recursion_limit s0 idx) as [obj rest end_| | |]; try discriminate.
  destruct (skip_whitespace rest end_) as [rest' end'].
  destruct rest'; [|discriminate]. now intros [= <-].
Qed.

(** An object that the parser returns has each key once. *)
Lemma parse_json_response_keys_once (content : string) (d : dict) :
  parse_json_response content = inr (VDict d) -> NoDup (dict_keys d).
Proof.
  intros H. apply parse_json_response_cases in H as [H|(? & ? & ? & ? & _ & _ & H)];
    exact (json_loads_keys_once _ _ H).
Qed.

(** ** The retry and fallback loop *)

Local Open Scope list_scope.

Ltac split_all := repeat match goal with |- _ /\ _ => split end.

Lemma extend_nil (st : state) : extend st [] = st.
Proof. destruct st as [h c]. unfold extend. simpl. now rewrite app_nil_r. Qed.

Lemma extend_extend (st : state) (a b : list event) :
  extend (extend st a) b = extend st (a ++ b).
Proof. unfold extend. simpl. now rewrite app_assoc. Qed.

Lemma request_inj (messages messages' : list value) (model model' : string) :
  request messages model = request messages' model' ->
  messages = messages' /\ model = model'.
Proof. unfold request, api_params. intros H. injection H as -> ->. now split. Qed.

(** One request: the outcome is a function of the history, the effect is the
    request. *)
Lemma try_model_eq (w : World) (p : Path) (messages : list value) (model : string)
    (st : state) :
  try_model w p messages model st
  = (request_outcome w p messages model (history st), extend st [request messages model]).
Proof.
  unfold try_model, request_outcome, bind, get_history, perform, ret, extend, request.
  simpl.
  destruct (create w (history st) (api_params model messages)) as [e|[content|]];
    try reflexivity.
  destruct (String.eqb content EmptyString); [reflexivity|].
  destruct (parse_json_response content) as [e|[]]; reflexivity.
Qed.

(** A request brings a record exactly when the model answers with a text
    that the parser turns into an object. *)
Lemma request_outcome_record (w : World) (p : Path) (messages : list value)
    (model : string) (h : list event) (record : dict) :
  request_outcome w p messages model h = inr record <->
  exists content d,
    create w h (api_params model messages) = inr (Some content)
    /\ content <> EmptyString
    /\ parse_json_response content = inr (VDict d)
    /\ record = success_record p (now w (h ++ [request messages model])) model d.
Proof.
  unfold request_outcome. split.
  - destruct (create w h (api_params model messages)) as [e|[content|]];
      try discriminate.
    destruct (String.eqb_spec content EmptyString) as [|Hne]; [discriminate|].
    destruct (parse_json_response content) as [e|[]] eqn:Ep; try discriminate.
    intros [= <-]. exists content, d. repeat split; assumption || reflexivity.
  - intros (content & d & -> & Hne & -> & ->).
    apply String.eqb_neq in Hne. now rewrite Hne.
Qed.

Lemma first_hit_ends_nil (w : World) (p : Path) (h : list event) (res : option dict) :
  first_hit_ends w p h [] res.
Proof. intros pre model messages post record E. now destruct pre. Qed.

Lemma first_hit_ends_sleep (w : World) (p : Path) (h : list event) (seconds : value)
    (res : option dict) :
  first_hit_ends w p h [EvSleep seconds] res.
Proof.
  intros pre model messages post record E.
  destruct pre as [|x [|y pre]]; simpl in E; discriminate.
Qed.

Lemma first_hit_ends_request (w : World) (p : Path) (messages : list value)
    (model : string) (h : list event) :
  first_hit_ends w p h [request messages model]
    (returned (request_outcome w p messages model h)).
Proof.
  intros pre model' messages' post record E O.
  destruct pre as [|x pre]; simpl in E.
  - assert (post = [] /\ request messages model = request messages' model')
      as [-> E1] by (split; congruence).
    apply request_inj in E1 as [<- <-].
    rewrite app_nil_r in O. rewrite O. now split.
  - assert (E1 : [] = pre ++ request messages' model' :: post) by congruence.
    now destruct pre.
Qed.

(** Two stretches in a row, the first without a result. *)
Lemma first_hit_ends_app (w : World) (p : Path) (h evs1 evs2 : list event)
    (res : option dict) :
  first_hit_ends w p h evs1 None ->
  first_hit_ends w p (h ++ evs1) evs2 res ->
  first_hit_ends w p h (evs1 ++ evs2) res.
Proof.
  intros H1 H2 pre model messages post record E O.
  apply app_eq_app in E as [l [[-> E]|[-> E]]].
  - destruct l as [|x l]; simpl in E.
    + rewrite app_nil_r in H2. apply (H2 [] model messages post record).
      * now rewrite <- E.
      * now rewrite app_nil_r.
    + injection E as <- ->.
      destruct (H1 pre model messages l record eq_refl O) as [_ Habs].
      discriminate.
  - apply (H2 l model messages post record); [assumption|].
    now rewrite <- app_assoc.
Qed.

(** The loop over the models. *)
Lemma try_models_run (w : World) (p : Path) (messages : list value)
    (models : list string) (st : state) :
  exists evs,
    snd (try_models w p messages models st) = extend st evs
    /\ first_hit_ends w p (history st) evs (fst (try_models w p messages models st))
    /\ (forall record,
           fst (try_models w p messages models st) = Some record ->
           exists pre model,
             evs = pre ++ [request messages model] /\ In model models
             /\ request_outcome w p messages model (history st ++ pre) = inr record)
    /\ (fst (try_models w p messages models st) = None ->
        evs = map (request messages) models).
Proof.
  revert st. induction models as [|model rest IH]; intros st.
  - exists []. simpl. rewrite extend_nil.
    split_all; [reflexivity | apply first_hit_ends_nil | discriminate | reflexivity].
  - simpl. unfold bind. rewrite try_model_eq.
    pose proof (first_hit_ends_request w p messages model (history st)) as Hreq.
    destruct (request_outcome w p messages model (history st)) as [e|record] eqn:O.
    + destruct (IH (extend st [request messages model])) as (evs & Es & Hf & Hl & Hn).
      exists (request messages model :: evs). rewrite Es, extend_extend.
      split_all.
      * reflexivity.
      * exact (first_hit_ends_app w p (history st) [request messages model] evs _ Hreq Hf).
      * intros record Hr. destruct (Hl record Hr) as (pre & model' & -> & Hin & O').
        exists (request messages model :: pre), model'. split_all.
        -- reflexivity.
        -- now right.
        -- simpl in O'. now rewrite <- app_assoc in O'.
      * intros Hr. now rewrite (Hn Hr).
    + exists [request messages model]. simpl. split_all.
      * reflexivity.
      * exact Hreq.
      * intros record' [= <-]. exists [], model. split_all.
        -- reflexivity.
        -- now left.
        -- now rewrite app_nil_r.
      * discriminate.
Qed.

Lemma retry_rounds_step (w : World) (p : Path) (messages : list value) (R : Z)
    (remaining : nat) (attempt : Z) (st : state) :
  retry_rounds w p messages R (S remaining) attempt st
  = match try_models w p messages models_to_try st with
    | (Some record, st1) => (Some record, st1)
    | (None, st1) =>
        retry_rounds w p messages R remaining (attempt + 1)
          (extend st1 (pause_events R attempt))
    end.
Proof.
  cbn [retry_rounds]. unfold bind, pause_events.
  destruct (try_models w p messages models_to_try st) as [[record|] st1]; [reflexivity|].
  destruct (attempt <? R - 1)%Z.
  - reflexivity.
  - unfold ret. now rewrite extend_nil.
Qed.

Lemma first_hit_ends_pause (w : World) (p : Path) (h : list event) (R attempt : Z)
    (res : option dict) :
  first_hit_ends w p h (pause_events R attempt) res.
Proof.
  unfold pause_events. destruct (attempt <? R - 1)%Z;
    [apply first_hit_ends_sleep | apply first_hit_ends_nil].
Qed.

(** The loop over the rounds. *)
Lemma retry_rounds_run (w : World) (p : Path) (messages : list value) (R : Z)
    (remaining : nat) (attempt : Z) (st : state) :
  exists evs,
    snd (retry_rounds w p messages R remaining attempt st) = extend st evs
    /\ first_hit_ends w p (history st) evs
         (fst (retry_rounds w p messages R remaining attempt st))
    /\ hit_is_last w p messages (history st) evs
         (fst (retry_rounds w p messages R remaining attempt st)).
Proof.
  revert attempt st. induction remaining as [|remaining IH]; intros attempt st.
  - exists []. simpl. rewrite extend_nil.
    split_all; [reflexivity | apply first_hit_ends_nil | intros record; discriminate].
  - rewrite retry_rounds_step.
    destruct (try_models_run w p messages models_to_try st) as (evs1 & Es & Hf & Hl & _).
    destruct (try_models w p messages models_to_try st) as [[record|] st1] eqn:T;
      simpl in Es, Hf, Hl; subst st1.
    + exists evs1. simpl. split_all; [reflexivity | assumption |].
      intros record' [= <-]. exact (Hl record eq_refl).
    + rewrite extend_extend.
      destruct (IH (attempt + 1)%Z (extend st (evs1 ++ pause_events R attempt)))
        as (evs2 & Es2 & Hf2 & Hl2).
      exists ((evs1 ++ pause_events R attempt) ++ evs2).
      rewrite Es2, extend_extend. split_all.
      * reflexivity.
      * apply first_hit_ends_app; [|exact Hf2].
        apply first_hit_ends_app; [assumption | apply first_hit_ends_pause].
      * intros record Hr. destruct (Hl2 record Hr) as (pre & model & -> & Hin & O).
        exists ((evs1 ++ pause_events R attempt) ++ pre), model. split_all.
        -- now rewrite app_assoc.
        -- assumption.
        -- simpl in O. now rewrite <- app_assoc in O.
Qed.

(** When no round brings a record, all rounds have run in full. *)
Lemma retry_rounds_exhausted (w : World) (p : Path) (messages : list value) (R : Z)
    (remaining k : nat) (st : state) :
  (k + remaining = Z.to_nat R)%nat ->
  fst (retry_rounds w p messages R remaining (Z.of_nat k) st) = None ->
  snd (retry_rounds w p messages R remaining (Z.of_nat k) st)
  = extend st (flat_map (round_events messages (Z.to_nat R)) (seq (S k) remaining)).
Proof.
  revert k st. induction remaining as [|remaining IH]; intros k st Hk.
  - simpl. intros _. now rewrite extend_nil.
  - rewrite retry_rounds_step.
    destruct (try_models_run w p messages models_to_try st) as (evs1 & Es & _ & _ & Hn).
    destruct (try_models w p messages models_to_try st) as [[record|] st1] eqn:T;
      simpl in Es, Hn; subst st1; [discriminate|].
    rewrite (Hn eq_refl), extend_extend.
    replace (Z.of_nat k + 1)%Z with (Z.of_nat (S k)) by lia.
    intros Hnone. rewrite IH by (assumption || lia).
    rewrite extend_extend. f_equal.
    cbn [seq flat_map]. unfold round_events. rewrite <- !app_assoc.
    f_equal. f_equal. unfold pause_events.
    destruct (Z.ltb_spec (Z.of_nat k) (R - 1)) as [Hlt|Hge];
      destruct (Nat.ltb_spec (S k) (Z.to_nat R)) as [Hlt'|Hge']; try lia.
    + do 3 f_equal. lia.
    + reflexivity.
Qed.

(** ** One image *)

Lemma cached_fewshot_history (w : World) (st : state) :
  history (snd (cached_fewshot w st)) = history st.
Proof. unfold cached_fewshot. now destruct (fewshot_cache st). Qed.

Lemma analyze_image_body_eq (w : World) (p : Path) (R : Z) (st : state) :
  analyze_image_body w p R st
  = match encode_image w p with
    | inl e => (inl e, st)
    | inr _ =>
        let run :=
          retry_rounds w p (messages_for w p st) R (Z.to_nat R) 0
            (snd (cached_fewshot w st)) in
        (match fst run with
         | Some record => inr record
         | None => inl all_failed
         end, snd run)
    end.
Proof.
  unfold analyze_image_body, messages_for.
  destruct (encode_image w p) as [e|[base64_image mime]]; [reflexivity|].
  unfold bind. destruct (cached_fewshot w st) as [cache st1]. simpl.
  destruct (retry_rounds w p (build_messages cache base64_image mime) R (Z.to_nat R) 0 st1)
    as [[record|] st2]; reflexivity.
Qed.

Lemma encode_image_error (w : World) (p : Path) (e : exn) :
  encode_image w p = inl e ->
  exists cause, read_bytes w (path_str p) = inl cause
                /\ e = Exception ("图像编码失败: " ++ str_exn cause)%string.
Proof.
  unfold encode_image. destruct (read_bytes w (path_str p)) as [cause|data];
    [|discriminate].
  intros [= <-]. now exists cause.
Qed.

Lemma encode_error_not_all_failed (msg : string) :
  Exception ("图像编码失败: " ++ msg)%string <> all_failed.
Proof. unfold all_failed. simpl. discriminate. Qed.

(** The body of [analyze_image] as a stretch of requests and pauses. *)
Lemma analyze_image_body_run (w : World) (p : Path) (R : Z) (st : state) :
  exists evs,
    history (snd (analyze_image_body w p R st)) = history st ++ evs
    /\ first_hit_ends w p (history st) evs (returned (fst (analyze_image_body w p R st)))
    /\ hit_is_last w p (messages_for w p st) (history st) evs
         (returned (fst (analyze_image_body w p R st)))
    /\ (fst (analyze_image_body w p R st) = inl all_failed ->
        evs = exhausted_events (messages_for w p st) (Z.to_nat R)).
Proof.
  rewrite analyze_image_body_eq.
  destruct (encode_image w p) as [e|enc] eqn:Eenc.
  - exists []. simpl. rewrite app_nil_r. split_all.
    + reflexivity.
    + apply first_hit_ends_nil.
    + intros record. discriminate.
    + intros [= ->]. apply encode_image_error in Eenc as (cause & _ & Habs).
      symmetry in Habs. now apply encode_error_not_all_failed in Habs.
  - cbv zeta.
    destruct (retry_rounds_run w p (messages_for w p st) R (Z.to_nat R) 0
                (snd (cached_fewshot w st))) as (evs & Es & Hf & Hl).
    pose proof (retry_rounds_exhausted w p (messages_for w p st) R (Z.to_nat R) 0
                  (snd (cached_fewshot w st)) eq_refl) as Hx.
    change (Z.of_nat 0) with 0%Z in Hx.
    rewrite cached_fewshot_history in Hf, Hl.
    destruct (retry_rounds w p (messages_for w p st) R (Z.to_nat R) 0
                (snd (cached_fewshot w st))) as [[record|] st2];
      simpl in *; subst st2; exists evs; simpl; rewrite cached_fewshot_history;
      split_all; try reflexivity; try assumption.
    + discriminate.
    + intros _. specialize (Hx eq_refl). unfold extend in Hx.
      injection Hx as Hx. rewrite cached_fewshot_history in Hx.
      now apply app_inv_head in Hx.
Qed.

(** [analyze_image] returns the record of its body, or the failure record of
    what the body raised; it has no effect of its own. *)
Lemma analyze_image_eq (w : World) (p : Path) (R : Z) (st : state) :
  analyze_image w p R st
  = (match fst (analyze_image_body w p R st) with
     | inr record => record
     | inl e => failure_record p (now w (history (snd (analyze_image_body w p R st)))) e
     end, snd (analyze_image_body w p R st)).
Proof.
  unfold analyze_image, bind.
  destruct (analyze_image_body w p R st) as [[e|record] st1]; reflexivity.
Qed.

Lemma app_split_prefix {A : Type} (a b c d : list A) :
  a ++ b = c ++ d -> length a <= length c -> exists pre, c = a ++ pre /\ b = pre ++ d.
Proof.
  revert c. induction a as [|x a IH]; intros c E L; simpl in *.
  - now exists c.
  - destruct c as [|y c]; simpl in *; [lia|].
    injection E as -> E. destruct (IH c E ltac:(lia)) as (pre & -> & ->).
    now exists pre.
Qed.

Lemma success_record_model_used (p : Path) (timestamp model : string) (d : dict) :
  dict_get "model_used" d = None ->
  dict_get "model_used" (success_record p timestamp model d) = Some (VStr model).
Proof. intros H. unfold success_record. now rewrite dict_get_update_absent. Qed.

(** ** C6: the first object ends the loop *)




(** ** C7: exhaustion *)

Lemma requested_models_app (a b : list event) :
  requested_models (a ++ b) = requested_models a ++ requested_models b.
Proof. apply flat_map_app. Qed.

Lemma pauses_app (a b : list event) : pauses (a ++ b) = pauses a ++ pauses b.
Proof. apply flat_map_app. Qed.

Lemma requested_models_requests (messages : list value) (models : list string) :
  requested_models (map (request messages) models) = models
  /\ pauses (map (request messages) models) = [].
Proof.
  induction models as [|model models [IH1 IH2]]; [now split|].
  split; simpl; [now rewrite IH1 | exact IH2].
Qed.

Lemma round_events_models (messages : list value) (R r : nat) :
  requested_models (round_events messages R r) = models_to_try
  /\ pauses (round_events messages R r)
     = if (r <? R)%nat then [VInt (Z.of_nat r * 2)] else [].
Proof.
  unfold round_events. rewrite requested_models_app, pauses_app.
  destruct (requested_models_requests messages models_to_try) as [-> ->].
  destruct (r <? R)%nat; simpl; now split.
Qed.

(** In the rounds of an exhausted run the models are asked in order, once
    each in each round. *)
Lemma exhausted_events_models (messages : list value) (R k n : nat) :
  requested_models (flat_map (round_events messages R) (seq k n))
  = concat (repeat models_to_try n).
Proof.
  revert k. induction n as [|n IH]; intros k; [reflexivity|].
  cbn [seq flat_map repeat concat]. rewrite requested_models_app, IH.
  now destruct (round_events_models messages R k) as [-> _].
Qed.

(** And round [r] is followed by a pause of [r * 2] seconds, the last round
    by none. *)
Lemma exhausted_events_pauses (messages : list value) (R k n : nat) :
  (k + n = S R)%nat ->
  pauses (flat_map (round_events messages R) (seq k n))
  = map (fun r => VInt (Z.of_nat r * 2)) (seq k (n - 1)).
Proof.
  revert k. induction n as [|n IH]; intros k Hk; [reflexivity|].
  cbn [seq flat_map]. rewrite pauses_app.
  destruct (round_events_models messages R k) as [_ ->].
  destruct n as [|n].
  - simpl. destruct (Nat.ltb_spec k R); [lia | reflexivity].
  - rewrite IH by lia.
    destruct (Nat.ltb_spec k R); [|lia].
    replace (S (S n) - 1)%nat with (S n) by lia.
    replace (S n - 1)%nat with n by lia. reflexivity.
Qed.

(** C7.  When [analyze_image] ends with all models and retries failed, its
    effects since the call are exactly the [R] rounds in full, [R] being
    [max_retries]: in each round every model of the candidate list is asked,
    in order, whatever the models before it in the round raised; round [r] is
    followed by a pause of [r * 2] seconds when [r < R]; every one of these
    requests failed; and the function returns the failure record of that
    error. *)
Theorem exhausted_after_every_round (w : World) (p : Path) (R : Z) (st : state) :
  fst (analyze_image_body w p R st) = inl all_failed ->
  let messages := messages_for w p st in
  let evs := exhausted_events messages (Z.to_nat R) in
  history (snd (analyze_image w p R st)) = history st ++ evs
  /\ requested_models evs = concat (repeat models_to_try (Z.to_nat R))
  /\ pauses evs = map (fun r => VInt (Z.of_nat r * 2)) (seq 1 (Z.to_nat R - 1))
  /\ (forall pre model post,
         evs = pre ++ request messages model :: post ->
         exists e, request_outcome w p messages model (history st ++ pre) = inl e)
  /\ fst (analyze_image w p R st)
     = failure_record p (now w (history st ++ evs)) all_failed.
Proof.
  intros Hfail messages evs. rewrite analyze_image_eq. simpl.
  destruct (analyze_image_body_run w p R st) as (evs' & Ee & Hf & _ & Hx).
  specialize (Hx Hfail). fold messages in Hx. fold evs in Hx. subst evs'.
  rewrite Hfail in *. simpl in Hf. split_all.
  - exact Ee.
  - apply exhausted_events_models.
  - destruct (Z.to_nat R) as [|n] eqn:En; [reflexivity|].
    unfold evs, exhausted_events. apply exhausted_events_pauses. lia.
  - intros pre model post E.
    destruct (request_outcome w p messages model (history st ++ pre)) as [e|record] eqn:O;
      [now exists e|].
    destruct (Hf pre model messages post record E O) as [_ Habs]. discriminate.
  - now rewrite Ee.
Qed.

Lemma exhausted_after_every_round_witness :
  let messages := messages_for unreachable (test_image "9.jpg") initial_state in
  let evs := exhausted_events messages (Z.to_nat 3) in
  history (snd (analyze_image unreachable (test_image "9.jpg") 3 initial_state))
  = history initial_state ++ evs
  /\ requested_models evs = concat (repeat models_to_try (Z.to_nat 3))
  /\ pauses evs = map (fun r => VInt (Z.of_nat r * 2)) (seq 1 (Z.to_nat 3 - 1))
  /\ (forall pre model post,
         evs = pre ++ request messages model :: post ->
         exists e,
           request_outcome unreachable (test_image "9.jpg") messages model
             (history initial_state ++ pre) = inl e)
  /\ fst (analyze_image unreachable (test_image "9.jpg") 3 initial_state)
     = failure_record (test_image "9.jpg")
         (now unreachable (history initial_state ++ evs)) all_failed.
Proof.
  apply (exhausted_after_every_round unreachable (test_image "9.jpg") 3 initial_state).
  vm_compute. reflexivity.
Defined.

(** The default of three rounds, spelled out. *)
Example exhausted_three_rounds :
  let run := analyze_image unreachable (test_image "9.jpg") 3 initial_state in
  requested_models (history (snd run))
  = ["gpt-4o"; "gpt-4o-mini"; "gpt-4o"; "gpt-4o-mini"; "gpt-4o"; "gpt-4o-mini"]%string
  /\ pauses (history (snd run)) = [VInt 2; VInt 4]
  /\ dict_get "error" (fst run) = Some (VStr "所有模型和重试都失败了").
Proof. intros run. split_all; vm_compute; reflexivity. Qed.

(** ** C10: the failure record *)

(** C10.  Whatever the body of [analyze_image] raises, the record returned
    has [model_used] equal to [none], [error] equal to the text of the
    exception, a [justification] that is the text [分析失败: ] followed by
    that same text and so is not empty, the flag [analysis_success] false,
    a null depth and [unknown] for band and passability.  When the image
    cannot be read, this is the record of the encoding error and no request
    has been made. *)
Theorem failure_record_shape (w : World) (p : Path) (R : Z) (st : state) (e : exn) :
  fst (analyze_image_body w p R st) = inl e ->
  let record := fst (analyze_image w p R st) in
  record = failure_record p (now w (history (snd (analyze_image w p R st)))) e
  /\ dict_get "model_used" record = Some (VStr "none")
  /\ dict_get "error" record = Some (VStr (str_exn e))
  /\ dict_get "justification" record = Some (VStr ("分析失败: " ++ str_exn e)%string)
  /\ ("分析失败: " ++ str_exn e)%string <> EmptyString
  /\ dict_get "analysis_success" record = Some (VBool false)
  /\ dict_get "depth_cm_estimate" record = Some VNone
  /\ dict_get "depth_range" record = Some (VStr "unknown")
  /\ dict_get "passability" record = Some (VStr "unknown")
  /\ (forall cause,
         read_bytes w (path_str p) = inl cause ->
         e = Exception ("图像编码失败: " ++ str_exn cause)%string
         /\ snd (analyze_image w p R st) = st).
Proof.
  intros Hbody record. unfold record. rewrite analyze_image_eq. simpl.
  rewrite Hbody. split_all; try reflexivity.
  - simpl. discriminate.
  - intros cause Hread. rewrite analyze_image_body_eq in *.
    unfold encode_image in *. rewrite Hread in *. simpl in *.
    injection Hbody as <-. now split.
Qed.

Lemma failure_record_shape_witness :
  let w := unreachable in
  let p := mkPath "elsewhere/9.jpg" "9.jpg" in
  let e := Exception
             "图像编码失败: [Errno 2] No such file or directory: 'elsewhere/9.jpg'" in
  let record := fst (analyze_image w p 3 initial_state) in
  record = failure_record p (now w (history (snd (analyze_image w p 3 initial_state)))) e
  /\ dict_get "model_used" record = Some (VStr "none")
  /\ dict_get "error" record = Some (VStr (str_exn e))
  /\ dict_get "justification" record = Some (VStr ("分析失败: " ++ str_exn e)%string)
  /\ ("分析失败: " ++ str_exn e)%string <> EmptyString
  /\ dict_get "analysis_success" record = Some (VBool false)
  /\ dict_get "depth_cm_estimate" record = Some VNone
  /\ dict_get "depth_range" record = Some (VStr "unknown")
  /\ dict_get "passability" record = Some (VStr "unknown")
  /\ (forall cause,
         read_bytes w (path_str p) = inl cause ->
         e = Exception ("图像编码失败: " ++ str_exn cause)%string
         /\ snd (analyze_image w p 3 initial_state) = initial_state).
Proof.
  apply (failure_record_shape unreachable (mkPath "elsewhere/9.jpg" "9.jpg") 3
           initial_state).
  vm_compute. reflexivity.
Defined.

(** ** C2, C4: the records and the flag *)

(** A record returned by the body comes from a reply of one of the models
    that the parser turned into an object. *)
Lemma returned_record_origin (w : World) (p : Path) (R : Z) (st : state) (record : dict) :
  fst (analyze_image_body w p R st) = inr record ->
  exists h model content d,
    In model models_to_try
    /\ create w h (api_params model (messages_for w p st)) = inr (Some content)
    /\ parse_json_response content = inr (VDict d)
    /\ record
       = success_record p (now w (h ++ [request (messages_for w p st) model])) model d.
Proof.
  intros Hbody.
  destruct (analyze_image_body_run w p R st) as (evs & _ & _ & Hl & _).
  rewrite Hbody in Hl. destruct (Hl record eq_refl) as (pre & model & _ & Hin & O).
  apply request_outcome_record in O as (content & d & Hc & _ & Hp & ->).
  now exists (history st ++ pre), model, content, d.
Qed.

Lemma failure_record_flag (p : Path) (timestamp : string) (e : exn) :
  dict_get "analysis_success" (failure_record p timestamp e) = Some (VBool false).
Proof. reflexivity. Qed.

Lemma success_record_flag (p : Path) (timestamp model : string) (d : dict) :
  dict_get "analysis_success" d = None ->
  dict_get "analysis_success" (success_record p timestamp model d) = Some (VBool true).
Proof. intros H. unfold success_record. now rewrite dict_get_update_absent. Qed.

(** The fields of a success record whose object is valid against the
    schema. *)
Lemma success_record_conforming (p : Path) (timestamp model : string) (d : dict) :
  NoDup (dict_keys d) ->
  conforms_to_schema (VDict d) = true ->
  let record := success_record p timestamp model d in
  dict_get "error" record = None
  /\ (exists s, dict_get "depth_range" record = Some (VStr s))
  /\ (exists s, dict_get "passability" record = Some (VStr s) /\ In s passability_enum).
Proof.
  intros Hnodup Hc record. unfold record, success_record. simpl in Hc.
  repeat (apply andb_true_iff in Hc as [Hc ?]).
  split_all.
  - rewrite dict_get_update_absent; [reflexivity|].
    apply dict_get_none_keys. intros Hin.
    rewrite forallb_forall in Hc. apply Hc in Hin. discriminate.
  - rewrite dict_get_update by assumption.
    destruct (dict_get "depth_range" d) as [[]|]; try discriminate. now exists s.
  - rewrite dict_get_update by assumption.
    destruct (dict_get "passability" d) as [[]|]; try discriminate.
    exists s. split; [reflexivity | now apply mem_string_In].
Qed.




(** C4, as amended.  When no object that the model sends has an
    [analysis_success] key of its own, a record that [analyze_image] returns
    with [analysis_success] false has a null [depth_cm_estimate] and
    [unknown] as [depth_range] and as [passability]. *)
Theorem failure_record_fields (w : World) (p : Path) (R : Z) (st : state) :
  never_sent "analysis_success" w ->
  dict_get "analysis_success" (fst (analyze_image w p R st)) = Some (VBool false) ->
  dict_get "depth_cm_estimate" (fst (analyze_image w p R st)) = Some VNone
  /\ dict_get "depth_range" (fst (analyze_image w p R st)) = Some (VStr "unknown")
  /\ dict_get "passability" (fst (analyze_image w p R st)) = Some (VStr "unknown").
Proof.
  intros Hnever. rewrite analyze_image_eq. simpl.
  destruct (fst (analyze_image_body w p R st)) as [e|record] eqn:Hbody.
  - intros _. now split_all.
  - apply returned_record_origin in Hbody as (h & model & content & d & _ & Hc & Hp & ->).
    rewrite success_record_flag by exact (Hnever _ _ _ _ Hc Hp). discriminate.
Qed.

Lemma failure_record_fields_witness :
  dict_get "depth_cm_estimate"
    (fst (analyze_image unreachable (test_image "9.jpg") 3 initial_state)) = Some VNone
  /\ dict_get "depth_range"
       (fst (analyze_image unreachable (test_image "9.jpg") 3 initial_state))
     = Some (VStr "unknown")
  /\ dict_get "passability"
       (fst (analyze_image unreachable (test_image "9.jpg") 3 initial_state))
     = Some (VStr "unknown").
Proof.
  apply (failure_record_fields unreachable (test_image "9.jpg") 3 initial_state).
  - intros h params content d H. discriminate.
  - vm_compute. reflexivity.
Defined.

(** C4 as stated fails: the reply is an object with the key
    [analysis_success] set to false; the record returned has the flag false,
    names the model, and has no [depth_cm_estimate], no [depth_range] and no
    [passability] at all. *)
Lemma flag_overwritten :
  let record :=
    fst (analyze_image (replying flag_reply) (test_image "9.jpg") 3 initial_state) in
  dict_get "analysis_success" record = Some (VBool false)
  /\ dict_get "model_used" record = Some (VStr "gpt-4o")
  /\ dict_get "depth_cm_estimate" record = None
  /\ dict_get "depth_range" record = None
  /\ dict_get "passability" record = None.
Proof. intros record. split_all; vm_compute; reflexivity. Qed.

(** ** C3, C9: the batch *)

Lemma analyze_image_record_of (w : World) (p : Path) (R : Z) (st : state) :
  record_of p (fst (analyze_image w p R st)).
Proof.
  rewrite analyze_image_eq. simpl.
  destruct (fst (analyze_image_body w p R st)) as [e|record] eqn:Hbody.
  - right. now eexists _, e.
  - left. apply returned_record_origin in Hbody as (h & model & content & d & _ & _ & _ & ->).
    now eexists _, model, d.
Qed.

(** The loop appends one record for each file, in the order of the files. *)
Lemma batch_loop_records (w : World) (image_files : list Path) (results : list dict)
    (success_count : nat) (st : state) :
  exists new,
    fst (fst (batch_loop w image_files results success_count st)) = results ++ new
    /\ Forall2 (analysed w) image_files new.
Proof.
  revert results success_count st.
  induction image_files as [|image_file rest IH]; intros results success_count st.
  - exists []. simpl. now rewrite app_nil_r.
  - cbn [batch_loop]. unfold bind at 1.
    destruct (analyze_image w image_file 3 st) as [result st1] eqn:Ea.
    unfold bind at 1. cbn [perform].
    match goal with |- context [batch_loop w rest ?rs ?sc ?s] =>
      destruct (IH rs sc s) as (new & En & Hall) end.
    exists (result :: new). split.
    + rewrite En. now rewrite <- app_assoc.
    + constructor; [|assumption].
      assert (Er : result = fst (analyze_image w image_file 3 st)) by now rewrite Ea.
      split; [|rewrite Er; apply analyze_image_record_of].
      exists st. split; [assumption|].
      intros e He. rewrite Er, analyze_image_eq. simpl. rewrite He. now eexists.
Qed.

Lemma filter_none {A : Type} (f : A -> bool) (l : list A) :
  (forall x, In x l -> f x = false) -> filter f l = [].
Proof.
  induction l as [|x l IH]; intros H; [reflexivity|]. simpl.
  rewrite (H x (or_introl eq_refl)). apply IH. intros y Hy. apply H. now right.
Qed.

(** C3, as amended.  When the directory exists and none of its entries is a
    file with a supported extension, [analyze_batch] returns the report with
    all counts zero, the rate [0.0%] and no results, and leaves everything as
    it was: in this case the report goes to the caller only and nothing is
    written to the output location. *)
Theorem empty_directory_report (w : World) (images_dir output_file : string)
    (st : state) (entries : list (Path * bool)) :
  path_exists w images_dir = true ->
  iterdir w images_dir = inr entries ->
  (forall entry, In entry entries -> is_image_file entry = false) ->
  analyze_batch w images_dir output_file st
  = (inr (empty_report (now w (history st))), st).
Proof.
  intros Hex Hdir Hnone. unfold analyze_batch, get_image_files.
  rewrite Hex, Hdir. simpl. now rewrite (filter_none _ _ Hnone).
Qed.

Lemma empty_directory_report_witness :
  analyze_batch no_images "data/test_images" "data/results/analysis_results.json"
    initial_state
  = (inr (empty_report (now no_images (history initial_state))), initial_state).
Proof.
  apply (empty_directory_report no_images "data/test_images"
           "data/results/analysis_results.json" initial_state
           [(test_image "notes.txt", true); (test_image "7.jpg", false)]).
  - reflexivity.
  - reflexivity.
  - intros entry [<-|[<-|[]]]; vm_compute; reflexivity.
Defined.

(** C3 as stated fails in its last part: the run over a directory without
    images returns the report and writes nothing. *)
Lemma empty_report_not_written :
  let run :=
    analyze_batch no_images "data/test_images" "data/results/analysis_results.json"
      initial_state in
  fst run = inr (empty_report "2025-01-01T12:00:00.000")
  /\ history (snd run) = []
  /\ forall output_data,
       ~ In (EvDump "data/results/analysis_results.json" output_data) (history (snd run)).
Proof.
  intros run. split_all; try (vm_compute; reflexivity).
  intros output_data H. vm_compute in H. exact H.
Qed.



(** A run over two images, spelled out: the image that cannot be read gives
    a failure record at its place, the other one is analysed all the same
    and the report is written. *)
Example failure_does_not_stop_the_batch :
  let run := analyze_batch two_images "data/test_images" "out.json" initial_state in
  exists summary first second,
    fst run = inr [("summary", summary); ("results", VList [VDict first; VDict second])]
    /\ dict_get "filename" first = Some (VStr "9.jpg")
    /\ dict_get "analysis_success" first = Some (VBool true)
    /\ dict_get "filename" second = Some (VStr "x.png")
    /\ dict_get "analysis_success" second = Some (VBool false)
    /\ dict_get "success_rate"
         (match summary with VDict d => d | _ => [] end) = Some (VStr "50.0%")
    /\ exists h output_data, history (snd run) = h ++ [EvDump "out.json" output_data].
Proof.
  intros run. vm_compute. eexists _, _, _.
  split_all; try reflexivity. eexists _, _.
  match goal with |- ?l = _ => change l with (removelast l ++ [last l (EvSleep VNone)]) end.
  reflexivity.
Qed.

(** ** C5: the order of the files *)

Section InsertionSort.
Context {A K : Type} (key : A -> K) (lt : K -> K -> bool).

Lemma insert_sorted_perm (x : A) (l : list A) :
  Permutation (insert_sorted key lt x l) (x :: l).
Proof.
  induction l as [|y l IH]; simpl; [reflexivity|].
  destruct (lt (key y) (key x)); [|reflexivity].
  rewrite IH. apply perm_swap.
Qed.

Lemma sorted_perm (l : list A) : Permutation (sorted key lt l) l.
Proof.
  induction l as [|x l IH]; simpl; [reflexivity|].
  rewrite insert_sorted_perm. now constructor.
Qed.

Hypothesis lt_asym : forall x y, lt x y = true -> lt y x = false.
Hypothesis le_trans : forall a b c,
    not_after key lt a b -> not_after key lt b c -> not_after key lt a c.

Lemma insert_sorted_sorted (x : A) (l : list A) :
  StronglySorted (not_after key lt) l -> StronglySorted (not_after key lt) (insert_sorted key lt x l).
Proof.
  induction l as [|y l IH]; intros Hs; simpl.
  - repeat constructor.
  - apply StronglySorted_inv in Hs as [Hs Hy].
    destruct (lt (key y) (key x)) eqn:E.
    + constructor; [now apply IH|].
      apply (Permutation_Forall (Permutation_sym (insert_sorted_perm x l))).
      constructor; [|assumption]. now apply lt_asym.
    + constructor; [now constructor|].
      constructor; [exact E|].
      apply Forall_impl with (P := not_after key lt y); [|assumption].
      intros z Hz. now apply le_trans with (b := y).
Qed.

Lemma sorted_sorted (l : list A) : StronglySorted (not_after key lt) (sorted key lt l).
Proof.
  induction l as [|x l IH]; simpl; [constructor | now apply insert_sorted_sorted].
Qed.

(** Two sorted lists with the same elements, no two of which are
    equivalent, are one list. *)
Lemma sorted_unique (l1 l2 : list A) :
  StronglySorted (not_after key lt) l1 -> StronglySorted (not_after key lt) l2 -> Permutation l1 l2 ->
  (forall a b, In a l1 -> In b l1 -> not_after key lt a b -> not_after key lt b a -> a = b) ->
  l1 = l2.
Proof.
  revert l2. induction l1 as [|a l1 IH]; intros l2 H1 H2 P Hanti.
  - apply Permutation_nil in P. now subst.
  - destruct l2 as [|b l2]; [now apply Permutation_sym, Permutation_nil in P|].
    apply StronglySorted_inv in H1 as [H1 Ha]. apply StronglySorted_inv in H2 as [H2 Hb].
    assert (a = b) as <-.
    { assert (Ia : In a (b :: l2)) by (apply (Permutation_in _ P); now left).
      assert (Ib : In b (a :: l1))
        by (apply (Permutation_in _ (Permutation_sym P)); now left).
      destruct Ia as [->|Ia]; [reflexivity|].
      destruct Ib as [->|Ib]; [reflexivity|].
      rewrite Forall_forall in Ha, Hb.
      apply Hanti; [now left | now right | now apply Ha | now apply Hb]. }
    f_equal. apply IH; try assumption.
    + now apply Permutation_cons_inv in P.
    + intros x y Hx Hy. apply Hanti; now right.
Qed.

End InsertionSort.

(** The order of strings. *)
Lemma ascii_compare_lt_trans (a b c : ascii) :
  Ascii.compare a b = Lt -> Ascii.compare b c = Lt -> Ascii.compare a c = Lt.
Proof.
  unfold Ascii.compare. rewrite !N.compare_lt_iff. lia.
Qed.

Lemma string_compare_lt_trans (a b c : string) :
  String.compare a b = Lt -> String.compare b c = Lt -> String.compare a c = Lt.
Proof.
  revert b c. induction a as [|x a IH]; intros [|y b] [|z c]; simpl;
    try discriminate; try reflexivity.
  destruct (Ascii.compare x y) eqn:Exy; try discriminate;
    destruct (Ascii.compare y z) eqn:Eyz; try discriminate; intros H1 H2.
  - apply Ascii.compare_eq_iff in Exy, Eyz. subst.
    replace (Ascii.compare z z) with Eq; [now apply IH with (b := b)|].
    symmetry. unfold Ascii.compare. apply N.compare_refl.
  - apply Ascii.compare_eq_iff in Exy. subst. now rewrite Eyz.
  - apply Ascii.compare_eq_iff in Eyz. subst. now rewrite Exy.
  - now rewrite (ascii_compare_lt_trans _ _ _ Exy Eyz).
Qed.

Lemma string_compare_refl (a : string) : String.compare a a = Eq.
Proof.
  induction a as [|x a IH]; simpl; [reflexivity|].
  replace (Ascii.compare x x) with Eq; [assumption|].
  symmetry. unfold Ascii.compare. apply N.compare_refl.
Qed.

Lemma string_ltb_asym (a b : string) : String.ltb a b = true -> String.ltb b a = false.
Proof.
  unfold String.ltb. rewrite (String.compare_antisym a b).
  now destruct (String.compare b a).
Qed.

Lemma string_not_ltb_leb (a b : string) : String.ltb b a = false <-> String.leb a b = true.
Proof.
  unfold String.ltb, String.leb. rewrite (String.compare_antisym b a).
  destruct (String.compare a b); simpl; split; congruence.
Qed.

Lemma string_leb_trans (a b c : string) :
  String.leb a b = true -> String.leb b c = true -> String.leb a c = true.
Proof.
  unfold String.leb.
  destruct (String.compare a b) eqn:Eab; try discriminate;
    destruct (String.compare b c) eqn:Ebc; try discriminate; intros _ _.
  - apply String.compare_eq_iff in Eab, Ebc. subst. now rewrite string_compare_refl.
  - apply String.compare_eq_iff in Eab. subst. now rewrite Ebc.
  - apply String.compare_eq_iff in Ebc. subst. now rewrite Eab.
  - now rewrite (string_compare_lt_trans _ _ _ Eab Ebc).
Qed.

(** The keys. *)
Lemma sort_key_int (p : Path) :
  has_int_stem p = true -> sort_key p = (0%Z, inl (int_stem p)).
Proof. unfold has_int_stem, sort_key, int_stem. now destruct (py_int (stem p)). Qed.

Lemma sort_key_name (p : Path) :
  has_int_stem p = false -> sort_key p = (1%Z, inr (name p)).
Proof. unfold has_int_stem, sort_key. now destruct (py_int (stem p)). Qed.

(** A file with an integer stem goes among those with an integer stem. *)
Lemma insert_int_stem (x : Path) (nums others : list Path) :
  has_int_stem x = true ->
  Forall (fun p => has_int_stem p = true) nums ->
  Forall (fun p => has_int_stem p = false) others ->
  insert_sorted sort_key key_lt x (nums ++ others)
  = insert_sorted int_stem Z.ltb x nums ++ others.
Proof.
  intros Hx Hn Ho. induction Hn as [|y nums Hy Hn IH]; simpl.
  - destruct Ho as [|y others Hy Ho]; [reflexivity|]. simpl.
    now rewrite (sort_key_int x Hx), (sort_key_name y Hy).
  - rewrite (sort_key_int x Hx), (sort_key_int y Hy). unfold key_lt at 1. simpl.
    destruct (int_stem y <? int_stem x)%Z; [|reflexivity].
    now rewrite IH.
Qed.

(** A file without one goes among the others, after all those with one. *)
Lemma insert_name (x : Path) (nums others : list Path) :
  has_int_stem x = false ->
  Forall (fun p => has_int_stem p = true) nums ->
  Forall (fun p => has_int_stem p = false) others ->
  insert_sorted sort_key key_lt x (nums ++ others)
  = nums ++ insert_sorted name String.ltb x others.
Proof.
  intros Hx Hn Ho. induction Hn as [|y nums Hy Hn IH]; simpl.
  - induction Ho as [|y others Hy Ho IH]; [reflexivity|]. simpl.
    rewrite (sort_key_name x Hx), (sort_key_name y Hy). unfold key_lt at 1. simpl.
    destruct (String.ltb (name y) (name x)); [|reflexivity].
    now rewrite IH.
  - rewrite (sort_key_name x Hx), (sort_key_int y Hy). unfold key_lt at 1. simpl.
    now rewrite IH.
Qed.

Lemma Forall_filter {A : Type} (f : A -> bool) (l : list A) :
  Forall (fun x => f x = true) (filter f l).
Proof. apply Forall_forall. intros x Hx. now apply filter_In in Hx. Qed.

Lemma Forall_sorted {A K : Type} (key : A -> K) (lt : K -> K -> bool)
    (P : A -> Prop) (l : list A) :
  Forall P l -> Forall P (sorted key lt l).
Proof. apply Permutation_Forall. apply Permutation_sym, sorted_perm. Qed.

(** The files with an integer stem and the others are sorted apart. *)
Lemma sorted_by_key_split (l : list Path) :
  sorted sort_key key_lt l
  = sorted int_stem Z.ltb (filter has_int_stem l)
    ++ sorted name String.ltb (filter (fun p => negb (has_int_stem p)) l).
Proof.
  induction l as [|x l IH]; [reflexivity|].
  cbn [sorted fold_right filter].
  change (fold_right (insert_sorted sort_key key_lt) [] l) with (sorted sort_key key_lt l).
  rewrite IH.
  assert (Hn : Forall (fun p => has_int_stem p = true)
                 (sorted int_stem Z.ltb (filter has_int_stem l)))
    by apply Forall_sorted, Forall_filter.
  assert (Ho : Forall (fun p => has_int_stem p = false)
                 (sorted name String.ltb (filter (fun p => negb (has_int_stem p)) l))).
  { apply Forall_sorted.
    apply Forall_impl with (P := fun p => negb (has_int_stem p) = true);
      [intros p; apply negb_true_iff | apply Forall_filter]. }
  destruct (has_int_stem x) eqn:Hx; simpl.
  - now apply insert_int_stem.
  - now apply insert_name.
Qed.

Lemma filter_perm {A : Type} (f : A -> bool) (l l' : list A) :
  Permutation l l' -> Permutation (filter f l) (filter f l').
Proof.
  induction 1 as [|x l l' P IH|x y l|l l' l'' P1 IH1 P2 IH2]; simpl.
  - constructor.
  - destruct (f x); [now constructor | assumption].
  - destruct (f x), (f y); try reflexivity. apply perm_swap.
  - now transitivity (filter f l').
Qed.

Lemma partition_perm {A : Type} (f : A -> bool) (l : list A) :
  Permutation (filter f l ++ filter (fun x => negb (f x)) l) l.
Proof.
  induction l as [|x l IH]; simpl; [constructor|].
  destruct (f x); simpl.
  - now constructor.
  - rewrite <- Permutation_middle. now constructor.
Qed.

Lemma StronglySorted_impl {A : Type} (R R' : A -> A -> Prop) (l : list A) :
  (forall a b, R a b -> R' a b) -> StronglySorted R l -> StronglySorted R' l.
Proof.
  intros H. induction 1 as [|a l Hs IH Ha]; constructor; [assumption|].
  apply Forall_impl with (P := R a); [apply H | assumption].
Qed.

Lemma sorted_by_int (l : list Path) :
  StronglySorted (fun a b => (int_stem a <= int_stem b)%Z) (sorted int_stem Z.ltb l).
Proof.
  apply StronglySorted_impl
    with (R := fun a b => (int_stem b <? int_stem a)%Z = false).
  - intros a b H. apply Z.ltb_ge in H. exact H.
  - apply sorted_sorted.
    + intros x y H. apply Z.ltb_lt in H. apply Z.ltb_ge. lia.
    + intros a b c H1 H2. apply Z.ltb_ge in H1, H2. apply Z.ltb_ge. lia.
Qed.

Lemma sorted_by_name (l : list Path) :
  StronglySorted (fun a b => String.leb (name a) (name b) = true)
    (sorted name String.ltb l).
Proof.
  apply StronglySorted_impl
    with (R := fun a b => String.ltb (name b) (name a) = false).
  - intros a b H. now apply string_not_ltb_leb.
  - apply sorted_sorted.
    + apply string_ltb_asym.
    + intros a b c H1 H2. apply string_not_ltb_leb in H1, H2.
      apply string_not_ltb_leb. now apply string_leb_trans with (b := name b).
Qed.

(** Whatever the order in which the directory lists the four files of the
    example, they are sorted the same. *)
Lemma example_order (image_files : list Path) :
  Permutation image_files
    [test_image "9.jpg"; test_image "29.jpg"; test_image "2.png"; test_image "report.jpg"] ->
  sorted sort_key key_lt image_files
  = [test_image "2.png"; test_image "9.jpg"; test_image "29.jpg"; test_image "report.jpg"].
Proof.
  intros P. rewrite sorted_by_key_split.
  pose proof (filter_perm has_int_stem _ _ P) as Pn.
  pose proof (filter_perm (fun p => negb (has_int_stem p)) _ _ P) as Po.
  change (filter has_int_stem _) with
    [test_image "9.jpg"; test_image "29.jpg"; test_image "2.png"] in Pn at 2.
  change (filter (fun p => negb (has_int_stem p)) _) with [test_image "report.jpg"]
    in Po at 2.
  apply Permutation_sym, Permutation_length_1_inv in Po. rewrite Po.
  change (sorted name String.ltb [test_image "report.jpg"])
    with [test_image "report.jpg"].
  change [test_image "2.png"; test_image "9.jpg"; test_image "29.jpg";
          test_image "report.jpg"]
    with ([test_image "2.png"; test_image "9.jpg"; test_image "29.jpg"]
          ++ [test_image "report.jpg"]).
  f_equal.
  change [test_image "2.png"; test_image "9.jpg"; test_image "29.jpg"]
    with (sorted int_stem Z.ltb
            [test_image "9.jpg"; test_image "29.jpg"; test_image "2.png"]).
  apply (sorted_unique int_stem Z.ltb).
  - apply sorted_sorted.
    + intros x y H. apply Z.ltb_lt in H. apply Z.ltb_ge. lia.
    + intros a b c H1 H2. apply Z.ltb_ge in H1, H2. apply Z.ltb_ge. lia.
  - apply sorted_sorted.
    + intros x y H. apply Z.ltb_lt in H. apply Z.ltb_ge. lia.
    + intros a b c H1 H2. apply Z.ltb_ge in H1, H2. apply Z.ltb_ge. lia.
  - rewrite !sorted_perm. exact Pn.
  - intros a b Ia Ib.
    apply (Permutation_in _ (sorted_perm int_stem Z.ltb _)) in Ia, Ib.
    apply (Permutation_in _ Pn) in Ia, Ib.
    destruct Ia as [<-|[<-|[<-|[]]]]; destruct Ib as [<-|[<-|[<-|[]]]];
      intros H1 H2; try reflexivity; vm_compute in H1, H2; discriminate.
Qed.



(** * Further properties *)

(** ** The effects of one call of [analyze_image] *)

Lemma effects_since_app (st st' : state) (evs : list event) :
  history st' = history st ++ evs -> effects_since st st' = evs.
Proof.
  intros H. unfold effects_since. rewrite H.
  rewrite skipn_app, skipn_all, Nat.sub_diag. reflexivity.
Qed.

(** The requests of the loop over the models start the list of all of them. *)
Lemma try_models_prefix (w : World) (p : Path) (messages : list value)
    (models : list string) (st : state) :
  exists rest,
    history st ++ map (request messages) models
    = history (snd (try_models w p messages models st)) ++ rest.
Proof.
  revert st. induction models as [|model models IH]; intros st.
  - exists []. reflexivity.
  - simpl. unfold bind. rewrite try_model_eq.
    destruct (request_outcome w p messages model (history st)) as [e|record].
    + destruct (IH (extend st [request messages model])) as [rest E].
      exists rest. rewrite <- E. simpl. now rewrite <- app_assoc.
    + exists (map (request messages) models). simpl. now rewrite <- app_assoc.
Qed.

(** The effects of the rounds start the effects of an exhausted run. *)
Lemma retry_rounds_prefix (w : World) (p : Path) (messages : list value) (R : Z)
    (remaining k : nat) (st : state) :
  (k + remaining = Z.to_nat R)%nat ->
  exists rest,
    history st ++ flat_map (round_events messages (Z.to_nat R)) (seq (S k) remaining)
    = history (snd (retry_rounds w p messages R remaining (Z.of_nat k) st)) ++ rest.
Proof.
  revert k st. induction remaining as [|remaining IH]; intros k st Hk.
  - exists []. reflexivity.
  - rewrite retry_rounds_step. cbn [seq flat_map]. unfold round_events at 1.
    destruct (try_models_prefix w p messages models_to_try st) as [rest1 E1].
    destruct (try_models_run w p messages models_to_try st) as (evs1 & Es & _ & _ & Hn).
    destruct (try_models w p messages models_to_try st) as [[record|] st1] eqn:T;
      cbn [fst snd] in Es, Hn, E1.
    + cbn [snd]. eexists. rewrite <- !app_assoc, app_assoc, E1, <- app_assoc.
      reflexivity.
    + subst st1. rewrite (Hn eq_refl), extend_extend.
      replace (Z.of_nat k + 1)%Z with (Z.of_nat (S k)) by lia.
      destruct (IH (S k)
                  (extend st (map (request messages) models_to_try
                              ++ pause_events R (Z.of_nat k))) ltac:(lia))
        as [rest E].
      exists rest. rewrite <- E. unfold extend at 1. cbn [history].
      rewrite <- !app_assoc. do 2 f_equal.
      f_equal. unfold pause_events.
      destruct (Z.ltb_spec (Z.of_nat k) (R - 1)) as [Hlt|Hge];
        destruct (Nat.ltb_spec (S k) (Z.to_nat R)) as [Hlt'|Hge']; try lia.
      * do 3 f_equal. lia.
      * reflexivity.
Qed.

Lemma analyze_image_body_prefix (w : World) (p : Path) (R : Z) (st : state) :
  exists rest,
    history st ++ exhausted_events (messages_for w p st) (Z.to_nat R)
    = history (snd (analyze_image_body w p R st)) ++ rest.
Proof.
  rewrite analyze_image_body_eq.
  destruct (encode_image w p) as [e|enc].
  - eexists. reflexivity.
  - cbv zeta. simpl snd.
    destruct (retry_rounds_prefix w p (messages_for w p st) R (Z.to_nat R) 0
                (snd (cached_fewshot w st)) eq_refl) as [rest E].
    rewrite cached_fewshot_history in E. now exists rest.
Qed.

Lemma analyze_image_history (w : World) (p : Path) (R : Z) (st : state) :
  history (snd (analyze_image w p R st))
  = history st ++ effects_since st (snd (analyze_image w p R st)).
Proof.
  rewrite analyze_image_eq. cbn [snd].
  destruct (analyze_image_body_run w p R st) as (evs & Ee & _).
  now rewrite (effects_since_app _ _ _ Ee).
Qed.

(** X1.  Whatever the outcome, what a call of [analyze_image] does is a start of
    what an exhausted call does: the models are asked in the order of
    preference, round after round, with the pauses in between, and the call
    stops somewhere on that way.  So it never asks a model outside the list,
    never pauses otherwise and never writes a file. *)
Theorem effects_start_exhausted_run (w : World) (p : Path) (R : Z) (st : state) :
  exists rest,
    exhausted_events (messages_for w p st) (Z.to_nat R)
    = effects_since st (snd (analyze_image w p R st)) ++ rest.
Proof.
  rewrite analyze_image_eq. cbn [snd].
  destruct (analyze_image_body_prefix w p R st) as [rest E].
  destruct (analyze_image_body_run w p R st) as (evs & Ee & _).
  rewrite (effects_since_app _ _ _ Ee). rewrite Ee, <- app_assoc in E.
  apply app_inv_head in E. now exists rest.
Qed.

Lemma dumps_app (a b : list event) : dumps (a ++ b) = dumps a ++ dumps b.
Proof. apply flat_map_app. Qed.

Lemma dumps_requests (messages : list value) (models : list string) :
  dumps (map (request messages) models) = [].
Proof. induction models as [|m models IH]; [reflexivity | exact IH]. Qed.

Lemma exhausted_events_no_dump (messages : list value) (R k n : nat) :
  dumps (flat_map (round_events messages R) (seq k n)) = []
  /\ Forall (fun e => is_pace e = false) (flat_map (round_events messages R) (seq k n)).
Proof.
  revert k. induction n as [|n IH]; intros k; [now split|].
  cbn [seq flat_map]. destruct (IH (S k)) as [IH1 IH2]. unfold round_events at 1 3.
  split.
  - rewrite !dumps_app, IH1, dumps_requests.
    destruct (k <? R)%nat; reflexivity.
  - rewrite !Forall_app. split_all; [| |assumption].
    + apply Forall_map, Forall_forall. intros m _. reflexivity.
    + destruct (k <? R)%nat; repeat constructor.
Qed.

Lemma analyze_image_effect_bounds (w : World) (p : Path) (R : Z) (st : state) :
  let evs := effects_since st (snd (analyze_image w p R st)) in
  length (requested_models evs) <= Z.to_nat R * length models_to_try
  /\ length (pauses evs) <= Z.to_nat R - 1
  /\ dumps evs = []
  /\ Forall (fun e => is_pace e = false) evs.
Proof.
  intros evs.
  assert (E : exists rest,
             exhausted_events (messages_for w p st) (Z.to_nat R) = evs ++ rest).
  { subst evs. rewrite analyze_image_eq. cbn [snd].
    destruct (analyze_image_body_prefix w p R st) as [rest E].
    destruct (analyze_image_body_run w p R st) as (evs & Ee & _).
    rewrite (effects_since_app _ _ _ Ee). rewrite Ee, <- app_assoc in E.
    apply app_inv_head in E. now exists rest. }
  destruct E as [rest E].
  pose proof (exhausted_events_models (messages_for w p st) (Z.to_nat R) 1 (Z.to_nat R))
    as Hm.
  fold (exhausted_events (messages_for w p st) (Z.to_nat R)) in Hm.
  destruct (exhausted_events_no_dump (messages_for w p st) (Z.to_nat R) 1 (Z.to_nat R))
    as [Hd Hp].
  fold (exhausted_events (messages_for w p st) (Z.to_nat R)) in Hd, Hp.
  rewrite E in Hm, Hd, Hp.
  rewrite requested_models_app in Hm. rewrite dumps_app in Hd.
  apply app_eq_nil in Hd as [Hd _]. apply Forall_app in Hp as [Hp _].
  split_all; try assumption.
  - apply (f_equal (@length string)) in Hm.
    rewrite length_app, length_concat in Hm.
    assert (Hs : list_sum (map (@length string) (repeat models_to_try (Z.to_nat R)))
                 = Z.to_nat R * length models_to_try).
    { generalize models_to_try (Z.to_nat R). intros l n. unfold list_sum.
      induction n as [|n IH]; [reflexivity|].
      cbn [repeat map fold_right]. rewrite IH. lia. }
    lia.
  - destruct (Z.to_nat R) as [|n] eqn:En.
    + unfold exhausted_events in E. simpl in E. symmetry in E.
      apply app_eq_nil in E as [-> _]. simpl. lia.
    + pose proof (exhausted_events_pauses (messages_for w p st) (S n) 1 (S n) ltac:(lia))
        as Hq.
      fold (exhausted_events (messages_for w p st) (S n)) in Hq.
      rewrite E, pauses_app in Hq. apply (f_equal (@length value)) in Hq.
      rewrite length_app, length_map, length_seq in Hq. lia.
Qed.


(** ** The few-shot examples are loaded once *)

Lemma analyze_image_body_cache (w : World) (p : Path) (R : Z) (st : state) :
  fewshot_cache (snd (analyze_image_body w p R st))
  = if readable w p then Some (fst (cached_fewshot w st)) else fewshot_cache st.
Proof.
  rewrite analyze_image_body_eq. unfold readable, encode_image.
  destruct (read_bytes w (path_str p)) as [cause|data]; [reflexivity|].
  cbv zeta. cbn [snd].
  destruct (retry_rounds_run w p (messages_for w p st) R (Z.to_nat R) 0
              (snd (cached_fewshot w st))) as (evs & -> & _).
  unfold extend. cbn [fewshot_cache]. unfold cached_fewshot.
  destruct (fewshot_cache st) eqn:C; [exact C | reflexivity].
Qed.

(** X3.  The examples are read from the disk by the first call of
    [analyze_image] whose image can be read, and by no call after it: once
    the attribute is set, every call leaves it as it is, whatever the image
    and the outcome. *)
Theorem fewshot_examples_loaded_once (w : World) (p : Path) (R : Z) (st : state) :
  fewshot_cache (snd (analyze_image w p R st))
  = match fewshot_cache st with
    | Some cache => Some cache
    | None => if readable w p then Some (load_fewshot_examples w) else None
    end.
Proof.
  rewrite analyze_image_eq. cbn [snd]. rewrite analyze_image_body_cache.
  unfold cached_fewshot. destruct (fewshot_cache st), (readable w p); reflexivity.
Qed.

(** ** The record of a reply that satisfies the schema *)

Lemma dict_set_new (k : string) (v : value) (d : dict) :
  dict_get k d = None -> dict_set k v d = d ++ [(k, v)].
Proof.
  induction d as [|[k' v'] d IH]; [reflexivity|]. simpl.
  destruct (String.eqb k k'); [discriminate|]. intros H. now rewrite IH.
Qed.

Lemma dict_get_app (k : string) (a b : dict) :
  dict_get k (a ++ b) = match dict_get k a with Some v => Some v | None => dict_get k b end.
Proof.
  induction a as [|[k' v'] a IH]; [reflexivity|]. simpl.
  now destruct (String.eqb k k').
Qed.

(** Spreading a dictionary over one that shares no key with it appends it. *)
Lemma dict_update_disjoint (pairs base : dict) :
  NoDup (dict_keys pairs) ->
  (forall k, In k (dict_keys pairs) -> dict_get k base = None) ->
  dict_update base pairs = base ++ pairs.
Proof.
  revert base. induction pairs as [|[k v] pairs IH]; intros base Hnd Hdis.
  - simpl. now rewrite app_nil_r.
  - unfold dict_update. cbn [fold_left fst snd]. fold (dict_update (dict_set k v base) pairs).
    cbn [dict_keys map fst] in Hnd. apply NoDup_cons_iff in Hnd as [Hk Hnd].
    rewrite (dict_set_new k v base) by (apply Hdis; now left).
    rewrite IH; [now rewrite <- app_assoc | assumption |].
    intros k' Hin. rewrite dict_get_app, (Hdis k') by (now right). simpl.
    destruct (String.eqb_spec k' k) as [->|_]; [contradiction | reflexivity].
Qed.

Lemma conforming_keys (d : dict) (k : string) :
  conforms_to_schema (VDict d) = true -> In k (dict_keys d) -> In k content_fields.
Proof.
  unfold conforms_to_schema. rewrite !andb_true_iff. intros [[[[H _] _] _] _] Hin.
  rewrite forallb_forall in H. apply mem_string_In. now apply H.
Qed.

(** X4.  A reply that decodes to an object valid against the schema is kept as it
    is: the record is the five metadata fields followed by the fields of the
    reply, in the order and with the values the model sent. *)
Theorem conforming_reply_kept (p : Path) (timestamp model content : string) (d : dict) :
  parse_json_response content = inr (VDict d) ->
  conforms_to_schema (VDict d) = true ->
  success_record p timestamp model d = metadata p timestamp model ++ d.
Proof.
  intros Hparse Hconf. unfold success_record. fold (metadata p timestamp model).
  apply dict_update_disjoint.
  - exact (parse_json_response_keys_once content d Hparse).
  - intros k Hin. pose proof (conforming_keys d k Hconf Hin) as Hc.
    unfold content_fields in Hc. simpl in Hc.
    destruct Hc as [<-|[<-|[<-|[<-|[]]]]]; reflexivity.
Qed.

Lemma conforming_reply_kept_witness :
  success_record (test_image "7.jpg") "now" "gpt-4o"
    [ ("depth_cm_estimate", VInt 12); ("depth_range", VStr "10–15");
      ("passability", VStr "pass");
      ("justification", VStr "wheel stop nearly covered") ]
  = metadata (test_image "7.jpg") "now" "gpt-4o"
    ++ [ ("depth_cm_estimate", VInt 12); ("depth_range", VStr "10–15");
         ("passability", VStr "pass");
         ("justification", VStr "wheel stop nearly covered") ].
Proof.
  apply (conforming_reply_kept (test_image "7.jpg") "now" "gpt-4o" good_reply);
    vm_compute; reflexivity.
Defined.

(** ** The fields every record has *)

Lemma dict_update_keeps (k : string) (pairs base : dict) :
  In k (dict_keys base) -> In k (dict_keys (dict_update base pairs)).
Proof.
  revert base. induction pairs as [|[k' v'] pairs IH]; intros base Hin; [exact Hin|].
  unfold dict_update. cbn [fold_left fst snd]. apply IH.
  rewrite dict_set_keys. destruct (mem_string k' (dict_keys base)); [assumption|].
  apply in_or_app. now left.
Qed.

Lemma record_of_metadata (p : Path) (record : dict) (k : string) :
  record_of p record -> In k metadata_keys -> exists v, dict_get k record = Some v.
Proof.
  intros Hrec Hk.
  assert (Hin : In k (dict_keys record)).
  { destruct Hrec as [(timestamp & model & d & ->)|(timestamp & e & ->)].
    - unfold success_record. apply dict_update_keeps. exact Hk.
    - unfold failure_record, dict_keys. cbn [map fst].
      unfold metadata_keys in Hk. simpl in Hk. simpl. tauto. }
  destruct (dict_get k record) as [v|] eqn:G.
  - now exists v.
  - apply dict_get_none_keys in G. contradiction.
Qed.

(** X5.  Whatever the model replies, the record of a file has the five metadata
    keys, [analysis_success] among them: the look-up of that key by the batch
    never fails. *)
Theorem record_has_metadata (w : World) (p : Path) (R : Z) (st : state) (k : string) :
  In k metadata_keys ->
  exists v, dict_get k (fst (analyze_image w p R st)) = Some v.
Proof. apply (record_of_metadata p), analyze_image_record_of. Qed.

Lemma record_has_metadata_witness :
  exists v,
    dict_get "analysis_success"
      (fst (analyze_image (replying flag_reply) (test_image "7.jpg") 3 initial_state))
    = Some v.
Proof.
  apply (record_has_metadata (replying flag_reply) (test_image "7.jpg") 3 initial_state
           "analysis_success").
  vm_compute. tauto.
Defined.

(** ** No round at all *)

(** X6.  With [max_retries] zero or negative no model is asked: the image is
    read, and the record is the failure record that says all models and
    retries failed. *)
Theorem no_round_no_request (w : World) (p : Path) (R : Z) (st : state) :
  (R <= 0)%Z ->
  readable w p = true ->
  fst (analyze_image w p R st) = failure_record p (now w (history st)) all_failed
  /\ effects_since st (snd (analyze_image w p R st)) = [].
Proof.
  intros HR Hread. rewrite analyze_image_eq, analyze_image_body_eq.
  unfold readable in Hread. unfold encode_image.
  destruct (read_bytes w (path_str p)) as [cause|data]; [discriminate|].
  cbv zeta. replace (Z.to_nat R) with 0 by lia. cbn [retry_rounds ret fst snd].
  rewrite cached_fewshot_history. split; [reflexivity|].
  apply effects_since_app. rewrite cached_fewshot_history. now rewrite app_nil_r.
Qed.

Lemma no_round_no_request_witness :
  fst (analyze_image (replying good_reply) (test_image "7.jpg") 0 initial_state)
  = failure_record (test_image "7.jpg")
      (now (replying good_reply) (history initial_state)) all_failed
  /\ effects_since initial_state
       (snd (analyze_image (replying good_reply) (test_image "7.jpg") 0 initial_state))
     = [].
Proof.
  apply (no_round_no_request (replying good_reply) (test_image "7.jpg") 0 initial_state).
  - lia.
  - vm_compute. reflexivity.
Defined.

(** ** The order of the files *)

Lemma string_ltb_total (a b : string) :
  String.ltb a b = false -> String.ltb b a = false -> a = b.
Proof.
  unfold String.ltb. pose proof (String.compare_antisym a b) as H.
  destruct (String.compare a b) eqn:E; destruct (String.compare b a) eqn:E';
    try discriminate.
  intros _ _. now apply String.compare_eq_iff.
Qed.

Lemma sorted_int_unique (l1 l2 : list Path) :
  Permutation l1 l2 ->
  (forall a b, In a l1 -> In b l1 -> int_stem a = int_stem b -> a = b) ->
  sorted int_stem Z.ltb l1 = sorted int_stem Z.ltb l2.
Proof.
  intros P Hinj.
  assert (Hasym : forall x y : Z, (x <? y)%Z = true -> (y <? x)%Z = false) by lia.
  assert (Htrans : forall a b c : Path,
             not_after int_stem Z.ltb a b -> not_after int_stem Z.ltb b c ->
             not_after int_stem Z.ltb a c) by (unfold not_after; lia).
  apply (sorted_unique int_stem Z.ltb).
  - now apply sorted_sorted.
  - now apply sorted_sorted.
  - rewrite !sorted_perm. exact P.
  - intros a b Ha Hb Hab Hba.
    apply (Permutation_in _ (sorted_perm int_stem Z.ltb l1)) in Ha, Hb.
    apply Hinj; try assumption. unfold not_after in *. lia.
Qed.

Lemma sorted_name_unique (l1 l2 : list Path) :
  Permutation l1 l2 ->
  (forall a b, In a l1 -> In b l1 -> name a = name b -> a = b) ->
  sorted name String.ltb l1 = sorted name String.ltb l2.
Proof.
  intros P Hinj.
  assert (Htrans : forall a b c : Path,
             not_after name String.ltb a b -> not_after name String.ltb b c ->
             not_after name String.ltb a c).
  { unfold not_after. intros a b c. rewrite !string_not_ltb_leb.
    apply string_leb_trans. }
  apply (sorted_unique name String.ltb).
  - apply sorted_sorted; [exact string_ltb_asym | exact Htrans].
  - apply sorted_sorted; [exact string_ltb_asym | exact Htrans].
  - rewrite !sorted_perm. exact P.
  - intros a b Ha Hb Hab Hba.
    apply (Permutation_in _ (sorted_perm name String.ltb l1)) in Ha, Hb.
    apply Hinj; try assumption. unfold not_after in *. now apply string_ltb_total.
Qed.



Section Stable.
Context {A K : Type} (key : A -> K) (lt : K -> K -> bool) (P : A -> bool).
Hypothesis ties : forall x y, P x = true -> P y = true -> lt (key y) (key x) = false.

Lemma insert_sorted_filter (x : A) (l : list A) :
  filter P (insert_sorted key lt x l) = filter P (x :: l).
Proof.
  induction l as [|y l IH]; [reflexivity|]. cbn [insert_sorted].
  destruct (lt (key y) (key x)) eqn:E; [|reflexivity].
  cbn [filter] in *. rewrite IH.
  destruct (P x) eqn:Px; [|reflexivity].
  destruct (P y) eqn:Py; [|reflexivity].
  rewrite (ties x y Px Py) in E. discriminate.
Qed.

Lemma sorted_filter (l : list A) : filter P (sorted key lt l) = filter P l.
Proof.
  induction l as [|x l IH]; [reflexivity|].
  change (sorted key lt (x :: l)) with (insert_sorted key lt x (sorted key lt l)).
  rewrite insert_sorted_filter. cbn [filter]. now rewrite IH.
Qed.

End Stable.

Lemma filter_nothing {A : Type} (f : A -> bool) (l : list A) :
  Forall (fun x => f x = false) l -> filter f l = [].
Proof.
  induction 1 as [|x l Hx _ IH]; [reflexivity|]. simpl. now rewrite Hx.
Qed.

Lemma filter_filter {A : Type} (f g : A -> bool) (l : list A) :
  (forall x, f x = true -> g x = true) -> filter f (filter g l) = filter f l.
Proof.
  intros H. induction l as [|x l IH]; [reflexivity|]. simpl.
  destruct (g x) eqn:G; simpl; rewrite IH; [reflexivity|].
  destruct (f x) eqn:F; [|reflexivity]. rewrite (H x F) in G. discriminate.
Qed.



(** The listing decides between such files: the same directory listed the
    other way round gives another order. *)
Example same_number_listing_order_matters :
  get_image_files (sample_world same_number_entries always_down) "data/test_images"
  = inr [test_image "1.png"; test_image "01.jpg"; test_image "3.jpg"; test_image "b.gif"]
  /\ get_image_files (sample_world (rev same_number_entries) always_down) "data/test_images"
     = inr [test_image "01.jpg"; test_image "1.png"; test_image "3.jpg"; test_image "b.gif"].
Proof. split; vm_compute; reflexivity. Qed.

(** ** The MIME type of an image file *)

(** X9.  A file that [get_image_files] accepts is sent under the MIME type of its
    own extension: the default type is never used for it. *)
Theorem image_file_mime_type (w : World) (p : Path) (is_file : bool) (data : string) :
  is_image_file (p, is_file) = true ->
  read_bytes w (path_str p) = inr data ->
  exists mime,
    encode_image w p = inr (b64encode data, mime)
    /\ In (lower (suffix p), mime) mime_types.
Proof.
  unfold is_image_file, encode_image. cbn [fst snd]. intros Hf ->.
  apply andb_true_iff in Hf as [_ Hf]. apply mem_string_In in Hf.
  eexists. split; [reflexivity|].
  unfold SUPPORTED_FORMATS in Hf. simpl in Hf.
  destruct Hf as [<-|[<-|[<-|[<-|[<-|[]]]]]]; simpl; tauto.
Qed.

Lemma image_file_mime_type_witness :
  exists mime,
    encode_image unreachable (test_image "Scan.PNG") = inr (b64encode "JPEG", mime)
    /\ In (lower (suffix (test_image "Scan.PNG")), mime) mime_types.
Proof.
  apply (image_file_mime_type unreachable (test_image "Scan.PNG") true "JPEG");
    vm_compute; reflexivity.
Defined.

(** ** The batch *)

Lemma paces_app (a b : list event) : paces (a ++ b) = paces a ++ paces b.
Proof. apply filter_app. Qed.

Lemma paces_none (evs : list event) :
  Forall (fun e => is_pace e = false) evs -> paces evs = [].
Proof. apply filter_nothing. Qed.

Lemma batch_loop_step (w : World) (image_file : Path) (rest : list Path)
    (results : list dict) (success_count : nat) (st : state) :
  batch_loop w (image_file :: rest) results success_count st
  = batch_loop w rest (results ++ [fst (analyze_image w image_file 3 st)])
      (if flagged (fst (analyze_image w image_file 3 st)) then S success_count
       else success_count)
      (extend (snd (analyze_image w image_file 3 st)) [pace]).
Proof.
  cbn [batch_loop]. unfold bind at 1.
  destruct (analyze_image w image_file 3 st) as [result st1].
  reflexivity.
Qed.

(** The loop over the files: a record and a pause for each file, the count
    of the records flagged as successes, and nothing written. *)
Lemma batch_loop_run (w : World) (image_files : list Path) (results : list dict)
    (success_count : nat) (st : state) :
  exists new evs,
    fst (batch_loop w image_files results success_count st)
    = (results ++ new, success_count + length (filter flagged new))
    /\ length new = length image_files
    /\ history (snd (batch_loop w image_files results success_count st))
       = history st ++ evs
    /\ length (paces evs) = length image_files
    /\ dumps evs = []
    /\ length (requested_models evs) <= 6 * length image_files.
Proof.
  revert results success_count st.
  induction image_files as [|image_file rest IH]; intros results success_count st.
  - exists [], []. simpl. rewrite !app_nil_r, Nat.add_0_r. now split_all.
  - rewrite batch_loop_step.
    pose proof (analyze_image_history w image_file 3 st) as Hh.
    destruct (analyze_image_effect_bounds w image_file 3 st) as (Hr & _ & Hd & Hp).
    set (result := fst (analyze_image w image_file 3 st)) in *.
    set (st1 := snd (analyze_image w image_file 3 st)) in *.
    set (evs1 := effects_since st st1) in *.
    match goal with |- context [batch_loop w rest ?rs ?sc ?s] =>
      destruct (IH rs sc s) as (new & evs & Ef & Hlen & Eh & Hpace & Hdump & Hreq) end.
    rewrite Ef, Eh.
    exists (result :: new), (evs1 ++ pace :: evs). split_all.
    + f_equal; [now rewrite <- app_assoc|].
      cbn [filter]. destruct (flagged result); simpl; lia.
    + simpl. now rewrite Hlen.
    + unfold extend. cbn [history]. rewrite Hh. now rewrite <- !app_assoc.
    + rewrite paces_app, (paces_none evs1 Hp).
      change (paces (pace :: evs)) with (pace :: paces evs). simpl. now rewrite Hpace.
    + rewrite dumps_app, Hd. exact Hdump.
    + rewrite requested_models_app, length_app.
      change (requested_models (pace :: evs)) with (requested_models evs).
      change (Z.to_nat 3 * length models_to_try) with 6 in Hr. simpl length. lia.
Qed.

Lemma analyze_batch_eq (w : World) (images_dir output_file : string) (st : state)
    (image_file : Path) (rest : list Path) :
  path_exists w images_dir = true ->
  get_image_files w images_dir = inr (image_file :: rest) ->
  analyze_batch w images_dir output_file st
  = let looped := batch_loop w (image_file :: rest) [] 0 st in
    let output_data :=
      [ ("summary",
          summary_of (length (image_file :: rest)) (snd (fst looped))
            (success_rate (snd (fst looped)) (length (image_file :: rest)))
            (now w (history (snd looped))));
        ("results", VList (map VDict (fst (fst looped)))) ] in
    match open_for_writing w output_file with
    | Some e => (inl e, snd looped)
    | None => (inr output_data, extend (snd looped) [EvDump output_file (VDict output_data)])
    end.
Proof.
  intros Hex Hfiles. unfold analyze_batch. rewrite Hex, Hfiles. cbn [negb].
  unfold bind at 1.
  destruct (batch_loop w (image_file :: rest) [] 0 st) as [[results count] st1].
  cbv zeta. cbn [fst snd]. unfold bind at 1. cbn [get_history].
  destruct (open_for_writing w output_file); reflexivity.
Qed.

(** The shape of every run of [analyze_batch]. *)
Lemma analyze_batch_run (w : World) (images_dir output_file : string) (st : state) :
  let run := analyze_batch w images_dir output_file st in
  (path_exists w images_dir = false
   /\ run = (inl (FileNotFoundError ("图像目录不存在: " ++ images_dir)%string), st))
  \/ (path_exists w images_dir = true
      /\ exists e, get_image_files w images_dir = inl e /\ run = (inl e, st))
  \/ (path_exists w images_dir = true
      /\ get_image_files w images_dir = inr []
      /\ run = (inr (empty_report (now w (history st))), st))
  \/ (path_exists w images_dir = true
      /\ exists image_files results evs,
           get_image_files w images_dir = inr image_files
           /\ image_files <> []
           /\ length results = length image_files
           /\ Forall2 (analysed w) image_files results
           /\ length (paces evs) = length image_files
           /\ dumps evs = []
           /\ length (requested_models evs) <= 6 * length image_files
           /\ let output_data :=
                [ ("summary",
                    summary_of (length results) (length (filter flagged results))
                      (success_rate (length (filter flagged results)) (length results))
                      (now w (history st ++ evs)));
                  ("results", VList (map VDict results)) ] in
              match open_for_writing w output_file with
              | Some e => fst run = inl e /\ history (snd run) = history st ++ evs
              | None =>
                  fst run = inr output_data
                  /\ history (snd run)
                     = history st ++ evs ++ [EvDump output_file (VDict output_data)]
              end).
Proof.
  intros run. subst run.
  destruct (path_exists w images_dir) eqn:Hex.
  2: { left. split; [reflexivity|]. unfold analyze_batch. now rewrite Hex. }
  right. destruct (get_image_files w images_dir) as [e|image_files] eqn:Hfiles.
  { left. split; [reflexivity|]. exists e. split; [reflexivity|].
    unfold analyze_batch. now rewrite Hex, Hfiles. }
  right. destruct image_files as [|image_file rest].
  { left. split_all; try reflexivity. unfold analyze_batch. now rewrite Hex, Hfiles. }
  right. split; [reflexivity|].
  rewrite (analyze_batch_eq w images_dir output_file st image_file rest Hex Hfiles).
  destruct (batch_loop_run w (image_file :: rest) [] 0 st)
    as (results & evs & Ef & Hlen & Eh & Hpace & Hdump & Hreq).
  exists (image_file :: rest), results, evs.
  destruct (batch_loop_records w (image_file :: rest) [] 0 st) as (new & En & Hall).
  destruct (batch_loop w (image_file :: rest) [] 0 st) as [[results' count] st1].
  cbn [fst snd] in Ef, Eh, En. cbn [app Nat.add] in Ef, En. injection Ef as -> ->.
  subst new.
  cbv zeta. cbn [fst snd]. rewrite Eh. rewrite <- Hlen in Hpace, Hreq |- *.
  split_all; try assumption; try reflexivity; try discriminate.
  destruct (open_for_writing w output_file) as [e|]; cbn [fst snd].
  - split; [reflexivity | exact Eh].
  - split; [reflexivity|]. unfold extend. cbn [history]. now rewrite Eh, <- app_assoc.
Qed.






(** X13.  The output file is opened only after the last image: when it cannot be
    opened, the batch raises that error with every image analysed and
    nothing written. *)
Theorem unwritable_output_raises_at_the_end (w : World)
    (images_dir output_file : string) (st : state) (image_files : list Path)
    (e : exn) :
  path_exists w images_dir = true ->
  get_image_files w images_dir = inr image_files ->
  image_files <> [] ->
  open_for_writing w output_file = Some e ->
  let run := analyze_batch w images_dir output_file st in
  fst run = inl e
  /\ snd run = snd (batch_loop w image_files [] 0 st)
  /\ length (fst (fst (batch_loop w image_files [] 0 st))) = length image_files
  /\ dumps (effects_since st (snd run)) = [].
Proof.
  intros Hex Hfiles Hne Hopen run. subst run.
  destruct image_files as [|image_file rest]; [contradiction|].
  rewrite (analyze_batch_eq w images_dir output_file st image_file rest Hex Hfiles).
  cbv zeta. rewrite Hopen. cbn [fst snd].
  destruct (batch_loop_run w (image_file :: rest) [] 0 st)
    as (results & evs & Ef & Hlen & Eh & _ & Hd & _).
  rewrite (effects_since_app _ _ _ Eh), Ef. cbn [fst app].
  now split_all.
Qed.

Lemma unwritable_output_raises_at_the_end_witness :
  let run := analyze_batch read_only "data/test_images" "out.json" initial_state in
  fst run
  = inl (Raised "PermissionError" "[Errno 13] Permission denied: 'out.json'")
  /\ snd run
     = snd (batch_loop read_only
              [test_image "9.jpg"; mkPath "elsewhere/x.png" "x.png"] [] 0 initial_state)
  /\ length (fst (fst (batch_loop read_only
                         [test_image "9.jpg"; mkPath "elsewhere/x.png" "x.png"] [] 0
                         initial_state)))
     = length [test_image "9.jpg"; mkPath "elsewhere/x.png" "x.png"]
  /\ dumps (effects_since initial_state (snd run)) = [].
Proof.
  apply (unwritable_output_raises_at_the_end read_only "data/test_images" "out.json"
           initial_state);
    vm_compute; solve [reflexivity | discriminate].
Defined.

(** ** The messages of a request *)

Lemma enumerate_examples_roles (i : nat) (examples : list encoded_example) :
  map role_of (enumerate_examples i examples)
  = concat (repeat ["user"; "assistant"] (length examples)).
Proof.
  revert i. induction examples as [|example rest IH]; intros i; [reflexivity|].
  cbn [enumerate_examples length repeat concat]. rewrite map_app, IH. reflexivity.
Qed.

(** X14.  With examples, the messages are the system instruction, then for each
    example a user turn and the assistant's answer, then the image to
    analyse; without examples the image to analyse is the only message and
    no system instruction is sent.  The image to analyse always comes last. *)
Theorem messages_shape (cache : list encoded_example) (base64_image mime : string) :
  map role_of (build_messages cache base64_image mime)
  = match cache with
    | [] => ["user"]
    | _ :: _ =>
        "system" :: concat (repeat ["user"; "assistant"] (length cache)) ++ ["user"]
    end
  /\ last (build_messages cache base64_image mime) VNone
     = target_message base64_image mime.
Proof.
  destruct cache as [|example rest]; [now split|].
  unfold build_messages, build_fewshot_messages. split.
  - cbn [map]. rewrite map_app, enumerate_examples_roles. reflexivity.
  - rewrite app_comm_cons. apply last_last.
Qed.

(** ** The answers shown to the model *)

Lemma load_examples_expected (w : World) (examples : list fewshot_example) :
  Forall (fun e => In (expected_output e) (map expected_of examples))
    (load_examples w examples).
Proof.
  induction examples as [|example rest IH]; [constructor|].
  cbn [load_examples map].
  assert (IH' : Forall (fun e => In (expected_output e)
                                   (expected_of example :: map expected_of rest))
                  (load_examples w rest)).
  { apply Forall_impl with (2 := IH). intros e He. now right. }
  destruct (negb (path_exists w (path_str (joinpath (fewshot_dir w) (image example)))));
    [exact IH'|].
  destruct (encode_image w (joinpath (fewshot_dir w) (image example))) as [e|[data mime]];
    [exact IH'|].
  constructor; [now left | exact IH'].
Qed.

Lemma assistant_contents_app (a b : list value) :
  assistant_contents (a ++ b) = assistant_contents a ++ assistant_contents b.
Proof. apply flat_map_app. Qed.

Lemma assistant_contents_examples (i : nat) (examples : list encoded_example)
    (content : string) :
  In content (assistant_contents (enumerate_examples i examples)) ->
  exists example j,
    In example examples
    /\ nth_error (example_messages j example) 1
       = Some (message "assistant" (VStr content)).
Proof.
  revert i. induction examples as [|example rest IH]; intros i Hin; [contradiction|].
  cbn [enumerate_examples] in Hin. rewrite assistant_contents_app in Hin.
  apply in_app_or in Hin as [Hin|Hin].
  - exists example, i. split; [now left|].
    cbn in Hin. destruct Hin as [<-|[]]. reflexivity.
  - destruct (IH (S i) Hin) as (ex & j & Hex & Hj).
    exists ex, j. split; [now right | exact Hj].
Qed.

Lemma table_answers_valid :
  Forall
    (fun expected =>
       forall j example,
         expected_output example = expected ->
         forall content,
           nth_error (example_messages j example) 1
           = Some (message "assistant" (VStr content)) ->
           valid_reply_for expected content)
    (map expected_of fewshot_examples).
Proof.
  unfold fewshot_examples. cbn [map].
  repeat (apply Forall_cons;
          [intros j example E content H; unfold example_messages in H;
           rewrite E in H; cbn [nth_error] in H; injection H as <-;
           unfold valid_reply_for;
           (split_all; [vm_compute; reflexivity | vm_compute; reflexivity |]);
           (eexists; split; [reflexivity | vm_compute; tauto])|]).
  apply Forall_nil.
Qed.

Lemma assistant_contents_target (base64_image mime : string) :
  assistant_contents [target_message base64_image mime] = [].
Proof. reflexivity. Qed.

Lemma assistant_contents_build (cache : list encoded_example)
    (base64_image mime : string) :
  assistant_contents (build_messages cache base64_image mime)
  = assistant_contents (enumerate_examples 0 cache).
Proof.
  destruct cache as [|e l]; [reflexivity|].
  unfold build_messages, build_fewshot_messages.
  change (?m :: ?a ++ ?b) with ([m] ++ a ++ b).
  rewrite !assistant_contents_app, assistant_contents_target, app_nil_r.
  reflexivity.
Qed.

(** X15.  Every answer shown to the model as an example is a reply the program
    itself would accept: it decodes to the expected output of an entry of
    the table, valid against the response schema and with one of the ten
    bands. *)
Theorem example_answers_are_valid_replies (w : World) (base64_image mime content : string) :
  In content
    (assistant_contents (build_messages (load_fewshot_examples w) base64_image mime)) ->
  exists example,
    In example fewshot_examples /\ valid_reply_for (expected_of example) content.
Proof.
  rewrite assistant_contents_build. intros Hin.
  apply assistant_contents_examples in Hin as (ex & j & Hex & Hj).
  pose proof (load_examples_expected w fewshot_examples) as Hall.
  rewrite Forall_forall in Hall. apply Hall in Hex.
  apply in_map_iff in Hex as (example & Ee & Hexample).
  exists example. split; [assumption|].
  pose proof table_answers_valid as Hvalid. rewrite Forall_forall in Hvalid.
  apply (Hvalid (expected_of example) (in_map expected_of _ _ Hexample) j ex);
    [now symmetry | exact Hj].
Qed.

Lemma example_answers_are_valid_replies_witness :
  exists example,
    In example fewshot_examples
    /\ valid_reply_for (expected_of example)
         (nth 0 (assistant_contents
                   (build_messages (load_fewshot_examples with_examples) "QQ==" "image/png"))
            EmptyString).
Proof.
  apply (example_answers_are_valid_replies with_examples "QQ==" "image/png").
  vm_compute. left. reflexivity.
Defined.

(** ** The key of the client *)

Lemma rev_string_acc (s acc : string) :
  rev_string s acc = (reversed s ++ acc)%string.
Proof.
  unfold reversed. revert acc. induction s as [|c s IH]; intros acc; [reflexivity|].
  cbn [rev_string]. rewrite IH, (IH (String c EmptyString)), append_assoc. reflexivity.
Qed.

Lemma reversed_app (a b : string) :
  reversed (a ++ b)%string = (reversed b ++ reversed a)%string.
Proof.
  induction a as [|c a IH].
  - cbn. now rewrite append_nil_r.
  - unfold reversed in *. cbn [append rev_string].
    rewrite (rev_string_acc (a ++ b)), (rev_string_acc a). fold (reversed (a ++ b)%string).
    unfold reversed. rewrite IH. apply append_assoc.
Qed.

Lemma reversed_involutive (s : string) : reversed (reversed s) = s.
Proof.
  induction s as [|c s IH]; [reflexivity|].
  change (String c s) with (String c EmptyString ++ s)%string at 1.
  rewrite reversed_app, reversed_app. rewrite IH. reflexivity.
Qed.

Lemma all_chars_app (f : ascii -> bool) (a b : string) :
  all_chars f (a ++ b)%string = all_chars f a && all_chars f b.
Proof.
  induction a as [|c a IH]; [reflexivity|]. cbn. now rewrite IH, andb_assoc.
Qed.

Lemma all_chars_reversed (f : ascii -> bool) (s : string) :
  all_chars f (reversed s) = all_chars f s.
Proof.
  induction s as [|c s IH]; [reflexivity|].
  change (String c s) with (String c EmptyString ++ s)%string at 1.
  rewrite reversed_app, all_chars_app, IH. cbn. now rewrite andb_true_r, andb_comm.
Qed.

Section Strip.
Context (s1 : ascii -> bool) (s2 : ascii -> ascii -> bool)
        (s3 : ascii -> ascii -> ascii -> bool).

Lemma lstrip_where_pad (pad x : string) :
  all_chars s1 pad = true ->
  lstrip_where s1 s2 s3 (pad ++ x)%string = lstrip_where s1 s2 s3 x.
Proof.
  induction pad as [|c pad IH]; [reflexivity|]. cbn [all_chars append].
  intros H. apply andb_true_iff in H as [Hc H]. cbn [lstrip_where].
  rewrite Hc. now apply IH.
Qed.

Lemma lstrip_where_stop (a : ascii) (r : string) :
  s1 a = false -> (forall b, s2 a b = false) -> (forall b c, s3 a b c = false) ->
  lstrip_where s1 s2 s3 (String a r) = String a r.
Proof.
  intros H1 H2 H3. cbn [lstrip_where]. rewrite H1.
  destruct r as [|b r]; [reflexivity|]. rewrite H2.
  destruct r as [|c r]; [reflexivity|]. now rewrite H3.
Qed.

End Strip.

(** A plain character or a quote is no white space and no part of a
    white-space character of several bytes. *)
Lemma ascii_not_space (a : ascii) :
  (code a <? 128)%N = true -> space1 a = false ->
  (forall b, space2 a b = false) /\ (forall b, space2 b a = false)
  /\ (forall b c, space3 a b c = false) /\ (forall b c, space3 c b a = false).
Proof.
  intros Ha _. apply N.ltb_lt in Ha.
  assert (H192 : (192 <=? code a)%N = false) by (apply N.leb_gt; lia).
  assert (H224 : (224 <=? code a)%N = false) by (apply N.leb_gt; lia).
  assert (Hc : continuation a = false).
  { unfold continuation. replace (128 <=? code a)%N with false; [reflexivity|].
    symmetry. apply N.leb_gt. lia. }
  unfold space2, space3. rewrite H192, H224, Hc. split_all; intros; cbn;
    now rewrite ?andb_false_r.
Qed.

Lemma plain_not_space (a : ascii) :
  plain a = true ->
  (code a <? 128)%N = true /\ space1 a = false /\ is_quote a = false.
Proof.
  unfold plain. rewrite !andb_true_iff, negb_true_iff. intros [[H32 H127] Hq].
  apply N.ltb_lt in H32, H127. split_all; [apply N.ltb_lt; lia | | exact Hq].
  unfold space1, isspace. apply andb_false_iff. right.
  apply not_true_is_false. intros H. apply existsb_exists in H as (n & Hin & Hn).
  apply N.eqb_eq in Hn. subst n. simpl in Hin.
  repeat (destruct Hin as [Hin|Hin]; [lia|]). exact Hin.
Qed.

Lemma quote_not_space (a : ascii) :
  is_quote a = true -> (code a <? 128)%N = true /\ space1 a = false.
Proof.
  unfold is_quote. intros H. apply orb_true_iff in H as [H|H];
    apply Ascii.eqb_eq in H; subst a; now split.
Qed.

(** White space stops at a text that starts with a plain character or a
    quote, read from the left or from the right. *)
Lemma space_stops (a : ascii) (r : string) :
  plain a = true \/ is_quote a = true ->
  lstrip_where space1 space2 space3 (String a r) = String a r
  /\ lstrip_where space1 (fun a b => space2 b a) (fun a b c => space3 c b a) (String a r)
     = String a r.
Proof.
  intros H.
  assert (Ha : (code a <? 128)%N = true /\ space1 a = false).
  { destruct H as [H|H]; [apply plain_not_space in H; tauto | now apply quote_not_space]. }
  destruct Ha as [Ha Hs]. destruct (ascii_not_space a Ha Hs) as (H2 & H2' & H3 & H3').
  split; apply lstrip_where_stop; auto.
Qed.

Lemma quotes_stop (a : ascii) (r : string) :
  plain a = true ->
  lstrip_where is_quote (fun _ _ => false) (fun _ _ _ => false) (String a r) = String a r.
Proof.
  intros H. apply lstrip_where_stop; auto. now apply plain_not_space in H.
Qed.

Lemma starts_plain_app (k x : string) :
  starts_plain k = true -> exists a r, (k ++ x)%string = String a r /\ plain a = true.
Proof. destruct k as [|a k]; [discriminate|]. intros H. now exists a, (k ++ x)%string. Qed.

Lemma quotes_then_plain (q k x : string) :
  all_chars is_quote q = true -> starts_plain k = true ->
  exists a r, (q ++ k ++ x)%string = String a r /\ (plain a = true \/ is_quote a = true).
Proof.
  intros Hq Hk. destruct q as [|a q].
  - destruct (starts_plain_app k x Hk) as (a & r & E & Ha). exists a, r. cbn. tauto.
  - cbn in Hq. apply andb_true_iff in Hq as [Ha _]. exists a, (q ++ k ++ x)%string. tauto.
Qed.

Lemma key_of_line_value (value : string) :
  key_of_line ("OPENAI_API_KEY=" ++ value) = inr (strip_chars is_quote (str_strip value)).
Proof. reflexivity. Qed.

Lemma key_line_value (line : string) :
  key_line line = true -> exists value, line = ("OPENAI_API_KEY=" ++ value)%string.
Proof.
  unfold key_line, startswith.
  destruct (strip_prefix "OPENAI_API_KEY=" line) as [value|] eqn:E; [|discriminate].
  intros _. exists value. now apply strip_prefix_app.
Qed.

(** The value of a line: white space around it is dropped, then quotes. *)
Lemma strip_padded (pad1 pad2 x : string) (a z : ascii) (r r' : string) :
  all_chars space1 pad1 = true -> all_chars space1 pad2 = true ->
  x = String a r -> plain a = true \/ is_quote a = true ->
  reversed x = String z r' -> plain z = true \/ is_quote z = true ->
  str_strip (pad1 ++ x ++ pad2) = x.
Proof.
  intros H1 H2 Ex Ha Er Hz. unfold str_strip. cbv zeta.
  rewrite (lstrip_where_pad _ _ _ pad1) by assumption.
  assert (El : lstrip_where space1 space2 space3 (x ++ pad2)%string = (x ++ pad2)%string).
  { rewrite Ex. cbn [append]. now apply space_stops. }
  rewrite El, reversed_app.
  rewrite lstrip_where_pad by now rewrite all_chars_reversed.
  rewrite Er. rewrite (proj2 (space_stops z r' Hz)). rewrite <- Er.
  apply reversed_involutive.
Qed.

Lemma strip_quoted (q1 q2 key : string) :
  all_chars is_quote q1 = true -> all_chars is_quote q2 = true ->
  starts_plain key = true -> starts_plain (reversed key) = true ->
  strip_chars is_quote (q1 ++ key ++ q2) = key.
Proof.
  intros H1 H2 Hk Hr. unfold strip_chars. cbv zeta.
  rewrite lstrip_where_pad by assumption.
  destruct (starts_plain_app key q2 Hk) as (a & r & E & Ha).
  rewrite E, (quotes_stop a r Ha), <- E, reversed_app.
  rewrite lstrip_where_pad by now rewrite all_chars_reversed.
  destruct (starts_plain_app (reversed key) EmptyString Hr) as (z & r' & E' & Hz).
  rewrite append_nil_r in E'. rewrite E', (quotes_stop z r' Hz), <- E'.
  apply reversed_involutive.
Qed.

(** X16.  A key that starts and ends with a plain character, written after the
    name with quotes of either kind around it and white space around those,
    is read back as it is. *)
Theorem quoted_key_read_back (key pad1 pad2 q1 q2 : string) :
  starts_plain key = true ->
  starts_plain (reversed key) = true ->
  all_chars space1 pad1 = true ->
  all_chars space1 pad2 = true ->
  all_chars is_quote q1 = true ->
  all_chars is_quote q2 = true ->
  key_of_line ("OPENAI_API_KEY=" ++ pad1 ++ q1 ++ key ++ q2 ++ pad2) = inr key.
Proof.
  intros Hk Hr Hp1 Hp2 Hq1 Hq2. rewrite key_of_line_value. f_equal.
  destruct (quotes_then_plain q1 key q2 Hq1 Hk) as (a & r & Ex & Ha).
  assert (Hrev : reversed (q1 ++ key ++ q2)%string
                 = (reversed q2 ++ reversed key ++ reversed q1)%string).
  { now rewrite !reversed_app, append_assoc. }
  destruct (quotes_then_plain (reversed q2) (reversed key) (reversed q1)
              ltac:(now rewrite all_chars_reversed) Hr) as (z & r' & Er & Hz).
  rewrite <- Hrev in Er.
  replace (pad1 ++ q1 ++ key ++ q2 ++ pad2)%string
    with (pad1 ++ (q1 ++ key ++ q2) ++ pad2)%string
    by now rewrite !append_assoc.
  rewrite (strip_padded pad1 pad2 _ a z r r' Hp1 Hp2 Ex Ha Er Hz).
  now apply strip_quoted.
Qed.

Lemma quoted_key_read_back_witness :
  key_of_line ("OPENAI_API_KEY=" ++ " " ++ quoted "sk-test" ++ String LF EmptyString)
  = inr "sk-test".
Proof.
  apply (quoted_key_read_back "sk-test" " " (String LF EmptyString)
           (str1 quote) (str1 quote));
    vm_compute; reflexivity.
Defined.

(** ** The constructor *)

Lemma key_line_has_key (line : string) :
  key_line line = true -> exists key, key_of_line line = inr key.
Proof.
  intros H. apply key_line_value in H as [value ->].
  rewrite key_of_line_value. now eexists.
Qed.

Lemma scan_env_lines_first (before : list string) (line : string) (rest : list string)
    (at_end : option exn) (api_key : option string) (key : string) :
  forallb (fun l => negb (key_line l)) before = true ->
  key_line line = true ->
  key_of_line line = inr key ->
  scan_env_lines (before ++ line :: rest) at_end api_key = inr (Some key).
Proof.
  intros Hb Hl Hk. induction before as [|l before IH].
  - cbn [app scan_env_lines]. unfold key_line in Hl. now rewrite Hl, Hk.
  - cbn [forallb] in Hb. apply andb_true_iff in Hb as [Hn Hb].
    apply negb_true_iff in Hn. unfold key_line in Hn.
    cbn [app scan_env_lines]. rewrite Hn. now apply IH.
Qed.

Lemma scan_env_lines_origin (lines : list string) (at_end : option exn)
    (api_key : option string) (key : string) :
  scan_env_lines lines at_end api_key = inr (Some key) ->
  api_key = Some key
  \/ exists before line,
       firstn (S (length before)) lines = before ++ [line]
       /\ forallb (fun l => negb (key_line l)) before = true
       /\ key_line line = true
       /\ key_of_line line = inr key.
Proof.
  induction lines as [|l lines IH]; cbn [scan_env_lines].
  - destruct at_end; [discriminate|]. intros [= ->]. now left.
  - destruct (startswith l "OPENAI_API_KEY=") eqn:Hl.
    + destruct (key_of_line l) as [e|k] eqn:Hk; [discriminate|]. intros [= ->].
      right. exists [], l. now split_all.
    + intros H. destruct (IH H) as [Hs|(before & line & Ef & Hb & Hline & Hk)];
        [now left|].
      right. exists (l :: before), line. split_all; try assumption.
      * change (firstn (S (length (l :: before))) (l :: lines))
          with (l :: firstn (S (length before)) lines).
        now rewrite Ef.
      * cbn [forallb]. unfold key_line at 1. now rewrite Hl.
Qed.



(** A first line with an empty value hides the key of a later line: the
    constructor raises. *)
Example empty_first_line_hides_later_key :
  FloodImageAnalyzer_init with_examples (env_with_file empty_value_file) None
  = inl missing_key.
Proof. vm_compute. reflexivity. Qed.

(** X18.  The client is only ever built with a key that is not empty and that one
    of the three sources gave: the argument; without an argument, the
    variable of the environment; without both, the first line of
    [backend/.env] that starts with the name. *)
Theorem key_comes_from_a_source (w : World) (env : Environment)
    (api_key : option string) (key : string) :
  FloodImageAnalyzer_init w env api_key = inr key ->
  key <> EmptyString /\ OpenAI env key = None /\ key_source w env api_key key.
Proof.
  unfold FloodImageAnalyzer_init, key_source.
  set (found := match api_key with Some k => _ | None => _ end).
  destruct found as [e|[k|]] eqn:F; try discriminate.
  destruct (String.eqb_spec k EmptyString) as [->|Hne]; [discriminate|].
  destruct (OpenAI env k) eqn:Hclient; [discriminate|]. intros [= <-].
  split_all; try assumption.
  subst found. destruct api_key as [k0|].
  - injection F as ->. now left.
  - right. destruct (no_key (getenv env "OPENAI_API_KEY")) eqn:Hno.
    + destruct (path_exists w "backend/.env") eqn:Hex.
      * right. destruct (read_lines env "backend/.env") as [lines at_end] eqn:Hread.
        apply scan_env_lines_origin in F as [Hk|Hline].
        -- rewrite Hk in Hno. cbn in Hno. apply String.eqb_eq in Hno. contradiction.
        -- now split_all.
      * injection F as F. rewrite F in Hno. cbn in Hno.
        apply String.eqb_eq in Hno. contradiction.
    + injection F as F. now left.
Qed.

Lemma key_comes_from_a_source_witness :
  "sk-test"%string <> EmptyString
  /\ OpenAI (env_with_key "sk-test") "sk-test" = None
  /\ key_source with_examples (env_with_key "sk-test") None "sk-test".
Proof.
  apply (key_comes_from_a_source with_examples (env_with_key "sk-test") None "sk-test").
  vm_compute. reflexivity.
Defined.

(** ** The exit code of [main] *)

Lemma show_result_record (p : Path) (record : dict) :
  record_of p record ->
  (show_result (VDict record) = inr tt /\ showable record)
  \/ ((exists e, show_result (VDict record) = inl e) /\ ~ showable record).
Proof.
  intros Hrec.
  destruct (record_of_metadata p record "analysis_success" Hrec) as [flag Hflag];
    [unfold metadata_keys; simpl; tauto|].
  destruct (record_of_metadata p record "filename" Hrec) as [fname Hname];
    [unfold metadata_keys; simpl; tauto|].
  unfold show_result, showable, flagged, dict_item, subscript. rewrite Hflag, Hname.
  destruct (truthy flag).
  - destruct (dict_get "depth_cm_estimate" record) as [depth|].
    + destruct (dict_get "passability" record) as [pass|].
      * left. split; [reflexivity|]. intros _. now exists depth, pass.
      * right. split; [now eexists|]. intros H.
        destruct (H eq_refl) as (? & ? & _ & ?). discriminate.
    + right. split; [now eexists|]. intros H.
      destruct (H eq_refl) as (? & ? & ? & _). discriminate.
  - left. split; [reflexivity|]. discriminate.
Qed.

Lemma show_results_records (image_files : list Path) (results : list dict) :
  Forall2 (fun p record => record_of p record) image_files results ->
  (show_results (map VDict results) = inr tt /\ Forall showable results)
  \/ ((exists e, show_results (map VDict results) = inl e) /\ ~ Forall showable results).
Proof.
  induction 1 as [|p record image_files results Hrec _ IH].
  - left. now split.
  - cbn [map show_results].
    destruct (show_result_record p record Hrec) as [[-> Hs]|[[e ->] Hs]].
    + destruct IH as [[-> Hall]|[[e He] Hall]].
      * left. split; [reflexivity | now constructor].
      * right. split; [now exists e|]. intros H. apply Hall. now inversion H.
    + right. split; [now exists e|]. intros H. apply Hs. now inversion H.
Qed.

Lemma none_flagged (results : list dict) :
  length (filter flagged results) = 0 -> Forall showable results.
Proof.
  induction results as [|record results IH]; [constructor|]. cbn [filter].
  destruct (flagged record) eqn:F; [discriminate|]. intros H.
  constructor; [|now apply IH]. unfold showable. rewrite F. discriminate.
Qed.

Lemma show_report_batch (total successful : nat) (rate timestamp : string)
    (records : value) :
  show_report
    (VDict [("summary", summary_of total successful rate timestamp); ("results", records)])
  = if (0 <? Z.of_nat successful)%Z then for_each_result records else inr tt.
Proof. reflexivity. Qed.

Lemma map_VDict_inj (a b : list dict) : map VDict a = map VDict b -> a = b.
Proof.
  revert b. induction a as [|x a IH]; intros [|y b] H; try discriminate; [reflexivity|].
  cbn [map] in H. injection H as -> H. f_equal. now apply IH.
Qed.

Lemma analysed_record_of (w : World) (image_files : list Path) (results : list dict) :
  Forall2 (analysed w) image_files results ->
  Forall2 (fun p record => record_of p record) image_files results.
Proof. induction 1 as [|p r ps rs [_ H] _ IH]; constructor; assumption. Qed.


(** The report is written and [main] returns 1: the reply was an object
    without a depth. *)
Example main_fails_after_writing :
  fst (main (one_image named_reply) (env_with_key "sk-test") []) = 1%Z
  /\ length (dumps (snd (main (one_image named_reply) (env_with_key "sk-test") []))) = 1.
Proof. split; vm_compute; reflexivity. Qed.

Lemma conforming_record_showable (w : World) (p : Path) (record : dict) :
  replies_conform w -> analysed w p record -> showable record.
Proof.
  intros Hconf [(st & -> & _) _]. rewrite analyze_image_eq. cbn [fst].
  destruct (fst (analyze_image_body w p 3 st)) as [e|record] eqn:Hbody.
  - unfold showable, flagged, dict_item. rewrite failure_record_flag. discriminate.
  - apply returned_record_origin in Hbody
      as (h & model & content & d & _ & Hcreate & Hparse & ->).
    pose proof (Hconf _ _ _ _ Hcreate Hparse) as Hc.
    pose proof (parse_json_response_keys_once content d Hparse) as Hnd.
    intros _. unfold success_record. rewrite !dict_get_update by assumption.
    cbn in Hc. repeat (apply andb_true_iff in Hc as [Hc ?]).
    destruct (dict_get "depth_cm_estimate" d) as [depth|]; [|discriminate].
    destruct (dict_get "passability" d) as [pass|]; [|discriminate].
    now exists depth, pass.
Qed.

(** The batch returned and every record can be shown: [main] returns 0. *)
Lemma main_zero (w : World) (env : Environment) (h : list event) (key : string)
    (output_data : dict) :
  FloodImageAnalyzer_init w env None = inr key ->
  fst (main_batch w h) = inr output_data ->
  (forall files results,
      Forall2 (analysed w) files results ->
      dict_get "results" output_data = Some (VList (map VDict results)) ->
      Forall showable results) ->
  main w env h = (0%Z, history (snd (main_batch w h))).
Proof.
  intros Hkey Hbatch Hshow. unfold main. fold (main_batch w h). rewrite Hkey, Hbatch.
  assert (E : show_report (VDict output_data) = inr tt); [|now rewrite E].
  unfold main_batch in Hbatch.
  destruct (analyze_batch_run w "data/test_images"
              "data/results/analysis_results.json" (mkState h None))
    as [[_ E]|[(_ & e & _ & E)|[(_ & _ & E)
       |(_ & files & results & evs & _ & _ & _ & Hall & _ & _ & _ & H)]]].
  - rewrite E in Hbatch. discriminate.
  - rewrite E in Hbatch. discriminate.
  - rewrite E in Hbatch. injection Hbatch as <-. reflexivity.
  - cbv zeta in H. destruct (open_for_writing w _) as [e|]; destruct H as [H _];
      rewrite H in Hbatch; [discriminate|]. injection Hbatch as <-.
    rewrite show_report_batch. cbn [for_each_result].
    destruct (0 <? Z.of_nat (length (filter flagged results)))%Z; [|reflexivity].
    destruct (show_results_records files results (analysed_record_of w _ _ Hall))
      as [[E _]|[_ Hno]]; [exact E|].
    exfalso. apply Hno. now apply (Hshow files results).
Qed.

(** X20.  When every object the model sends is valid against the schema, [main]
    returns 0 as soon as a key is found and the batch returns: nothing can
    fail after the report has been written. *)
Theorem main_succeeds_when_replies_conform (w : World) (env : Environment)
    (h : list event) (key : string) (output_data : dict) :
  replies_conform w ->
  FloodImageAnalyzer_init w env None = inr key ->
  fst (main_batch w h) = inr output_data ->
  main w env h = (0%Z, history (snd (main_batch w h))).
Proof.
  intros Hconf Hkey Hbatch. apply (main_zero w env h key output_data Hkey Hbatch).
  intros files results Hall _.
  induction Hall as [|p r ps rs Hr _ IH]; [constructor|].
  constructor; [|exact IH].
  exact (conforming_record_showable w p r Hconf Hr).
Qed.

Lemma main_succeeds_when_replies_conform_witness :
  main (one_image good_reply) (env_with_key "sk-test") []
  = (0%Z, history (snd (main_batch (one_image good_reply) []))).
Proof.
  eapply (main_succeeds_when_replies_conform (one_image good_reply)
            (env_with_key "sk-test") [] "sk-test").
  - intros h params content d Hcreate Hparse.
    unfold one_image, sample_world in Hcreate. cbn [create] in Hcreate.
    injection Hcreate as <-. vm_compute in Hparse. injection Hparse as <-.
    vm_compute. reflexivity.
  - vm_compute. reflexivity.
  - vm_compute. reflexivity.
Defined.
